(** * Version Lens: the diff and identity-resolution engine of [src/App.jsx]

    A shallow embedding of the pure core of the application
    ([getFileSlug], [buildLCSTable], [backtrackLCS], [getWordDiff],
    [calculateDiff], [chunkifyDiff] and the [matchedPairs] computation)
    together with the properties stated for it.

    Conventions of the embedding.
    - A JavaScript string is a [string]: a sequence of code units below 256.
    - A JavaScript array is a [list]; reading index [i] is the partial lookup
      [l !! i].  Every read and every indexed write the source performs is
      written as a step of the [option] monad: an access outside the array
      is the fault [None].  The source's [while] loops take a fuel argument
      and running out of it is [None] as well.  That the functions never
      produce [None] is a theorem, not an assumption.
    - [null] and [undefined] fields are [option]s. *)

From Stdlib Require Import Ascii String.
From stdpp Require Import list strings sorting.

(** ** Loops *)

(** [for (let x = lo; x < lo + count; x++) s = body(x, s)] *)
Fixpoint for_loop {St : Type} (lo count : nat)
    (body : nat → St → option St) (s : St) : option St :=
  match count with
  | 0 => Some s
  | S count' => s' ← body lo s; for_loop (S lo) count' body s'
  end.

(** [arr[i - 1]]: for [i = 0] the index is [-1], which no array has. *)
Definition at_pred {X : Type} (arr : list X) (i : nat) : option X :=
  match i with
  | 0 => None
  | S k => arr !! k
  end.

(** ** LCS engine *)

Inductive OpType : Type := equal | added | removed.

Global Instance OpType_eq_dec : EqDecision OpType.
Proof. solve_decision. Defined.

(** [dp[i][j]] *)
Definition dp_get (dp : list (list nat)) (i j : nat) : option nat :=
  row ← dp !! i; row !! j.

(** [dp[i][j] = v] on an existing cell *)
Definition dp_set (dp : list (list nat)) (i j v : nat)
    : option (list (list nat)) :=
  row ← dp !! i;
  if decide (j < length row) then Some (<[i := <[j := v]> row]> dp) else None.

Section LCS.
Context {A : Type} `{EqDecision A}.

Definition lcs_cell (oldArr newArr : list A) (i j : nat)
    (dp : list (list nat)) : option (list (list nat)) :=
  a ← at_pred oldArr i;
  b ← at_pred newArr j;
  v ← (if decide (a = b)
       then x ← dp_get dp (i - 1) (j - 1); Some (x + 1)
       else x ← dp_get dp (i - 1) j; y ← dp_get dp i (j - 1);
            Some (x `max` y));
  dp_set dp i j v.

Definition buildLCSTable (oldArr newArr : list A)
    : option (list (list nat)) :=
  let m := length oldArr in
  let n := length newArr in
  let dp := replicate (m + 1) (replicate (n + 1) 0) in
  for_loop 1 m (λ i dp, for_loop 1 n (lcs_cell oldArr newArr i) dp) dp.

Context {Op : Type}.

(** The first test of the loop body:
    [i > 0 && j > 0 && oldArr[i - 1] === newArr[j - 1]]. *)
Definition test_equal (oldArr newArr : list A) (i j : nat) : option bool :=
  if decide (0 < i ∧ 0 < j)
  then a ← at_pred oldArr i; b ← at_pred newArr j;
       Some (bool_decide (a = b))
  else Some false.

(** The second test:
    [j > 0 && (i === 0 || dp[i][j - 1] >= dp[i - 1][j])]. *)
Definition test_added (dp : list (list nat)) (i j : nat) : option bool :=
  if decide (0 < j)
  then if decide (i = 0) then Some true
       else x ← dp_get dp i (j - 1); y ← dp_get dp (i - 1) j;
            Some (bool_decide (y ≤ x)%nat)
  else Some false.

(** The [while (i > 0 || j > 0)] loop; [result.unshift(x)] is [x :: result]. *)
Fixpoint backtrack_loop (fuel : nat) (dp : list (list nat))
    (oldArr newArr : list A)
    (makeOp : OpType → option nat → option nat → A → Op)
    (i j : nat) (result : list Op) : option (list Op) :=
  if decide (0 < i ∨ 0 < j) then
    match fuel with
    | 0 => None
    | S fuel' =>
        t1 ← test_equal oldArr newArr i j;
        if t1 : bool then
          x ← at_pred oldArr i;
          backtrack_loop fuel' dp oldArr newArr makeOp (i - 1) (j - 1)
            (makeOp equal (Some i) (Some j) x :: result)
        else
          t2 ← test_added dp i j;
          if t2 : bool then
            x ← at_pred newArr j;
            backtrack_loop fuel' dp oldArr newArr makeOp i (j - 1)
              (makeOp added None (Some j) x :: result)
          else
            x ← at_pred oldArr i;
            backtrack_loop fuel' dp oldArr newArr makeOp (i - 1) j
              (makeOp removed (Some i) None x :: result)
    end
  else Some result.

Definition backtrackLCS (dp : list (list nat)) (oldArr newArr : list A)
    (makeOp : OpType → option nat → option nat → A → Op)
    : option (list Op) :=
  backtrack_loop (length oldArr + length newArr) dp oldArr newArr makeOp
    (length oldArr) (length newArr) [].
End LCS.

(** ** Strings *)

Definition code (c : ascii) : nat := nat_of_ascii c.

(** [\d] *)
Definition is_digit (c : ascii) : bool :=
  bool_decide (48 ≤ code c ≤ 57).

(** [\w]: the class [[A-Za-z0-9_]] *)
Definition is_word (c : ascii) : bool :=
  bool_decide (65 ≤ code c ≤ 90) || bool_decide (97 ≤ code c ≤ 122)
  || is_digit c || bool_decide (code c = 95).

(** [\s], and the characters [trim] removes: tab, line feed, vertical tab,
    form feed, carriage return, space and no-break space. *)
Definition is_space (c : ascii) : bool :=
  bool_decide (9 ≤ code c ≤ 13) || bool_decide (code c = 32)
  || bool_decide (code c = 160).

(** [[._-]] *)
Definition is_sep (c : ascii) : bool :=
  bool_decide (c = "."%char) || bool_decide (c = "_"%char)
  || bool_decide (c = "-"%char).

(** One code unit of [toLowerCase]: the letters [A]-[Z] and the upper-case
    letters of the Latin-1 block move up by 32. *)
Definition lower_char (c : ascii) : ascii :=
  if bool_decide (65 ≤ code c ≤ 90)
     || (bool_decide (192 ≤ code c ≤ 222) && negb (bool_decide (code c = 215)))
  then ascii_of_nat (code c + 32)
  else c.

(** [s.toLowerCase()], code unit by code unit: the language's function on
    strings of code units below 256.  (Beyond them the result can depend on
    the neighbouring characters, as it does for a final sigma.) *)
Fixpoint toLowerCase (s : string) : string :=
  match s with
  | EmptyString => EmptyString
  | String c r => String (lower_char c) (toLowerCase r)
  end.

(** [s.split(sep)] for a separator of one character. *)
Fixpoint split (sep : ascii) (s : string) : list string :=
  match s with
  | EmptyString => [EmptyString]
  | String c r =>
      if bool_decide (c = sep) then EmptyString :: split sep r
      else match split sep r with
           | h :: t => String c h :: t
           | [] => [String c EmptyString]
           end
  end.

(** [parts.join(sep)], the inverse of [split]. *)
Fixpoint join (sep : ascii) (parts : list string) : string :=
  match parts with
  | [] => EmptyString
  | [h] => h
  | h :: t => h +:+ String sep (join sep t)
  end.

Fixpoint starts_with (p s : string) : bool :=
  match p, s with
  | EmptyString, _ => true
  | String a p', String b s' => bool_decide (a = b) && starts_with p' s'
  | String _ _, EmptyString => false
  end.

(** [s.replace(re, '')] for a global regular expression without
    look-around whose matches are never empty.  [re s] is the length of the
    match of the expression at the start of [s], if there is one.  The
    scan goes left to right; after a match it resumes at the match's end. *)
Fixpoint remove_from (re : string → option nat) (skip : nat) (s : string)
    : string :=
  match s with
  | EmptyString => EmptyString
  | String c r =>
      match skip with
      | S k => remove_from re k r
      | 0 =>
          match re s with
          | Some n => remove_from re (n - 1) r
          | None => String c (remove_from re 0 r)
          end
      end
  end.

Definition remove_all (re : string → option nat) (s : string) : string :=
  remove_from re 0 s.

(** Length of the longest match of [\d*(\.\d+)*] at the start of [s]: what
    is left of [\d+(\.\d+)*] once a digit has been read.  All quantifiers
    are greedy and nothing follows them, so the first match the
    backtracking search finds is the longest one. *)
Fixpoint version_tail (s : string) : nat :=
  match s with
  | EmptyString => 0
  | String c r =>
      if is_digit c then S (version_tail r)
      else if bool_decide (c = "."%char) then
        match r with
        | String d r' => if is_digit d then S (S (version_tail r')) else 0
        | EmptyString => 0
        end
      else 0
  end.

(** [\d+(\.\d+)*] *)
Definition re_digits (s : string) : option nat :=
  match s with
  | String d r => if is_digit d then Some (S (version_tail r)) else None
  | EmptyString => None
  end.

(** [/[._-]v?\d+(\.\d+)*/] at the start of [s].  When a [v] follows the
    separator it is taken; leaving it out cannot help, as a digit would
    have to stand in its place. *)
Definition re_version (s : string) : option nat :=
  match s with
  | String c r =>
      if is_sep c then
        match r with
        | String "v" r' => n ← re_digits r'; Some (2 + n)
        | _ => n ← re_digits r; Some (1 + n)
        end
      else None
  | EmptyString => None
  end.

(** [(legacy|modern|old|new|final|latest)]: the first alternative that
    matches. *)
Definition stage_words : list string :=
  ["legacy"; "modern"; "old"; "new"; "final"; "latest"]%string.

Definition re_stage_word (s : string) : option nat :=
  String.length <$> head (filter (λ w, starts_with w s = true) stage_words).

(** [/[._-](legacy|modern|old|new|final|latest)/] at the start of [s]. *)
Definition re_stage (s : string) : option nat :=
  match s with
  | String c r => if is_sep c then n ← re_stage_word r; Some (1 + n) else None
  | EmptyString => None
  end.

(** [[^/.]+$] holds of the whole of [s]. *)
Fixpoint ext_chars (s : string) : bool :=
  match s with
  | EmptyString => true
  | String c r =>
      negb (bool_decide (c = "/"%char)) && negb (bool_decide (c = "."%char))
      && ext_chars r
  end.

(** [s.replace(/\.[^/.]+$/, "")]: the leftmost dot that is followed, up to
    the end of the string, by one or more characters other than [/] and
    [.] is removed together with what follows it. *)
Fixpoint strip_extension (s : string) : string :=
  match s with
  | EmptyString => EmptyString
  | String c r =>
      if bool_decide (c = "."%char)
         && negb (bool_decide (r = EmptyString)) && ext_chars r
      then EmptyString
      else String c (strip_extension r)
  end.

Fixpoint trimStart (s : string) : string :=
  match s with
  | EmptyString => EmptyString
  | String c r => if is_space c then trimStart r else s
  end.

Fixpoint trimEnd (s : string) : string :=
  match s with
  | EmptyString => EmptyString
  | String c r =>
      match trimEnd r with
      | EmptyString => if is_space c then EmptyString else String c EmptyString
      | r' => String c r'
      end
  end.

Definition trim (s : string) : string := trimEnd (trimStart s).

(** ** Slug resolver *)

Definition getFileSlug (path : string) : option string :=
  let segments := split "/" path in
  filename ← segments !! (length segments - 1);
  Some (trim
          (strip_extension
             (remove_all re_stage
                (remove_all re_version (toLowerCase filename))))).

(** ** Word differ *)

(** The string tags the source puts in its [type] fields. *)
Inductive Tag : Type := unchanged | modified | deleted | tag (t : OpType).

Global Instance Tag_eq_dec : EqDecision Tag.
Proof. solve_decision. Defined.

Coercion tag : OpType >-> Tag.

(** [\b] between two neighbouring positions; outside the string there is
    no word character. *)
Definition word_boundary (prev next : option ascii) : bool :=
  negb (bool_decide (from_option is_word false prev
                     = from_option is_word false next)).

(** [s.split(/(\s+|\b)/)], following the steps of the language's split:
    [p] is the end of the last separator, [q] the position where the
    expression is tried, [cur] the text between them and [prev] the
    character before [q].  A match at [q] that ends at [p] is skipped;
    any other match adds [cur] and the text of the capture group to the
    result.  [split_ws] reads on through the white space of a [\s+]
    match. *)
Fixpoint split_tokens (prev : option ascii) (cur : string) (s : string)
    : list string :=
  match s with
  | EmptyString => [cur]
  | String c r =>
      if is_space c then cur :: split_ws (String c EmptyString) r
      else if word_boundary prev (Some c) then
        if bool_decide (cur = EmptyString)
        then split_tokens (Some c) (String c EmptyString) r
        else cur :: EmptyString
               :: split_tokens (Some c) (String c EmptyString) r
      else split_tokens (Some c) (cur +:+ String c EmptyString) r
  end
with split_ws (ws : string) (s : string) : list string :=
  match s with
  | EmptyString => [ws; EmptyString]
  | String c r =>
      if is_space c then split_ws (ws +:+ String c EmptyString) r
      else ws :: split_tokens (Some c) (String c EmptyString) r
  end.

(** [s.split(/(\s+|\b)/).filter(Boolean)] *)
Definition tokenize (s : string) : list string :=
  filter (λ t, t ≠ EmptyString) (split_tokens None EmptyString s).

Record WordSegment : Type := mkSegment { value : string; seg_type : Tag }.

Global Instance WordSegment_eq_dec : EqDecision WordSegment.
Proof. solve_decision. Defined.

Definition getWordDiff (oldStr newStr : string) : option (list WordSegment) :=
  let oldTokens := tokenize oldStr in
  let newTokens := tokenize newStr in
  dp ← buildLCSTable oldTokens newTokens;
  backtrackLCS dp oldTokens newTokens
    (λ type _oi _ni value, {| value := value; seg_type := type |}).

(** The body of [rawSegments.forEach]: [last] is the last element of
    [coalesced], or [undefined] when there is none. *)
Definition coalesce_step (coalesced : list WordSegment) (seg : WordSegment)
    : list WordSegment :=
  match coalesced !! (length coalesced - 1) with
  | Some last =>
      if decide (seg_type last = seg_type seg)
      then <[length coalesced - 1 :=
               {| value := value last +:+ value seg;
                  seg_type := seg_type last |}]> coalesced
      else coalesced ++ [seg]
  | None => coalesced ++ [seg]
  end.

Definition coalesce (rawSegments : list WordSegment) : list WordSegment :=
  foldl coalesce_step [] rawSegments.

(** ** Line differ *)

Record LineOp : Type := mkLineOp {
  op_type : Tag;
  oldIdx : option nat;
  newIdx : option nat;
  op_content : string
}.

(** [pairedWith] is the position, in the diff, of the line referred to. *)
Record DiffLine : Type := mkDiffLine {
  type : Tag;
  oldLine : option nat;
  newLine : option nat;
  content : string;
  pairedWith : option nat;
  segments : option (list WordSegment)
}.

Global Instance DiffLine_eq_dec : EqDecision DiffLine.
Proof. solve_decision. Defined.

Definition makeLineOp (type : OpType) (oldIdx newIdx : option nat)
    (content : string) : LineOp :=
  {| op_type := if decide (type = equal) then unchanged else tag type;
     oldIdx := oldIdx; newIdx := newIdx; op_content := content |}.

(** The inner [while (opIdx < ops.length && ops[opIdx].type !== 'unchanged')]. *)
Fixpoint collect_run (fuel : nat) (ops : list LineOp) (opIdx : nat)
    (removed_ added_ : list LineOp)
    : option (nat * list LineOp * list LineOp) :=
  if decide (opIdx < length ops) then
    op ← ops !! opIdx;
    if decide (op_type op ≠ unchanged) then
      match fuel with
      | 0 => None
      | S fuel' =>
          if decide (op_type op = tag removed)
          then collect_run fuel' ops (opIdx + 1) (removed_ ++ [op]) added_
          else collect_run fuel' ops (opIdx + 1) removed_ (added_ ++ [op])
      end
    else Some (opIdx, removed_, added_)
  else Some (opIdx, removed_, added_).

(** The body of [for (let k = 0; k < maxPairs; k++)]. *)
Definition interleave_step (removed_ added_ : list LineOp) (k : nat)
    (diff : list DiffLine) : option (list DiffLine) :=
  diff ← (if decide (k < length removed_)
          then r ← removed_ !! k;
               Some (diff ++ [mkDiffLine (tag removed) (oldIdx r) None
                                (op_content r) None None])
          else Some diff);
  if decide (k < length added_)
  then a ← added_ !! k;
       Some (diff ++ [mkDiffLine (tag added) None (newIdx a)
                        (op_content a) None None])
  else Some diff.

(** The outer [while (opIdx < ops.length)]. *)
Fixpoint resequence_loop (fuel : nat) (ops : list LineOp) (opIdx : nat)
    (diff : list DiffLine) : option (list DiffLine) :=
  if decide (opIdx < length ops) then
    match fuel with
    | 0 => None
    | S fuel' =>
        op ← ops !! opIdx;
        if decide (op_type op = unchanged) then
          resequence_loop fuel' ops (opIdx + 1)
            (diff ++ [mkDiffLine unchanged (oldIdx op) (newIdx op)
                        (op_content op) None None])
        else
          '(opIdx', removed_, added_) ← collect_run (length ops) ops opIdx [] [];
          let maxPairs := length removed_ `max` length added_ in
          diff' ← for_loop 0 maxPairs (interleave_step removed_ added_) diff;
          resequence_loop fuel' ops opIdx' diff'
    end
  else Some diff.

Definition resequence (ops : list LineOp) : option (list DiffLine) :=
  resequence_loop (length ops) ops 0 [].

(** The body of the pairing loop, [for (let k = 0; k < diff.length - 1; k++)]. *)
Definition pair_step (k : nat) (diff : list DiffLine)
    : option (list DiffLine) :=
  current ← diff !! k;
  next ← diff !! (k + 1);
  let isChangePair :=
    bool_decide (type current = tag removed ∧ type next = tag added)
    || bool_decide (type current = tag added ∧ type next = tag removed) in
  if isChangePair && bool_decide (pairedWith current = None)
     && bool_decide (pairedWith next = None)
  then
    let oldStr := if decide (type current = tag removed)
                  then content current else content next in
    let newStr := if decide (type current = tag added)
                  then content current else content next in
    rawSegments ← getWordDiff oldStr newStr;
    let coalesced := coalesce rawSegments in
    let current' := mkDiffLine (type current) (oldLine current)
                      (newLine current) (content current)
                      (Some (k + 1)) (Some coalesced) in
    let next' := mkDiffLine (type next) (oldLine next) (newLine next)
                   (content next) (Some k) (Some coalesced) in
    Some (<[k + 1 := next']> (<[k := current']> diff))
  else Some diff.

(** [text || ''] *)
Definition or_empty (text : option string) : string :=
  default EmptyString text.

Definition calculateDiff (oldText newText : option string)
    : option (list DiffLine) :=
  let oldLines := split "010" (or_empty oldText) in
  let newLines := split "010" (or_empty newText) in
  dp ← buildLCSTable oldLines newLines;
  ops ← backtrackLCS dp oldLines newLines makeLineOp;
  diff ← resequence ops;
  for_loop 0 (length diff - 1) pair_step diff.

(** ** Chunk folder *)

Record Chunk : Type := mkChunk { chunk_type : Tag; lines : list DiffLine }.

(** The body of [for (let i = 1; i < diff.length; i++)]; the state is
    [chunks] and [currentChunk]. *)
Definition chunk_step (diff : list DiffLine) (i : nat)
    (st : list Chunk * Chunk) : option (list Chunk * Chunk) :=
  let '(chunks, currentChunk) := st in
  d ← diff !! i;
  if bool_decide (type d = chunk_type currentChunk)
     || (bool_decide (type d ≠ unchanged)
         && bool_decide (chunk_type currentChunk ≠ unchanged))
  then Some (chunks, mkChunk (chunk_type currentChunk)
                       (lines currentChunk ++ [d]))
  else Some (chunks ++ [currentChunk], mkChunk (type d) [d]).

Definition chunkifyDiff (diff : list DiffLine) : option (list Chunk) :=
  if decide (length diff = 0) then Some []
  else
    d0 ← diff !! 0;
    '(chunks, currentChunk) ←
      for_loop 1 (length diff - 1) (chunk_step diff) ([], mkChunk (type d0) [d0]);
    Some (chunks ++ [currentChunk]).

(** ** File matcher *)

Record SourceFile : Type := mkSourceFile {
  path : string;
  file_content : string;
  size : nat
}.

Record MatchedPair : Type := mkMatchedPair {
  pair_type : Tag;
  slug : string;
  v1 : option SourceFile;
  v2 : option SourceFile
}.

(** A [Map] with string keys: the entries in insertion order. *)
Definition map_has {V : Type} (k : string) (m : list (string * V)) : bool :=
  bool_decide (k ∈ m.*1).

Definition map_get {V : Type} (k : string) (m : list (string * V))
    : option V :=
  snd <$> head (filter (λ e, e.1 = k) m).

Fixpoint map_set {V : Type} (k : string) (v : V) (m : list (string * V))
    : list (string * V) :=
  match m with
  | [] => [(k, v)]
  | (k', v') :: m' =>
      if decide (k' = k) then (k, v) :: m' else (k', v') :: map_set k v m'
  end.

(** [new Set(keys)]: the distinct keys in order of first appearance. *)
Definition set_add (s : list string) (k : string) : list string :=
  if bool_decide (k ∈ s) then s else s ++ [k].

Definition new_Set (keys : list string) : list string :=
  foldl set_add [] keys.

(** [arr.reduce(f, init)] for a callback that can fail. *)
Fixpoint reduce {X St : Type} (f : St → X → option St) (arr : list X)
    (init : St) : option St :=
  match arr with
  | [] => Some init
  | x :: arr' => acc ← f init x; reduce f arr' acc
  end.

(** The callback of [buildFileMap]; [map.get(slug).push(f)] changes the
    list stored under [slug]. *)
Definition file_map_step (map : list (string * list SourceFile))
    (f : SourceFile) : option (list (string * list SourceFile)) :=
  slug ← getFileSlug (path f);
  let map := if map_has slug map then map else map_set slug [] map in
  files ← map_get slug map;
  Some (map_set slug (files ++ [f]) map).

Definition buildFileMap (files : list SourceFile)
    : option (list (string * list SourceFile)) :=
  reduce file_map_step files [].

Definition make_pair (v1Map v2Map : list (string * list SourceFile))
    (slug : string) : MatchedPair :=
  let v1Matches := default [] (map_get slug v1Map) in
  let v2Matches := default [] (map_get slug v2Map) in
  if decide (0 < length v1Matches ∧ 0 < length v2Matches)
  then mkMatchedPair modified slug (v1Matches !! 0) (v2Matches !! 0)
  else if decide (0 < length v1Matches)
  then mkMatchedPair deleted slug (v1Matches !! 0) None
  else mkMatchedPair (tag added) slug None (v2Matches !! 0).

(** [arr.sort(cmp)].  The language asks for a stable sort and fixes the
    result whenever [cmp] is a consistent comparator; the model is the
    stable insertion sort. *)
Fixpoint sort_insert {X : Type} (cmp : X → X → Z) (x : X) (sorted : list X)
    : list X :=
  match sorted with
  | [] => [x]
  | y :: sorted' =>
      if decide (0 < cmp y x)%Z then x :: y :: sorted'
      else y :: sort_insert cmp x sorted'
  end.

Definition sort {X : Type} (cmp : X → X → Z) (arr : list X) : list X :=
  foldl (λ sorted x, sort_insert cmp x sorted) [] arr.

Section Matcher.
(** [String.prototype.localeCompare] belongs to the host, not to the
    program: its collation is a parameter. *)
Variable localeCompare : string → string → Z.

Definition matchedPairs (v1Files v2Files : list SourceFile)
    : option (list MatchedPair) :=
  if decide (length v1Files = 0 ∧ length v2Files = 0) then Some []
  else
    v1Map ← buildFileMap v1Files;
    v2Map ← buildFileMap v2Files;
    let allSlugs := new_Set (v1Map.*1 ++ v2Map.*1) in
    Some (sort (λ a b, localeCompare (slug a) (slug b))
            (make_pair v1Map v2Map <$> allSlugs)).
End Matcher.

(** Comparison of strings code unit by code unit, as a number. *)
Definition codeunit_compare (s t : string) : Z :=
  match String.compare s t with
  | Lt => (-1)%Z
  | Eq => 0%Z
  | Gt => 1%Z
  end.

(** * Specifications *)

Section LCS_spec.
Context {A : Type} `{EqDecision A}.

(** [s] is a subsequence of both [a] and [b]. *)
Definition common_subseq (s a b : list A) : Prop :=
  s `sublist_of` a ∧ s `sublist_of` b.

(** [k] is the length of a longest common subsequence of [a] and [b]. *)
Definition is_lcs_length (a b : list A) (k : nat) : Prop :=
  (∃ s, common_subseq s a b ∧ length s = k)
  ∧ ∀ s, common_subseq s a b → length s ≤ k.

Section table.
Variables oldArr newArr : list A.

(** The cell holds the length of a longest common subsequence of the
    two prefixes. *)
Definition cell_ok (dp : list (list nat)) (i j : nat) : Prop :=
  ∃ v, dp_get dp i j = Some v
       ∧ is_lcs_length (take i oldArr) (take j newArr) v.

Definition table_shape (dp : list (list nat)) : Prop :=
  length dp = length oldArr + 1
  ∧ Forall (λ row, length row = length newArr + 1) dp.

(** The cells filled when the loops stand at [(i, j)]. *)
Definition filled (i j i' j' : nat) : Prop :=
  i' < i ∨ j' = 0 ∨ (i' = i ∧ j' < j).

Definition table_inv (i j : nat) (dp : list (list nat)) : Prop :=
  table_shape dp
  ∧ ∀ i' j', i' ≤ length oldArr → j' ≤ length newArr →
      filled i j i' j' → cell_ok dp i' j'.
End table.

(** An edit operation as the backtracker hands it to [makeOp]. *)
Record EditOp : Type := mkEditOp {
  kind : OpType;
  oldIndex : option nat;
  newIndex : option nat;
  op_value : A
}.

Definition apply_makeOp {Op : Type}
    (makeOp : OpType → option nat → option nat → A → Op) (e : EditOp) : Op :=
  makeOp (kind e) (oldIndex e) (newIndex e) (op_value e).

Section walk.
Variables (table : list (list nat)) (seqA seqB : list A).

(** Both indices are positive and the current elements are equal. *)
Definition current_equal (i j : nat) : Prop :=
  0 < i ∧ 0 < j ∧ ∃ x, at_pred seqA i = Some x ∧ at_pred seqB j = Some x.

(** [j > 0] and ([i == 0] or [table[i][j-1] >= table[i-1][j]]). *)
Definition prefer_added (i j : nat) : Prop :=
  0 < j ∧ (i = 0 ∨ ∃ x y, dp_get table i (j - 1) = Some x
                           ∧ dp_get table (i - 1) j = Some y ∧ y ≤ x).

(** The walk of the backtracking policy from [(i, j)] to [(0, 0)], as the
    specification words it, with the operations in the order in which
    they are emitted. *)
Inductive walk : nat → nat → list EditOp → Prop :=
  | walk_end : walk 0 0 []
  | walk_equal i j x ops :
      current_equal i j → at_pred seqA i = Some x →
      walk (i - 1) (j - 1) ops →
      walk i j (mkEditOp equal (Some i) (Some j) x :: ops)
  | walk_added i j y ops :
      ¬ current_equal i j → prefer_added i j → at_pred seqB j = Some y →
      walk i (j - 1) ops →
      walk i j (mkEditOp added None (Some j) y :: ops)
  | walk_removed i j x ops :
      0 < i ∨ 0 < j →
      ¬ current_equal i j → ¬ prefer_added i j → at_pred seqA i = Some x →
      walk (i - 1) j ops →
      walk i j (mkEditOp removed (Some i) None x :: ops).
End walk.

(** The elements an edit script keeps or removes, and those it keeps or
    adds. *)
Definition old_side (ops : list EditOp) : list A :=
  op_value <$> filter (λ e, kind e ≠ added) ops.

Definition new_side (ops : list EditOp) : list A :=
  op_value <$> filter (λ e, kind e ≠ removed) ops.
End LCS_spec.


(** ** Re-sequencing, as the specification words it *)

(** The three kinds of line the differ emits for an operation. *)
Definition unchanged_line (op : LineOp) : DiffLine :=
  mkDiffLine unchanged (oldIdx op) (newIdx op) (op_content op) None None.

Definition removed_line (op : LineOp) : DiffLine :=
  mkDiffLine (tag removed) (oldIdx op) None (op_content op) None None.

Definition added_line (op : LineOp) : DiffLine :=
  mkDiffLine (tag added) None (newIdx op) (op_content op) None None.

(** Step [k] of the interleaving: [removed[k]] if it exists, then
    [added[k]] if it exists. *)
Definition emit_at (removed_ added_ : list LineOp) (k : nat)
    : list DiffLine :=
  option_list (removed_line <$> removed_ !! k)
  ++ option_list (added_line <$> added_ !! k).

Definition emit_run (run : list LineOp) : list DiffLine :=
  let removed_ := filter (λ op, op_type op = tag removed) run in
  let added_ := filter (λ op, op_type op = tag added) run in
  flat_map (emit_at removed_ added_)
    (seq 0 (length removed_ `max` length added_)).

(** An operation sequence cut into unchanged operations and runs of
    operations that are not unchanged. *)
Inductive Group : Type := Pass (op : LineOp) | Run (run : list LineOp).

Definition ungroup (g : Group) : list LineOp :=
  match g with
  | Pass op => [op]
  | Run run => run
  end.

Definition emit_group (g : Group) : list DiffLine :=
  match g with
  | Pass op => [unchanged_line op]
  | Run run => emit_run run
  end.

Definition group_ok (g : Group) : Prop :=
  match g with
  | Pass op => op_type op = unchanged
  | Run run => run ≠ [] ∧ Forall (λ op, op_type op ≠ unchanged) run
  end.

Definition no_adjacent_runs (groups : list Group) : Prop :=
  ∀ k r1 r2, groups !! k = Some (Run r1) → groups !! S k = Some (Run r2) →
    False.

(** [groups] cuts [ops] into its unchanged operations and its maximal runs
    of consecutive operations that are not unchanged. *)
Definition maximal_runs (ops : list LineOp) (groups : list Group) : Prop :=
  ops = concat (ungroup <$> groups)
  ∧ Forall group_ok groups
  ∧ no_adjacent_runs groups.

Fixpoint group_runs (ops : list LineOp) : list Group :=
  match ops with
  | [] => []
  | op :: ops' =>
      if decide (op_type op = unchanged) then Pass op :: group_runs ops'
      else match group_runs ops' with
           | Run run :: groups => Run (op :: run) :: groups
           | groups => Run [op] :: groups
           end
  end.

(** A line without what the pairing pass attaches to it. *)
Definition core (l : DiffLine) : DiffLine :=
  mkDiffLine (type l) (oldLine l) (newLine l) (content l) None None.

(** The operations of the line differ carry one of three tags. *)
Definition line_tag (op : LineOp) : Prop :=
  op_type op = unchanged ∨ op_type op = tag removed ∨ op_type op = tag added.

(** The lines of the old text in a diff are those of kind unchanged or
    removed, the lines of the new text those of kind unchanged or added. *)
Definition old_lines (diff : list DiffLine) : list string :=
  content <$> filter (λ l, type l = unchanged ∨ type l = tag removed) diff.

Definition new_lines (diff : list DiffLine) : list string :=
  content <$> filter (λ l, type l = unchanged ∨ type l = tag added) diff.

(** ** Coalescing, as the specification words it *)

Definition no_adjacent_same (segs : list WordSegment) : Prop :=
  ∀ k s1 s2, segs !! k = Some s1 → segs !! S k = Some s2 →
    seg_type s1 ≠ seg_type s2.

(** The values of a block of segments, concatenated. *)
Definition block_value (block : list WordSegment) : string :=
  foldr (λ s acc, value s +:+ acc) EmptyString block.

(** [segs] is [raw] with each block of adjacent segments of one kind merged
    into a single segment of that kind. *)
Definition merges (raw segs : list WordSegment) : Prop :=
  ∃ blocks,
    raw = concat blocks
    ∧ Forall2 (λ block s, block ≠ []
                          ∧ Forall (λ r, seg_type r = seg_type s) block
                          ∧ value s = block_value block) blocks segs.

(** ** The pairing pass *)

(** [segs] is the coalesced word diff of a removed and an added line. *)
Definition word_diff_of (removed_ added_ : DiffLine)
    (segs : list WordSegment) : Prop :=
  ∃ raw, getWordDiff (content removed_) (content added_) = Some raw
         ∧ segs = coalesce raw.

(** Line [l], at position [k] of [diff], is either unpaired and without
    segments, or paired with a neighbour of the opposite kind that refers
    back to it and shares its segments. *)
Definition paired_at (diff : list DiffLine) (k : nat) (l : DiffLine) : Prop :=
  match pairedWith l with
  | None => segments l = None
  | Some p =>
      ∃ partner segs,
        (p = S k ∨ k = S p)
        ∧ diff !! p = Some partner
        ∧ pairedWith partner = Some k
        ∧ segments l = Some segs
        ∧ segments partner = Some segs
        ∧ ((type l = tag removed ∧ type partner = tag added
            ∧ word_diff_of l partner segs)
           ∨ (type l = tag added ∧ type partner = tag removed
              ∧ word_diff_of partner l segs))
  end.

Definition pairing_ok (diff : list DiffLine) : Prop :=
  ∀ k l, diff !! k = Some l → paired_at diff k l.

(** The state of the pairing loop started on [diff0]. *)
Definition pairing_inv (diff0 diff : list DiffLine) : Prop :=
  length diff = length diff0
  ∧ core <$> diff = core <$> diff0
  ∧ pairing_ok diff.

(** ** The worked examples *)

Definition LF : string := String "010" EmptyString.

Definition example_old : string := "foo" +:+ LF +:+ "bar" +:+ LF.
Definition example_new : string := "foo" +:+ LF +:+ "baz" +:+ LF.

Definition example_segments : list WordSegment :=
  [mkSegment "bar" (tag removed); mkSegment "baz" (tag added)].

Definition example_foo : DiffLine :=
  mkDiffLine unchanged (Some 1) (Some 1) "foo" None None.
Definition example_bar : DiffLine :=
  mkDiffLine (tag removed) (Some 2) None "bar" (Some 2) (Some example_segments).
Definition example_baz : DiffLine :=
  mkDiffLine (tag added) None (Some 2) "baz" (Some 1) (Some example_segments).
Definition example_last : DiffLine :=
  mkDiffLine unchanged (Some 3) (Some 3) "" None None.

Definition example_diff : list DiffLine :=
  [example_foo; example_bar; example_baz; example_last].

(** ** Chunks *)

(** A chunk has lines, and they are unchanged exactly when the chunk is. *)
Definition chunk_ok (c : Chunk) : Prop :=
  lines c ≠ []
  ∧ Forall (λ l, type l = unchanged ↔ chunk_type c = unchanged) (lines c).

(** The chunk holds both an unchanged line and one that is not. *)
Definition mixed (c : Chunk) : Prop :=
  ∃ l1 l2, l1 ∈ lines c ∧ l2 ∈ lines c
           ∧ type l1 = unchanged ∧ type l2 ≠ unchanged.

(** The state of the chunking loop before it reads [diff[i]]. *)
Definition chunk_inv (diff : list DiffLine) (i : nat)
    (st : list Chunk * Chunk) : Prop :=
  concat (lines <$> st.1) ++ lines st.2 = take i diff
  ∧ Forall chunk_ok st.1
  ∧ chunk_ok st.2.

Definition base_files : list SourceFile :=
  [mkSourceFile "a_v1.js" "" 0; mkSourceFile "util-legacy.js" "" 0].

Definition target_files : list SourceFile :=
  [mkSourceFile "a_v2.js" "" 0; mkSourceFile "util-modern.js" "" 0;
   mkSourceFile "new.js" "" 0].

(** * The rest of the application's pure code *)

(** ** Counters of the comparison header *)

Record DiffStats : Type := mkDiffStats { stat_added : nat; stat_removed : nat }.

(** The callback of [diff.reduce] in [ComparisonView]. *)
Definition stats_step (acc : DiffStats) (d : DiffLine) : DiffStats :=
  if decide (type d = tag added)
  then mkDiffStats (stat_added acc + 1) (stat_removed acc)
  else if decide (type d = tag removed)
  then mkDiffStats (stat_added acc) (stat_removed acc + 1)
  else acc.

Definition diff_stats (diff : list DiffLine) : DiffStats :=
  foldl stats_step (mkDiffStats 0 0) diff.

(** ** Rendering of a line *)

(** A [span] element: its text and whether it is highlighted. *)
Record Span : Type := mkSpan { span_text : string; highlighted : bool }.

(** What [renderContent] returns: one entry for each segment, [null] for a
    segment that belongs to the other line, or the plain content. *)
Inductive Rendered : Type :=
  | Spans (spans : list (option Span))
  | Plain (text : string).

Definition render_segment (line : DiffLine) (segment : WordSegment)
    : option Span :=
  if decide (seg_type segment = tag equal)
  then Some (mkSpan (value segment) false)
  else if decide (seg_type segment ≠ type line) then None
  else Some (mkSpan (value segment) true).

Definition renderContent (line : DiffLine) : Rendered :=
  match segments line with
  | Some segs => Spans (render_segment line <$> segs)
  | None => Plain (content line)
  end.

(** [line.type === 'added' ? '+' : line.type === 'removed' ? '-' : ' '] *)
Definition prefix (line : DiffLine) : string :=
  if decide (type line = tag added) then "+"
  else if decide (type line = tag removed) then "-" else " ".

(** The colour of a line in [DiffMiniMap]. *)
Definition minimap_color (line : DiffLine) : string :=
  let color := "transparent" in
  let color := if decide (type line = tag added) then "#10b981" else color in
  if decide (type line = tag removed) then "#f43f5e" else color.

(** ** Folding of a chunk *)

Definition CONTEXT_LINES : nat := 3.

(** What [ChunkBlock] shows: all lines, or the first lines, the button
    with the number of folded lines, and the last lines. *)
Inductive ChunkView : Type :=
  | ShowAll (shown : list DiffLine)
  | Folded (startLines : list DiffLine) (foldedCount : nat)
      (endLines : list DiffLine).

(** [arr.slice(-n)] for a positive [n]. *)
Definition slice_last {X : Type} (n : nat) (arr : list X) : list X :=
  drop (length arr - n) arr.

Definition ChunkBlock (chunk : Chunk) (isExpanded : bool) : ChunkView :=
  let isUnchanged := bool_decide (chunk_type chunk = unchanged) in
  let shouldFold :=
    isUnchanged
    && bool_decide (CONTEXT_LINES * 2 + 2 < length (lines chunk)) in
  if negb shouldFold || isExpanded then ShowAll (lines chunk)
  else
    let startLines := take CONTEXT_LINES (lines chunk) in
    let endLines := slice_last CONTEXT_LINES (lines chunk) in
    let foldedCount := length (lines chunk) - CONTEXT_LINES * 2 in
    Folded startLines foldedCount endLines.

(** ** Ignore policy *)

Definition DEFAULT_IGNORE : list string :=
  ["png"; "jpg"; "jpeg"; "gif"; "svg"; "ico"; "pdf"; "zip"; "tar"; "gz";
   "exe"; "dll"; "so"; "dylib"; "bin"; "woff"; "woff2"; "ttf"; "eot";
   "node_modules"; ".git"; ".DS_Store"; "dist"; "build"; "__pycache__";
   ".next"]%string.

(** [s.endsWith(p)] *)
Fixpoint endsWith (s p : string) : bool :=
  bool_decide (s = p)
  || match s with
     | EmptyString => false
     | String _ r => endsWith r p
     end.

(** [s.includes(p)] *)
Fixpoint includes (s p : string) : bool :=
  starts_with p s
  || match s with
     | EmptyString => false
     | String _ r => includes r p
     end.

(** [s.startsWith(p)] *)
Definition startsWith (s p : string) : bool := starts_with p s.

Definition shouldIgnore (ignoreList : list string) (path : string) : bool :=
  let lowerPath := toLowerCase path in
  existsb (λ pattern,
             let p := toLowerCase pattern in
             endsWith lowerPath p
             || includes lowerPath ("/" +:+ p +:+ "/")
             || startsWith lowerPath (p +:+ "/"))
    ignoreList.

(** [addTag] of [SettingsModal], as a function of the ignore list and the
    text typed: the list it passes to [setIgnoreList], or the list as it is
    when nothing is set. *)
Definition addTag (ignoreList : list string) (newTag : string)
    : list string :=
  if negb (bool_decide (newTag = EmptyString))
     && negb (bool_decide (newTag ∈ ignoreList))
  then ignoreList ++ [toLowerCase newTag]
  else ignoreList.

(** [ignoreList.filter(t => t !== tag)] *)
Definition removeTag (ignoreList : list string) (tag_ : string)
    : list string :=
  filter (λ t, t ≠ tag_) ignoreList.

(** ** Sidebar *)

(** The callback of [matchedPairs.reduce]; the counters object is read
    through [acc[type] || 0], so a counter that is not there reads as 0. *)
Definition pair_stats_step (acc : Tag → nat) (p : MatchedPair) : Tag → nat :=
  λ t, if decide (t = pair_type p) then acc (pair_type p) + 1 else acc t.

Definition pair_stats (pairs : list MatchedPair) : Tag → nat :=
  foldl pair_stats_step (λ _, 0) pairs.

(** The pairs listed for a search term. *)
Definition visible_pairs (pairs : list MatchedPair) (searchTerm : string)
    : list MatchedPair :=
  filter (λ p, includes (slug p) (toLowerCase searchTerm)
               || includes (toLowerCase (default EmptyString (path <$> v2 p)))
                    (toLowerCase searchTerm) = true)
    pairs.

(** ** Further notions used by the properties *)

(** The number of kept elements of an edit script. *)
Definition equal_count {A : Type} (ops : list (EditOp (A := A))) : nat :=
  length (filter (λ e, kind e = equal) ops).

(** The line an operation of the old, respectively the new side becomes. *)
Definition old_line_of (op : LineOp) : DiffLine :=
  if decide (op_type op = unchanged) then unchanged_line op
  else removed_line op.

Definition new_line_of (op : LineOp) : DiffLine :=
  if decide (op_type op = unchanged) then unchanged_line op
  else added_line op.

(** The walk along the diagonal, which is the walk of a sequence against
    itself. *)
Fixpoint diag_ops {A : Type} (arr : list A) (i : nat) : list (EditOp (A := A)) :=
  match i with
  | 0 => []
  | S k =>
      match arr !! k with
      | Some x => mkEditOp equal (Some (S k)) (Some (S k)) x :: diag_ops arr k
      | None => []
      end
  end.

(** The text a rendered line shows: [null] entries show nothing. *)
Definition rendered_text (r : Rendered) : string :=
  match r with
  | Spans spans =>
      foldr (λ sp acc, from_option span_text EmptyString sp +:+ acc)
        EmptyString spans
  | Plain text => text
  end.

(** The strings of a list, concatenated. *)
Definition concat_strings (l : list string) : string :=
  foldr (λ s acc, s +:+ acc) EmptyString l.

(** Neighbouring elements of a list are related by [R]. *)
Definition adjacent {X : Type} (R : X → X → Prop) (l : list X) : Prop :=
  ∀ k x y, l !! k = Some x → l !! S k = Some y → R x y.

(** Of two chunks exactly one is unchanged. *)
Definition alternate (c1 c2 : Chunk) : Prop :=
  chunk_type c1 = unchanged ↔ chunk_type c2 ≠ unchanged.

(** The type of a chunk is the type of its first line. *)
Definition typed_by_head (c : Chunk) : Prop :=
  ∃ l, head (lines c) = Some l ∧ chunk_type c = type l.

(** A second invariant of the chunking loop. *)
Definition chunk_inv_alt (st : list Chunk * Chunk) : Prop :=
  adjacent alternate (st.1 ++ [st.2]) ∧ Forall typed_by_head (st.1 ++ [st.2]).

Definition example_chunk : Chunk :=
  mkChunk unchanged (replicate 9 example_foo).

(** The file has slug [s]. *)
Definition has_slug (s : string) (f : SourceFile) : Prop :=
  getFileSlug (path f) = Some s.

Global Instance has_slug_dec s f : Decision (has_slug s f).
Proof. unfold has_slug. apply _. Defined.

(** The map built from [files] holds, under each slug, the files of that
    slug in their order, and nothing under a slug no file has. *)
Definition file_map_inv (files : list SourceFile)
    (map : list (string * list SourceFile)) : Prop :=
  ∀ s, map_get s map
       = match filter (has_slug s) files with
         | [] => None
         | l => Some l
         end.

(** The type of a pair as its two files determine it. *)
Definition type_of_files (v1 v2 : option SourceFile) : Tag :=
  match v1, v2 with
  | Some _, Some _ => modified
  | Some _, None => deleted
  | None, _ => tag added
  end.

(** ** Classes of characters and strings, for the slug properties *)

Definition is_letter (c : ascii) : bool :=
  bool_decide (65 ≤ code c ≤ 90) || bool_decide (97 ≤ code c ≤ 122).

Definition is_alnum (c : ascii) : bool := is_letter c || is_digit c.

Definition is_lower_letter (c : ascii) : bool :=
  bool_decide (97 ≤ code c ≤ 122).

Definition is_lower_alnum (c : ascii) : bool :=
  is_lower_letter c || is_digit c.

(** Every character of [s] satisfies [P]. *)
Fixpoint all_chars (P : ascii → bool) (s : string) : bool :=
  match s with
  | EmptyString => true
  | String c r => P c && all_chars P r
  end.

(** The optional [v] of a version marker. *)
Definition v_mark (v : bool) : string := if v then "v" else "".

(** ** Loading a directory *)

(** A [File] of the directory picker, as far as the code reads it. *)
Record File : Type := mkFile {
  webkitRelativePath : string;
  name : string;
  File_size : nat
}.

(** [arr.slice(i, j)] for [i ≤ j]; both ends are clamped to the array. *)
Definition slice {X : Type} (i j : nat) (arr : list X) : list X :=
  take (j - i) (drop i arr).

Definition batchSize : nat := 20.

Section Loader.

(** The outcome of [reader.readAsText(file)]: the text [onload] receives,
    or [None] when [onerror] fires. *)
Variable readAsText : File → option string.

Variable ignoreList : list string.

(** The callback of [batch.map]: what its promise resolves to, [None]
    being [null]. *)
Definition load_file (file : File) : option SourceFile :=
  let path :=
    if bool_decide (webkitRelativePath file = EmptyString) then name file
    else webkitRelativePath file in
  if shouldIgnore ignoreList path then None
  else content ← readAsText file;
       Some (mkSourceFile path content (File_size file)).

(** The loop [for (let i = 0; i < files.length; i += batchSize)];
    [Promise.all] keeps the order of the batch and [filter(Boolean)] drops
    the [null]s. *)
Fixpoint load_batches (fuel : nat) (files : list File) (i : nat)
    (fileData : list SourceFile) : option (list SourceFile) :=
  match fuel with
  | 0 => None
  | S fuel =>
      if bool_decide (i < length files) then
        let batch := slice i (i + batchSize) files in
        let results := load_file <$> batch in
        load_batches fuel files (i + batchSize) (fileData ++ omap id results)
      else Some fileData
  end.

(** [handleDirectorySelect] as a function of the files picked and the
    files held before: the files held afterwards ([setFiles] is not called
    when nothing was picked). *)
Definition handleDirectorySelect (files : list File)
    (current : list SourceFile) : option (list SourceFile) :=
  if bool_decide (length files = 0) then Some current
  else load_batches (S (length files)) files 0 [].

End Loader.

(** ** A collation that is not the order of the code units *)

(** The default collation of [localeCompare] places punctuation before
    digits and digits before letters; the order of the code units has [_]
    between the upper-case and the lower-case letters, after the digits.
    [punctuation_first_compare] is a comparison of the first kind: it
    compares character by character, every character that is neither a
    letter nor a digit before every letter and digit. *)
Definition collation_key (c : ascii) : nat :=
  if is_digit c || bool_decide (65 ≤ code c ≤ 90)
     || bool_decide (97 ≤ code c ≤ 122)
  then 256 + code c
  else code c.

Fixpoint punctuation_first_compare (s t : string) : Z :=
  match s, t with
  | EmptyString, EmptyString => 0
  | EmptyString, String _ _ => -1
  | String _ _, EmptyString => 1
  | String a s', String b t' =>
      if decide (collation_key a < collation_key b) then -1
      else if decide (collation_key b < collation_key a) then 1
      else punctuation_first_compare s' t'
  end.

(** ** Reads outside an array *)

(** [arr[i]] for an integer [i], as a read that fails when [i] is not an
    index of [arr] (where the language yields [undefined]). *)
Definition read_at {X : Type} (arr : list X) (i : Z) : option X :=
  if decide (0 ≤ i)%Z then arr !! Z.to_nat i else None.

(** The body of [rawSegments.forEach], the read of
    [coalesced[coalesced.length - 1]] failing outside the array. *)
Definition coalesce_step_checked (coalesced : list WordSegment)
    (seg : WordSegment) : option (list WordSegment) :=
  last ← read_at coalesced (Z.of_nat (length coalesced) - 1);
  if decide (seg_type last = seg_type seg)
  then Some (<[length coalesced - 1 :=
                 {| value := value last +:+ value seg;
                    seg_type := seg_type last |}]> coalesced)
  else Some (coalesced ++ [seg]).

Definition coalesce_checked (rawSegments : list WordSegment)
    : option (list WordSegment) :=
  reduce coalesce_step_checked rawSegments [].

(** [pair_step] and [calculateDiff] with that read failing outside the
    array, like every other read. *)
Definition pair_step_checked (k : nat) (diff : list DiffLine)
    : option (list DiffLine) :=
  current ← diff !! k;
  next ← diff !! (k + 1);
  let isChangePair :=
    bool_decide (type current = tag removed ∧ type next = tag added)
    || bool_decide (type current = tag added ∧ type next = tag removed) in
  if isChangePair && bool_decide (pairedWith current = None)
     && bool_decide (pairedWith next = None)
  then
    let oldStr := if decide (type current = tag removed)
                  then content current else content next in
    let newStr := if decide (type current = tag added)
                  then content current else content next in
    rawSegments ← getWordDiff oldStr newStr;
    coalesced ← coalesce_checked rawSegments;
    let current' := mkDiffLine (type current) (oldLine current)
                      (newLine current) (content current)
                      (Some (k + 1)) (Some coalesced) in
    let next' := mkDiffLine (type next) (oldLine next) (newLine next)
                   (content next) (Some k) (Some coalesced) in
    Some (<[k + 1 := next']> (<[k := current']> diff))
  else Some diff.

Definition calculateDiff_checked (oldText newText : option string)
    : option (list DiffLine) :=
  let oldLines := split "010" (or_empty oldText) in
  let newLines := split "010" (or_empty newText) in
  dp ← buildLCSTable oldLines newLines;
  ops ← backtrackLCS dp oldLines newLines makeLineOp;
  diff ← resequence ops;
  for_loop 0 (length diff - 1) pair_step_checked diff.

(** The callback of [Array.from(allSlugs).map] and the matcher, the reads
    of [v1Matches[0]] and [v2Matches[0]] failing outside the array. *)
Definition make_pair_checked (v1Map v2Map : list (string * list SourceFile))
    (slug : string) : option MatchedPair :=
  let v1Matches := default [] (map_get slug v1Map) in
  let v2Matches := default [] (map_get slug v2Map) in
  if decide (0 < length v1Matches ∧ 0 < length v2Matches)
  then f1 ← v1Matches !! 0; f2 ← v2Matches !! 0;
       Some (mkMatchedPair modified slug (Some f1) (Some f2))
  else if decide (0 < length v1Matches)
  then f1 ← v1Matches !! 0; Some (mkMatchedPair deleted slug (Some f1) None)
  else f2 ← v2Matches !! 0; Some (mkMatchedPair (tag added) slug None (Some f2)).

Definition matchedPairs_checked (localeCompare : string → string → Z)
    (v1Files v2Files : list SourceFile) : option (list MatchedPair) :=
  if decide (length v1Files = 0 ∧ length v2Files = 0) then Some []
  else
    v1Map ← buildFileMap v1Files;
    v2Map ← buildFileMap v2Files;
    let allSlugs := new_Set (v1Map.*1 ++ v2Map.*1) in
    pairs ← mapM (make_pair_checked v1Map v2Map) allSlugs;
    Some (sort (λ a b, localeCompare (slug a) (slug b)) pairs).
(** * Properties *)

(** ** Loops *)

Lemma for_loop_inv {St : Type} (P : nat → St → Prop) lo count body (s : St) :
  P lo s →
  (∀ k s, lo ≤ k < lo + count → P k s → ∃ s', body k s = Some s' ∧ P (S k) s') →
  ∃ s', for_loop lo count body s = Some s' ∧ P (lo + count) s'.
Proof.
  revert lo s. induction count as [|count IH]; intros lo s Hs Hbody; simpl.
  - exists s. by rewrite Nat.add_0_r.
  - destruct (Hbody lo s) as (s' & -> & Hs'); [lia|done|]. simpl.
    destruct (IH (S lo) s') as (s'' & -> & Hs''); [done| |].
    + intros k t Hk. apply Hbody. lia.
    + exists s''. split; [done|]. by replace (lo + S count) with (S lo + count) by lia.
Qed.

(** ** The table *)

Lemma dp_set_get dp i j v dp' i' j' :
  dp_set dp i j v = Some dp' →
  dp_get dp' i' j' = if decide (i' = i ∧ j' = j) then Some v else dp_get dp i' j'.
Proof.
  unfold dp_set, dp_get. destruct (dp !! i) as [row|] eqn:Hrow; simpl; [|done].
  case_decide as Hj; [|done]. intros [= <-].
  destruct (decide (i' = i)) as [->|Hi].
  - rewrite list_lookup_insert_eq by (by eapply lookup_lt_Some). simpl.
    destruct (decide (j' = j)) as [->|Hj'].
    + rewrite list_lookup_insert_eq by done. by rewrite decide_True.
    + rewrite list_lookup_insert_ne by done. rewrite decide_False by naive_solver.
      by rewrite Hrow.
  - rewrite list_lookup_insert_ne by done. by rewrite decide_False by naive_solver.
Qed.

Lemma dp_set_length dp i j v dp' :
  dp_set dp i j v = Some dp' → length dp' = length dp.
Proof.
  unfold dp_set. destruct (dp !! i); simpl; [|done].
  case_decide; [|done]. intros [= <-]. by rewrite length_insert.
Qed.

Lemma dp_set_rows dp i j v dp' n :
  dp_set dp i j v = Some dp' →
  Forall (λ row, length row = n) dp → Forall (λ row, length row = n) dp'.
Proof.
  unfold dp_set. destruct (dp !! i) as [row|] eqn:Hrow; simpl; [|done].
  case_decide; [|done]. intros [= <-] Hall.
  apply Forall_insert; [done|]. rewrite length_insert.
  by eapply (Forall_lookup_1 _ _ _ _ Hall).
Qed.

Lemma dp_set_is_Some dp i j v n :
  i < length dp → Forall (λ row, length row = n) dp → j < n →
  is_Some (dp_set dp i j v).
Proof.
  intros Hi Hall Hj. unfold dp_set.
  destruct (lookup_lt_is_Some_2 dp i Hi) as [row Hrow]. rewrite Hrow. simpl.
  rewrite decide_True; [done|]. by rewrite (Forall_lookup_1 _ _ _ _ Hall Hrow).
Qed.

Lemma dp_get_replicate m n i j :
  i < m → j < n → dp_get (replicate m (replicate n 0)) i j = Some 0.
Proof.
  intros Hi Hj. unfold dp_get.
  rewrite lookup_replicate_2 by done. simpl. by rewrite lookup_replicate_2.
Qed.

Section LCS_facts.
Context {A : Type} `{EqDecision A}.
Implicit Types a b s : list A.

Lemma sublist_singleton s (x : A) : s `sublist_of` [x] → s = [] ∨ s = [x].
Proof.
  intros Hs. apply sublist_cons_r in Hs as [Hs|(s' & -> & Hs)].
  - left. by apply sublist_nil_r.
  - right. apply sublist_nil_r in Hs. by subst.
Qed.

Lemma sublist_snoc_inv s a (x : A) :
  s `sublist_of` a ++ [x] →
  s `sublist_of` a ∨ ∃ s', s = s' ++ [x] ∧ s' `sublist_of` a.
Proof.
  intros (s1 & s2 & -> & H1 & H2)%sublist_app_r.
  apply sublist_singleton in H2 as [->| ->].
  - left. by rewrite app_nil_r.
  - right. eauto.
Qed.

Lemma is_lcs_length_nil_l b : is_lcs_length [] b 0.
Proof.
  split.
  - exists []. repeat split; [done|apply sublist_nil_l].
  - intros s [->%sublist_nil_r _]. done.
Qed.

Lemma is_lcs_length_nil_r a : is_lcs_length a [] 0.
Proof.
  split.
  - exists []. repeat split; [apply sublist_nil_l|done].
  - intros s [_ ->%sublist_nil_r]. done.
Qed.

Lemma is_lcs_length_unique a b k1 k2 :
  is_lcs_length a b k1 → is_lcs_length a b k2 → k1 = k2.
Proof.
  intros [(s1 & Hs1 & <-) Hmax1] [(s2 & Hs2 & <-) Hmax2].
  apply Nat.le_antisymm; auto.
Qed.

Lemma is_lcs_length_snoc_eq a b (x : A) k :
  is_lcs_length a b k → is_lcs_length (a ++ [x]) (b ++ [x]) (k + 1).
Proof.
  intros [(s & [Hsa Hsb] & <-) Hmax]. split.
  - exists (s ++ [x]). split; [|rewrite length_app; simpl; lia].
    split; by apply sublist_app.
  - intros t [Hta Htb].
    apply sublist_snoc_inv in Hta as [Hta|(t1 & -> & Hta)];
      apply sublist_snoc_inv in Htb as [Htb|(t2 & Heq & Htb)].
    + specialize (Hmax t (conj Hta Htb)). lia.
    + subst t. assert (length t2 ≤ length s).
      { apply Hmax. split; [|done]. etrans; [|exact Hta].
        by apply sublist_inserts_r. }
      rewrite length_app. simpl. lia.
    + assert (length t1 ≤ length s).
      { apply Hmax. split; [done|]. etrans; [|exact Htb].
        by apply sublist_inserts_r. }
      rewrite length_app. simpl. lia.
    + apply app_inj_tail in Heq as [-> _].
      specialize (Hmax t2 (conj Hta Htb)). rewrite length_app. simpl. lia.
Qed.

Lemma is_lcs_length_snoc_ne a b (x y : A) k1 k2 :
  x ≠ y →
  is_lcs_length a (b ++ [y]) k1 → is_lcs_length (a ++ [x]) b k2 →
  is_lcs_length (a ++ [x]) (b ++ [y]) (k1 `max` k2).
Proof.
  intros Hxy [(s1 & [Hs1a Hs1b] & <-) Hmax1] [(s2 & [Hs2a Hs2b] & <-) Hmax2].
  split.
  - destruct (Nat.max_spec (length s1) (length s2)) as [[_ ->]|[_ ->]].
    + exists s2. repeat split; [done|by apply sublist_inserts_r].
    + exists s1. repeat split; [by apply sublist_inserts_r|done].
  - intros t [Hta Htb].
    apply sublist_snoc_inv in Hta as [Hta|(t1 & -> & Hta)].
    { specialize (Hmax1 t (conj Hta Htb)). lia. }
    pose proof Htb as Htb'.
    apply sublist_snoc_inv in Htb as [Htb|(t2 & Heq & Htb)].
    { assert (length (t1 ++ [x]) ≤ length s2); [|lia].
      apply Hmax2. split; [|done]. by apply sublist_app. }
    apply app_inj_tail in Heq as [_ ?]. done.
Qed.
End LCS_facts.

Lemma at_pred_Some {X : Type} (arr : list X) i x :
  at_pred arr i = Some x ↔ 0 < i ∧ arr !! (i - 1) = Some x.
Proof.
  destruct i as [|k]; simpl; [split; [done|lia]|].
  rewrite Nat.sub_0_r. split; [split; [lia|done]|by intros [_ ?]].
Qed.

Lemma at_pred_is_Some {X : Type} (arr : list X) i :
  0 < i ≤ length arr → is_Some (at_pred arr i).
Proof.
  destruct i as [|k]; [lia|]. intros ?. apply lookup_lt_is_Some_2. lia.
Qed.

Lemma take_at_pred {X : Type} (arr : list X) i x :
  at_pred arr i = Some x → take i arr = take (i - 1) arr ++ [x].
Proof.
  destruct i as [|k]; [done|]. simpl. rewrite Nat.sub_0_r.
  intros Hx. by rewrite (take_S_r _ _ _ Hx).
Qed.

Section Table.
Context {A : Type} `{EqDecision A}.
Variables oldArr newArr : list A.

Local Abbreviation m := (length oldArr).
Local Abbreviation n := (length newArr).

Lemma table_inv_get i j dp i' j' :
  table_inv oldArr newArr i j dp → i' ≤ m → j' ≤ n → filled i j i' j' →
  ∃ v, dp_get dp i' j' = Some v
       ∧ is_lcs_length (take i' oldArr) (take j' newArr) v.
Proof. intros [_ Hc] ???. by apply Hc. Qed.

Lemma lcs_cell_inv i j dp :
  1 ≤ i ≤ m → 1 ≤ j ≤ n → table_inv oldArr newArr i j dp →
  ∃ dp', lcs_cell oldArr newArr i j dp = Some dp' ∧ table_inv oldArr newArr i (S j) dp'.
Proof.
  intros Hi Hj Hinv. unfold lcs_cell.
  destruct (at_pred_is_Some oldArr i) as [a Ha]; [lia|].
  destruct (at_pred_is_Some newArr j) as [b Hb]; [lia|].
  rewrite Ha, Hb. simpl.
  destruct (table_inv_get i j dp (i - 1) (j - 1) Hinv) as (v11 & Hg11 & Hv11);
    [lia|lia|left; lia|].
  destruct (table_inv_get i j dp (i - 1) j Hinv) as (v10 & Hg10 & Hv10);
    [lia|lia|left; lia|].
  destruct (table_inv_get i j dp i (j - 1) Hinv) as (v01 & Hg01 & Hv01);
    [lia|lia|right; right; lia|].
  destruct Hinv as [[Hlen Hrows] Hcells].
  assert (∃ v, (if decide (a = b)
                then x ← dp_get dp (i - 1) (j - 1); Some (x + 1)
                else x ← dp_get dp (i - 1) j; y ← dp_get dp i (j - 1);
                     Some (x `max` y)) = Some v
               ∧ is_lcs_length (take i oldArr) (take j newArr) v)
    as (v & -> & Hv).
  { rewrite (take_at_pred _ _ _ Ha), (take_at_pred _ _ _ Hb).
    case_decide as Hab.
    - subst b. rewrite Hg11. simpl. eexists; split; [done|].
      by apply is_lcs_length_snoc_eq.
    - rewrite Hg10, Hg01. simpl. eexists; split; [done|].
      apply is_lcs_length_snoc_ne; [done| |].
      + by rewrite <-(take_at_pred _ _ _ Hb).
      + by rewrite <-(take_at_pred _ _ _ Ha). }
  simpl.
  destruct (dp_set_is_Some dp i j v (n + 1)) as [dp' Hset]; [lia|done|lia|].
  exists dp'. split; [done|]. split.
  - split; [by rewrite (dp_set_length _ _ _ _ _ Hset)|by eapply dp_set_rows].
  - intros i' j' Hi' Hj' Hf. unfold cell_ok.
    rewrite (dp_set_get _ _ _ _ _ _ _ Hset). case_decide as Hij.
    + destruct Hij as [-> ->]. eauto.
    + apply Hcells; [done|done|]. unfold filled in *. lia.
Qed.

Lemma lcs_row_inv i dp :
  1 ≤ i ≤ m → table_inv oldArr newArr i 1 dp →
  ∃ dp', for_loop 1 n (lcs_cell oldArr newArr i) dp = Some dp'
         ∧ table_inv oldArr newArr (S i) 1 dp'.
Proof.
  intros Hi Hinv.
  destruct (for_loop_inv (table_inv oldArr newArr i) 1 n (lcs_cell oldArr newArr i) dp)
    as (dp' & Hrun & [Hshape Hcells]); [done| |].
  { intros j dp0 Hj. apply lcs_cell_inv; [done|lia]. }
  exists dp'. split; [done|]. split; [done|].
  intros i' j' Hi' Hj' Hf. apply Hcells; [done|done|]. unfold filled in *. lia.
Qed.

Lemma table_inv_init :
  table_inv oldArr newArr 1 1 (replicate (m + 1) (replicate (n + 1) 0)).
Proof.
  split.
  - split; [by rewrite length_replicate|].
    apply Forall_replicate. by rewrite length_replicate.
  - intros i' j' Hi' Hj' Hf. exists 0.
    split; [apply dp_get_replicate; lia|].
    destruct Hf as [Hf|[Hf|Hf]].
    + replace i' with 0 by lia. apply is_lcs_length_nil_l.
    + subst j'. apply is_lcs_length_nil_r.
    + replace j' with 0 by lia. apply is_lcs_length_nil_r.
Qed.

Lemma buildLCSTable_inv :
  ∃ dp, buildLCSTable oldArr newArr = Some dp ∧ table_inv oldArr newArr (S m) 1 dp.
Proof.
  unfold buildLCSTable.
  destruct (for_loop_inv (λ i, table_inv oldArr newArr i 1) 1 m
              (λ i dp, for_loop 1 n (lcs_cell oldArr newArr i) dp)
              (replicate (m + 1) (replicate (n + 1) 0)))
    as (dp & Hrun & Hinv); [apply table_inv_init| |by eauto].
  intros i dp Hi. apply lcs_row_inv. lia.
Qed.

Lemma buildLCSTable_cells dp i j :
  buildLCSTable oldArr newArr = Some dp → i ≤ m → j ≤ n →
  cell_ok oldArr newArr dp i j.
Proof.
  destruct buildLCSTable_inv as (dp' & -> & [_ Hcells]). intros [= <-] ??.
  apply Hcells; [done|done|]. left. lia.
Qed.
End Table.

(** C2. [buildLCSTable] always returns a table; it has [m + 1] rows of
    [n + 1] cells each; the cell at row [i] and column [j] holds the length
    of a longest common subsequence of the first [i] elements of [seqA] and
    the first [j] elements of [seqB] (compared with [=]); row 0 and column 0
    hold zeros. *)
Theorem buildLCSTable_correct {A : Type} `{EqDecision A} (seqA seqB : list A) :
  ∃ table,
    buildLCSTable seqA seqB = Some table
    ∧ length table = length seqA + 1
    ∧ (∀ i row, table !! i = Some row → length row = length seqB + 1)
    ∧ (∀ i j, i ≤ length seqA → j ≤ length seqB →
         ∃ v, dp_get table i j = Some v
              ∧ is_lcs_length (take i seqA) (take j seqB) v)
    ∧ (∀ j, j ≤ length seqB → dp_get table 0 j = Some 0)
    ∧ (∀ i, i ≤ length seqA → dp_get table i 0 = Some 0).
Proof.
  destruct (buildLCSTable_inv seqA seqB) as (dp & Hrun & [[Hlen Hrows] Hcells]).
  assert (∀ i j, i ≤ length seqA → j ≤ length seqB → cell_ok seqA seqB dp i j)
    as Hall.
  { intros i j ??. apply Hcells; [done|done|]. left. lia. }
  exists dp. repeat split; [done|done| | | |].
  - intros i row Hrow. by apply (Forall_lookup_1 _ _ _ _ Hrows Hrow).
  - intros i j ??. by apply Hall.
  - intros j Hj. destruct (Hall 0 j) as (v & Hg & Hv); [lia|done|].
    rewrite Hg. f_equal. eapply is_lcs_length_unique; [done|].
    apply is_lcs_length_nil_l.
  - intros i Hi. destruct (Hall i 0) as (v & Hg & Hv); [done|lia|].
    rewrite Hg. f_equal. eapply is_lcs_length_unique; [done|].
    apply is_lcs_length_nil_r.
Qed.


(** ** Backtracking *)

Section Backtrack.
Context {A : Type} `{EqDecision A} {Op : Type}.
Variables (dp : list (list nat)) (oldArr newArr : list A).
Variable makeOp : OpType → option nat → option nat → A → Op.

Lemma test_equal_true i j :
  test_equal oldArr newArr i j = Some true ↔ current_equal oldArr newArr i j.
Proof.
  unfold test_equal, current_equal. case_decide as Hij; [|split; [done|tauto]].
  destruct (at_pred oldArr i) as [a|]; simpl;
    [|split; [done|by intros (_ & _ & x & ? & _)]].
  destruct (at_pred newArr j) as [b|]; simpl;
    [|split; [done|by intros (_ & _ & x & _ & ?)]].
  split.
  - intros [= Hab%bool_decide_eq_true]. subst. naive_solver.
  - intros (_ & _ & x & [= ->] & [= ->]). by rewrite bool_decide_eq_true_2.
Qed.

Lemma test_equal_false i j :
  test_equal oldArr newArr i j = Some false → ¬ current_equal oldArr newArr i j.
Proof. intros Hf Ht%test_equal_true. congruence. Qed.

Lemma test_equal_total i j :
  i ≤ length oldArr → j ≤ length newArr →
  is_Some (test_equal oldArr newArr i j).
Proof.
  intros Hi Hj. unfold test_equal. case_decide as Hij; [|done].
  destruct (at_pred_is_Some oldArr i) as [a ->]; [lia|].
  destruct (at_pred_is_Some newArr j) as [b ->]; [lia|]. done.
Qed.

Lemma test_added_true i j :
  test_added dp i j = Some true ↔ prefer_added dp i j.
Proof.
  unfold test_added, prefer_added. case_decide as Hj; [|split; [done|tauto]].
  case_decide as Hi; [naive_solver|].
  destruct (dp_get dp i (j - 1)) as [x|]; simpl; [|naive_solver].
  destruct (dp_get dp (i - 1) j) as [y|]; simpl; [|naive_solver].
  split.
  - intros [= Hxy%bool_decide_eq_true]. naive_solver.
  - intros (_ & [?|(x' & y' & [= <-] & [= <-] & ?)]); [done|].
    by rewrite bool_decide_eq_true_2.
Qed.

Lemma test_added_false i j :
  test_added dp i j = Some false → ¬ prefer_added dp i j.
Proof. intros Hf Ht%test_added_true. congruence. Qed.

(** When neither test succeeds the loop is in its last branch, and there
    [i] is positive: the read of [oldArr[i - 1]] is inside the array. *)
Lemma removed_branch_positive i j :
  0 < i ∨ 0 < j → test_added dp i j = Some false → 0 < i.
Proof.
  intros Hij. unfold test_added. repeat case_decide; try done; lia.
Qed.

Lemma walk_deterministic i j ops1 ops2 :
  walk dp oldArr newArr i j ops1 → walk dp oldArr newArr i j ops2 → ops1 = ops2.
Proof.
  intros H1. revert ops2.
  induction H1 as [|i j x ops He Hx _ IH|i j y ops Hne Hp Hy _ IH
                   |i j x ops Hij Hne Hnp Hx _ IH];
    intros ops2 H2; inversion H2; subst; try done; try lia.
  - f_equal; [congruence|by apply IH].
  - f_equal; [congruence|by apply IH].
  - f_equal; [congruence|by apply IH].
Qed.

Lemma backtrack_loop_S fuel i j result :
  backtrack_loop (S fuel) dp oldArr newArr makeOp i j result =
  if decide (0 < i ∨ 0 < j) then
    t1 ← test_equal oldArr newArr i j;
    if t1 : bool then
      x ← at_pred oldArr i;
      backtrack_loop fuel dp oldArr newArr makeOp (i - 1) (j - 1)
        (makeOp equal (Some i) (Some j) x :: result)
    else
      t2 ← test_added dp i j;
      if t2 : bool then
        x ← at_pred newArr j;
        backtrack_loop fuel dp oldArr newArr makeOp i (j - 1)
          (makeOp added None (Some j) x :: result)
      else
        x ← at_pred oldArr i;
        backtrack_loop fuel dp oldArr newArr makeOp (i - 1) j
          (makeOp removed (Some i) None x :: result)
  else Some result.
Proof. done. Qed.

Lemma backtrack_loop_walk fuel i j :
  (∀ i' j', i' ≤ length oldArr → j' ≤ length newArr →
     is_Some (dp_get dp i' j')) →
  i ≤ length oldArr → j ≤ length newArr → i + j ≤ fuel →
  ∃ ops, walk dp oldArr newArr i j ops
         ∧ ∀ result, backtrack_loop fuel dp oldArr newArr makeOp i j result
                     = Some (reverse (apply_makeOp makeOp <$> ops) ++ result).
Proof.
  intros Hcells. revert i j.
  induction fuel as [|fuel IH]; intros i j Hi Hj Hfuel.
  - assert (i = 0 ∧ j = 0) as [-> ->] by lia.
    exists []. split; [constructor|]. done.
  - destruct (decide (0 < i ∨ 0 < j)) as [Hij|Hij]; last first.
    { assert (i = 0 ∧ j = 0) as [-> ->] by lia.
      exists []. split; [constructor|]. done. }
    destruct (test_equal_total i j Hi Hj) as [[] Ht1].
    { pose proof Ht1 as (? & ? & x & Hx & Hy)%test_equal_true.
      destruct (IH (i - 1) (j - 1)) as (ops & Hw & Hrun); [lia..|].
      exists (mkEditOp equal (Some i) (Some j) x :: ops). split.
      - constructor; [by apply test_equal_true|done|done].
      - intros result. rewrite backtrack_loop_S, (decide_True _ _ Hij), Ht1.
        simpl. rewrite Hx. simpl. rewrite Hrun.
        rewrite reverse_cons, <-app_assoc. done. }
    pose proof Ht1 as Ht1'. apply test_equal_false in Ht1.
    assert (is_Some (test_added dp i j)) as [[] Ht2].
    { unfold test_added. repeat case_decide; try done.
      destruct (Hcells i (j - 1)) as [x ->]; [lia|lia|].
      destruct (Hcells (i - 1) j) as [y ->]; [lia|lia|]. done. }
    + pose proof Ht2 as Hp%test_added_true.
      destruct (at_pred_is_Some newArr j) as [y Hy]; [destruct Hp; lia|].
      destruct (IH i (j - 1)) as (ops & Hw & Hrun); [destruct Hp; lia..|].
      exists (mkEditOp added None (Some j) y :: ops). split.
      * by constructor.
      * intros result.
        rewrite backtrack_loop_S, (decide_True _ _ Hij), Ht1', Ht2.
        simpl. rewrite Hy. simpl. rewrite Hrun.
        rewrite reverse_cons, <-app_assoc. done.
    + pose proof (removed_branch_positive i j Hij Ht2) as Hpos.
      pose proof Ht2 as Hnp%test_added_false.
      destruct (at_pred_is_Some oldArr i) as [x Hx]; [lia|].
      destruct (IH (i - 1) j) as (ops & Hw & Hrun); [lia..|].
      exists (mkEditOp removed (Some i) None x :: ops). split.
      * by constructor.
      * intros result.
        rewrite backtrack_loop_S, (decide_True _ _ Hij), Ht1', Ht2.
        simpl. rewrite Hx. simpl. rewrite Hrun.
        rewrite reverse_cons, <-app_assoc. done.
Qed.

Lemma walk_sides i j ops :
  walk dp oldArr newArr i j ops →
  reverse (old_side ops) = take i oldArr
  ∧ reverse (new_side ops) = take j newArr.
Proof.
  unfold old_side, new_side.
  induction 1 as [|i j x ops He Hx _ [IHo IHn]|i j y ops Hne Hp Hy _ [IHo IHn]
                  |i j x ops Hij Hne Hnp Hx _ [IHo IHn]].
  - done.
  - destruct He as (_ & _ & x' & Hx' & Hy').
    assert (x' = x) as -> by congruence.
    rewrite !filter_cons_True by done. rewrite !fmap_cons, !reverse_cons.
    rewrite IHo, IHn. simpl.
    by rewrite (take_at_pred _ _ _ Hx), (take_at_pred _ _ _ Hy').
  - rewrite filter_cons_False by (simpl; naive_solver).
    rewrite filter_cons_True by done. rewrite fmap_cons, reverse_cons.
    rewrite IHo, IHn. simpl. by rewrite (take_at_pred _ _ _ Hy).
  - rewrite filter_cons_True by done.
    rewrite (filter_cons_False _ _ ops) by (simpl; naive_solver).
    rewrite fmap_cons, reverse_cons.
    rewrite IHo, IHn. simpl. by rewrite (take_at_pred _ _ _ Hx).
Qed.

Lemma sides_reverse (ops : list (EditOp (A := A))) :
  old_side (reverse ops) = reverse (old_side ops)
  ∧ new_side (reverse ops) = reverse (new_side ops).
Proof.
  unfold old_side, new_side. by rewrite !filter_reverse, !fmap_reverse.
Qed.

Lemma backtrackLCS_walk :
  (∀ i' j', i' ≤ length oldArr → j' ≤ length newArr →
     is_Some (dp_get dp i' j')) →
  ∃ ops, walk dp oldArr newArr (length oldArr) (length newArr) ops
         ∧ backtrackLCS dp oldArr newArr makeOp
           = Some (apply_makeOp makeOp <$> reverse ops)
         ∧ old_side (reverse ops) = oldArr
         ∧ new_side (reverse ops) = newArr.
Proof.
  intros Hcells.
  destruct (backtrack_loop_walk (length oldArr + length newArr)
              (length oldArr) (length newArr)) as (ops & Hw & Hrun);
    [done|lia..|].
  exists ops. split; [done|]. split.
  - unfold backtrackLCS. by rewrite Hrun, app_nil_r, fmap_reverse.
  - destruct (walk_sides _ _ _ Hw) as [Ho Hn].
    destruct (sides_reverse ops) as [-> ->].
    by rewrite Ho, Hn, !firstn_all.
Qed.
End Backtrack.

Lemma buildLCSTable_cells_Some {A : Type} `{EqDecision A}
    (oldArr newArr : list A) dp i j :
  buildLCSTable oldArr newArr = Some dp →
  i ≤ length oldArr → j ≤ length newArr → is_Some (dp_get dp i j).
Proof.
  intros Hdp Hi Hj.
  destruct (buildLCSTable_cells _ _ _ _ _ Hdp Hi Hj) as (v & -> & _). done.
Qed.

(** C3. For the table built from [seqA] and [seqB], [backtrackLCS] returns
    the operations of the walk from [(m, n)] to [(0, 0)] that the policy
    describes (equal when both indices are positive and the elements agree;
    otherwise added when [j > 0] and [i = 0] or
    [table[i][j-1] >= table[i-1][j]]; otherwise removed), last emitted
    first; the policy allows no other walk. *)
Theorem backtrackLCS_policy {A Op : Type} `{EqDecision A} (seqA seqB : list A)
    (makeOp : OpType → option nat → option nat → A → Op) :
  ∃ table ops,
    buildLCSTable seqA seqB = Some table
    ∧ backtrackLCS table seqA seqB makeOp
      = Some (apply_makeOp makeOp <$> reverse ops)
    ∧ walk table seqA seqB (length seqA) (length seqB) ops
    ∧ ∀ ops', walk table seqA seqB (length seqA) (length seqB) ops' →
        ops' = ops.
Proof.
  destruct (buildLCSTable_inv seqA seqB) as (table & Htable & _).
  destruct (backtrackLCS_walk table seqA seqB makeOp)
    as (ops & Hw & Hrun & _).
  { intros i j ??. by eapply buildLCSTable_cells_Some. }
  exists table, ops. repeat split; [done..|].
  intros ops' Hw'. by eapply walk_deterministic.
Qed.

(** ** Re-sequencing *)

Lemma no_adjacent_runs_tail g groups :
  no_adjacent_runs (g :: groups) → no_adjacent_runs groups.
Proof. intros Hn k r1 r2 H1 H2. by apply (Hn (S k) r1 r2). Qed.

Lemma no_adjacent_runs_Pass op groups :
  no_adjacent_runs groups → no_adjacent_runs (Pass op :: groups).
Proof.
  intros Hn [|k] r1 r2 H1 H2; [done|]. by apply (Hn k r1 r2).
Qed.

Lemma no_adjacent_runs_Run run groups :
  no_adjacent_runs groups → (∀ g, head groups = Some g → ∃ op, g = Pass op) →
  no_adjacent_runs (Run run :: groups).
Proof.
  intros Hn Hhd [|k] r1 r2 H1 H2; [|by apply (Hn k r1 r2)].
  destruct groups as [|g groups]; [done|].
  destruct (Hhd g) as [op ->]; [done|]. done.
Qed.

Lemma group_runs_maximal ops : maximal_runs ops (group_runs ops).
Proof.
  induction ops as [|op ops (Hcat & Hok & Hadj)]; [by repeat split|].
  simpl. case_decide as Hop.
  - split; [|split].
    + simpl. by f_equal.
    + by constructor.
    + by apply no_adjacent_runs_Pass.
  - destruct (group_runs ops) as [|[op'|run] groups] eqn:Hg.
    + split; [|split].
      * simpl. by f_equal.
      * constructor; [|done]. split; [done|]. by repeat constructor.
      * by intros [|k] ????.
    + split; [|split].
      * simpl. by f_equal.
      * constructor; [|done]. split; [done|]. by repeat constructor.
      * apply no_adjacent_runs_Run; [done|]. intros g [= <-]. eauto.
    + split; [|split].
      * simpl. by f_equal.
      * apply Forall_cons in Hok as [[_ Hrun] Hok].
        constructor; [|done]. split; [done|]. by constructor.
      * apply no_adjacent_runs_Run; [by eapply no_adjacent_runs_tail|].
        intros g Hg'. destruct groups as [|[op'|run'] groups]; simplify_eq/=.
        -- eauto.
        -- by destruct (Hadj 0 run run').
Qed.

Lemma run_prefix_unique (P : LineOp → Prop) l1 : ∀ l2 k1 k2,
  Forall P l1 → Forall P l2 →
  (∀ x, head k1 = Some x → ¬ P x) → (∀ x, head k2 = Some x → ¬ P x) →
  l1 ++ k1 = l2 ++ k2 → l1 = l2 ∧ k1 = k2.
Proof.
  induction l1 as [|x l1 IH]; intros [|y l2] k1 k2 H1 H2 Hk1 Hk2 Heq;
    simpl in Heq.
  - done.
  - subst k1. apply Forall_cons in H2 as [Hy _]. by destruct (Hk1 y).
  - subst k2. apply Forall_cons in H1 as [Hx _]. by destruct (Hk2 x).
  - injection Heq as -> Heq.
    apply Forall_cons in H1 as [_ H1]. apply Forall_cons in H2 as [_ H2].
    destruct (IH l2 k1 k2) as [-> ->]; done.
Qed.

Lemma after_run_unchanged run groups :
  Forall group_ok groups → no_adjacent_runs (Run run :: groups) →
  ∀ op, head (concat (ungroup <$> groups)) = Some op →
    ¬ op_type op ≠ unchanged.
Proof.
  intros Hok Hadj op Hhd Hne. destruct groups as [|[op'|run'] groups].
  - done.
  - apply Forall_cons in Hok as [Hop' _]. simpl in *. by simplify_eq.
  - by destruct (Hadj 0 run run').
Qed.

Lemma maximal_runs_unique ops groups1 groups2 :
  maximal_runs ops groups1 → maximal_runs ops groups2 → groups1 = groups2.
Proof.
  intros (-> & Hok1 & Hadj1) (Heq & Hok2 & Hadj2).
  revert groups2 Heq Hok2 Hadj2.
  induction groups1 as [|g1 groups1 IH]; intros [|g2 groups2] Heq Hok2 Hadj2.
  - done.
  - apply Forall_cons in Hok2 as [Hg2 _].
    destruct g2 as [|[|]]; simpl in *; [done|by destruct Hg2|done].
  - apply Forall_cons in Hok1 as [Hg1 _].
    destruct g1 as [|[|]]; simpl in *; [done|by destruct Hg1|done].
  - apply Forall_cons in Hok1 as [Hg1 Hok1].
    apply Forall_cons in Hok2 as [Hg2 Hok2].
    pose proof (no_adjacent_runs_tail _ _ Hadj1) as Hadj1'.
    pose proof (no_adjacent_runs_tail _ _ Hadj2) as Hadj2'.
    rewrite !fmap_cons, !concat_cons in Heq.
    destruct g1 as [op1|run1], g2 as [op2|run2]; simpl in Hg1, Hg2.
    + injection Heq as -> Heq. f_equal. by apply IH.
    + destruct Hg2 as [Hne Hrun]. destruct run2 as [|op2 run2]; [done|].
      injection Heq as -> _. by apply Forall_cons in Hrun as [? _].
    + destruct Hg1 as [Hne Hrun]. destruct run1 as [|op1 run1]; [done|].
      injection Heq as -> _. by apply Forall_cons in Hrun as [? _].
    + destruct Hg1 as [_ Hrun1], Hg2 as [_ Hrun2]. simpl in Heq.
      destruct (run_prefix_unique (λ op, op_type op ≠ unchanged)
                  run1 run2 _ _ Hrun1 Hrun2
                  (after_run_unchanged run1 groups1 Hok1 Hadj1)
                  (after_run_unchanged run2 groups2 Hok2 Hadj2) Heq)
        as [-> Heq'].
      f_equal. by apply IH.
Qed.

Lemma interleave_step_emit removed_ added_ k diff :
  interleave_step removed_ added_ k diff
  = Some (diff ++ emit_at removed_ added_ k).
Proof.
  unfold interleave_step, emit_at.
  destruct (decide (k < length removed_)) as [Hr|Hr];
    [destruct (lookup_lt_is_Some_2 _ _ Hr) as [r ->]
    |rewrite (lookup_ge_None_2 removed_) by lia]; simpl;
    (destruct (decide (k < length added_)) as [Ha|Ha];
     [destruct (lookup_lt_is_Some_2 _ _ Ha) as [a ->]
     |rewrite (lookup_ge_None_2 added_) by lia]); simpl;
    by rewrite ?app_nil_r, <-?app_assoc.
Qed.

Lemma interleave_loop removed_ added_ count : ∀ lo diff,
  for_loop lo count (interleave_step removed_ added_) diff
  = Some (diff ++ flat_map (emit_at removed_ added_) (seq lo count)).
Proof.
  induction count as [|count IH]; intros lo diff; simpl.
  - by rewrite app_nil_r.
  - rewrite interleave_step_emit. simpl. rewrite IH. by rewrite <-app_assoc.
Qed.

Lemma collect_run_unfold fuel ops opIdx removed_ added_ :
  collect_run fuel ops opIdx removed_ added_ =
  if decide (opIdx < length ops) then
    op ← ops !! opIdx;
    if decide (op_type op ≠ unchanged) then
      match fuel with
      | 0 => None
      | S fuel' =>
          if decide (op_type op = tag removed)
          then collect_run fuel' ops (opIdx + 1) (removed_ ++ [op]) added_
          else collect_run fuel' ops (opIdx + 1) removed_ (added_ ++ [op])
      end
    else Some (opIdx, removed_, added_)
  else Some (opIdx, removed_, added_).
Proof. by destruct fuel. Qed.

Lemma collect_run_spec run : ∀ pre rest fuel removed_ added_,
  Forall (λ op, op_type op ≠ unchanged) run →
  (∀ op, head rest = Some op → op_type op = unchanged) →
  length run ≤ fuel →
  collect_run fuel (pre ++ run ++ rest) (length pre) removed_ added_
  = Some (length pre + length run,
          removed_ ++ filter (λ op, op_type op = tag removed) run,
          added_ ++ filter (λ op, op_type op ≠ tag removed) run).
Proof.
  induction run as [|op run IH]; intros pre rest fuel rem add Hrun Hrest Hfuel;
    rewrite collect_run_unfold.
  - simpl. rewrite Nat.add_0_r, !app_nil_r.
    destruct rest as [|op rest].
    + rewrite decide_False; [done|]. rewrite app_nil_r. lia.
    + rewrite decide_True by (rewrite length_app; simpl; lia).
      rewrite list_lookup_middle by done. simpl.
      rewrite decide_False; [done|]. rewrite (Hrest op); naive_solver.
  - apply Forall_cons in Hrun as [Hop Hrun].
    destruct fuel as [|fuel]; [simpl in Hfuel; lia|].
    rewrite decide_True by (rewrite length_app; simpl; lia).
    simpl. rewrite list_lookup_middle by done. simpl.
    rewrite decide_True by done.
    replace (pre ++ op :: run ++ rest) with ((pre ++ [op]) ++ run ++ rest)
      by (by rewrite <-app_assoc).
    replace (length pre + 1) with (length (pre ++ [op]))
      by (rewrite length_app; simpl; lia).
    case_decide as Hrem.
    + rewrite IH; [|done|done|simpl in Hfuel; lia].
      rewrite filter_cons_True by done.
      rewrite (filter_cons_False (λ op, op_type op ≠ tag removed))
        by naive_solver.
      rewrite length_app, <-app_assoc. simpl. do 3 f_equal. lia.
    + rewrite IH; [|done|done|simpl in Hfuel; lia].
      rewrite filter_cons_False by done.
      rewrite (filter_cons_True (λ op, op_type op ≠ tag removed)) by done.
      rewrite length_app, <-app_assoc. simpl. do 3 f_equal. lia.
Qed.

Lemma filter_not_removed run :
  Forall line_tag run → Forall (λ op, op_type op ≠ unchanged) run →
  filter (λ op, op_type op ≠ tag removed) run
  = filter (λ op, op_type op = tag added) run.
Proof.
  induction 1 as [|op run Hop _ IH]; intros Hrun; [done|].
  apply Forall_cons in Hrun as [Hne Hrun]. specialize (IH Hrun).
  destruct Hop as [?|[Hrem|Hadd]]; [done| |].
  - rewrite !filter_cons_False; [done|congruence|naive_solver].
  - rewrite !filter_cons_True; [by f_equal|done|congruence].
Qed.

Lemma resequence_loop_unfold fuel ops opIdx diff :
  resequence_loop fuel ops opIdx diff =
  if decide (opIdx < length ops) then
    match fuel with
    | 0 => None
    | S fuel' =>
        op ← ops !! opIdx;
        if decide (op_type op = unchanged) then
          resequence_loop fuel' ops (opIdx + 1)
            (diff ++ [mkDiffLine unchanged (oldIdx op) (newIdx op)
                        (op_content op) None None])
        else
          '(opIdx', removed_, added_) ← collect_run (length ops) ops opIdx [] [];
          let maxPairs := length removed_ `max` length added_ in
          diff' ← for_loop 0 maxPairs (interleave_step removed_ added_) diff;
          resequence_loop fuel' ops opIdx' diff'
    end
  else Some diff.
Proof. by destruct fuel. Qed.

Lemma resequence_loop_groups groups : ∀ pre fuel diff,
  Forall group_ok groups → no_adjacent_runs groups →
  Forall line_tag (concat (ungroup <$> groups)) →
  length groups ≤ fuel →
  resequence_loop fuel (pre ++ concat (ungroup <$> groups)) (length pre) diff
  = Some (diff ++ flat_map emit_group groups).
Proof.
  induction groups as [|g groups IH]; intros pre fuel diff Hok Hadj Htag Hfuel;
    rewrite resequence_loop_unfold.
  - simpl. rewrite !app_nil_r. rewrite decide_False; [done|lia].
  - apply Forall_cons in Hok as [Hg Hok].
    pose proof (no_adjacent_runs_tail _ _ Hadj) as Hadj'.
    rewrite fmap_cons, concat_cons in Htag |- *.
    apply Forall_app in Htag as [Htag_g Htag].
    assert (∀ op', head (concat (ungroup <$> groups)) = Some op' →
                   (∃ r, g = Run r) → op_type op' = unchanged) as Hnext.
    { intros op' Hhd [r ->]. destruct groups as [|[op''|run'] groups].
      - done.
      - apply Forall_cons in Hok as [Hop'' _]. simpl in Hhd. by simplify_eq.
      - by destruct (Hadj 0 r run'). }
    specialize (IH (pre ++ ungroup g)).
    remember (concat (ungroup <$> groups)) as rest eqn:Hrest.
    destruct fuel as [|fuel]; [simpl in Hfuel; lia|].
    destruct g as [op|run]; simpl in Hg.
    + rewrite decide_True by (rewrite length_app; simpl; lia).
      simpl. rewrite list_lookup_middle by done. simpl.
      rewrite decide_True by done.
      replace (length pre + 1) with (length (pre ++ ungroup (Pass op)))
        by (rewrite length_app; simpl; lia).
      replace (pre ++ op :: rest) with ((pre ++ ungroup (Pass op)) ++ rest)
        by (by rewrite <-app_assoc).
      rewrite IH; [|done|done|done|simpl in Hfuel; lia].
      by rewrite <-app_assoc.
    + destruct Hg as [Hne Hrun]. destruct run as [|op run]; [done|].
      rewrite decide_True by (rewrite !length_app; simpl; lia).
      simpl. rewrite list_lookup_middle by done. simpl.
      rewrite decide_False by (by apply Forall_cons in Hrun as [? _]).
      change (pre ++ op :: run ++ rest) with (pre ++ (op :: run) ++ rest).
      rewrite (collect_run_spec (op :: run) pre); [|done| |]; last first.
      { rewrite !length_app. lia. }
      { intros op' Hhd. apply Hnext; eauto. }
      simpl. rewrite ?app_nil_l.
      rewrite (filter_not_removed (op :: run)) by done.
      rewrite interleave_loop. simpl.
      replace (length pre + S (length run))
        with (length (pre ++ ungroup (Run (op :: run))))
        by (rewrite length_app; simpl; lia).
      replace (pre ++ op :: run ++ rest)
        with ((pre ++ ungroup (Run (op :: run))) ++ rest)
        by (by rewrite <-app_assoc).
      rewrite IH; [|done|done|done|simpl in Hfuel; lia].
      by rewrite <-app_assoc.
Qed.

Lemma group_runs_length ops : length (group_runs ops) ≤ length ops.
Proof.
  induction ops as [|op ops IH]; [done|]. simpl.
  case_decide; [simpl; lia|].
  destruct (group_runs ops) as [|[|] ?]; simpl in *; lia.
Qed.

Lemma resequence_groups ops :
  Forall line_tag ops →
  resequence ops = Some (flat_map emit_group (group_runs ops)).
Proof.
  intros Htag. destruct (group_runs_maximal ops) as (Hcat & Hok & Hadj).
  unfold resequence.
  pose proof (resequence_loop_groups (group_runs ops) [] (length ops) []) as H.
  simpl in H. rewrite <-Hcat in H. apply H; [done..|].
  apply group_runs_length.
Qed.

(** The two sides of an edit script survive the interleaving. *)
Lemma emit_at_seq_removed (rs as_ : list LineOp) count : ∀ lo,
  filter (λ l, type l = unchanged ∨ type l = tag removed)
    (flat_map (emit_at rs as_) (seq lo count))
  = removed_line <$> take count (drop lo rs).
Proof.
  induction count as [|count IH]; intros lo; [done|].
  simpl. rewrite filter_app, IH. unfold emit_at. rewrite filter_app.
  destruct (rs !! lo) as [r|] eqn:Hr;
    destruct (as_ !! lo) as [a|] eqn:Ha; simpl.
  all: rewrite ?(filter_cons_True _ (removed_line _)) by (by right).
  all: rewrite ?(filter_cons_False _ (added_line _)) by (by intros [|]).
  all: rewrite ?filter_nil; simpl.
  all: try (rewrite (drop_S _ _ _ Hr); simpl; by rewrite ?app_nil_r).
  all: rewrite !drop_ge by (apply lookup_ge_None_1 in Hr; lia).
  all: by rewrite !take_nil.
Qed.

Lemma emit_at_seq_added (rs as_ : list LineOp) count : ∀ lo,
  filter (λ l, type l = unchanged ∨ type l = tag added)
    (flat_map (emit_at rs as_) (seq lo count))
  = added_line <$> take count (drop lo as_).
Proof.
  induction count as [|count IH]; intros lo; [done|].
  simpl. rewrite filter_app, IH. unfold emit_at. rewrite filter_app.
  destruct (rs !! lo) as [r|] eqn:Hr;
    destruct (as_ !! lo) as [a|] eqn:Ha; simpl.
  all: rewrite ?(filter_cons_False _ (removed_line _)) by (by intros [|]).
  all: rewrite ?(filter_cons_True _ (added_line _)) by (by right).
  all: rewrite ?filter_nil; simpl.
  all: try (rewrite (drop_S _ _ _ Ha); simpl; by rewrite ?app_nil_r).
  all: rewrite !drop_ge by (apply lookup_ge_None_1 in Ha; lia).
  all: by rewrite !take_nil.
Qed.

Lemma filter_run_removed run :
  Forall (λ op, op_type op ≠ unchanged) run →
  filter (λ op, op_type op = unchanged ∨ op_type op = tag removed) run
  = filter (λ op, op_type op = tag removed) run.
Proof.
  induction 1 as [|op run Hop _ IH]; [done|].
  destruct (decide (op_type op = tag removed)) as [Hr|Hr].
  - rewrite !filter_cons_True; [by f_equal|done|by right].
  - rewrite !filter_cons_False; [done|done|by intros [|]].
Qed.

Lemma filter_run_added run :
  Forall (λ op, op_type op ≠ unchanged) run →
  filter (λ op, op_type op = unchanged ∨ op_type op = tag added) run
  = filter (λ op, op_type op = tag added) run.
Proof.
  induction 1 as [|op run Hop _ IH]; [done|].
  destruct (decide (op_type op = tag added)) as [Hr|Hr].
  - rewrite !filter_cons_True; [by f_equal|done|by right].
  - rewrite !filter_cons_False; [done|done|by intros [|]].
Qed.

Lemma old_lines_emit_run run :
  Forall (λ op, op_type op ≠ unchanged) run →
  old_lines (emit_run run)
  = op_content <$>
      filter (λ op, op_type op = unchanged ∨ op_type op = tag removed) run.
Proof.
  intros Hrun. unfold old_lines, emit_run.
  rewrite emit_at_seq_removed, drop_0, take_ge by lia.
  rewrite filter_run_removed by done. by rewrite <-list_fmap_compose.
Qed.

Lemma new_lines_emit_run run :
  Forall (λ op, op_type op ≠ unchanged) run →
  new_lines (emit_run run)
  = op_content <$>
      filter (λ op, op_type op = unchanged ∨ op_type op = tag added) run.
Proof.
  intros Hrun. unfold new_lines, emit_run.
  rewrite emit_at_seq_added, drop_0, take_ge by lia.
  rewrite filter_run_added by done. by rewrite <-list_fmap_compose.
Qed.

Lemma lines_emit_groups groups :
  Forall group_ok groups →
  old_lines (flat_map emit_group groups)
  = op_content <$>
      filter (λ op, op_type op = unchanged ∨ op_type op = tag removed)
        (concat (ungroup <$> groups))
  ∧ new_lines (flat_map emit_group groups)
    = op_content <$>
        filter (λ op, op_type op = unchanged ∨ op_type op = tag added)
          (concat (ungroup <$> groups)).
Proof.
  induction 1 as [|g groups Hg _ [IHo IHn]]; [done|].
  rewrite fmap_cons, concat_cons, !filter_app, !fmap_app, <-IHo, <-IHn.
  change (flat_map emit_group (g :: groups))
    with (emit_group g ++ flat_map emit_group groups).
  unfold old_lines, new_lines in *. rewrite !filter_app, !fmap_app.
  destruct g as [op|run]; simpl in Hg.
  - simpl. rewrite !filter_cons_True by (by left). done.
  - destruct Hg as [_ Hrun].
    pose proof (old_lines_emit_run run Hrun) as Ho.
    pose proof (new_lines_emit_run run Hrun) as Hn.
    unfold old_lines, new_lines in Ho, Hn. simpl. by rewrite Ho, Hn.
Qed.

Lemma Forall_flat_map {X Y : Type} (P : Y → Prop) (f : X → list Y) l :
  (∀ x, Forall P (f x)) → Forall P (flat_map f l).
Proof.
  intros Hf. induction l as [|x l IH]; simpl; [done|].
  apply Forall_app. by split.
Qed.

Lemma emit_groups_unpaired groups :
  Forall (λ l, pairedWith l = None ∧ segments l = None)
    (flat_map emit_group groups).
Proof.
  apply Forall_flat_map. intros [op|run]; simpl; [by repeat constructor|].
  apply Forall_flat_map. intros k. unfold emit_at.
  apply Forall_app. split.
  - destruct (_ !! k); simpl; by repeat constructor.
  - destruct (_ !! k); simpl; by repeat constructor.
Qed.

Lemma core_unpaired diff :
  Forall (λ l, pairedWith l = None ∧ segments l = None) diff →
  core <$> diff = diff.
Proof.
  induction 1 as [|l diff [Hp Hs] _ IH]; [done|].
  rewrite fmap_cons, IH. f_equal. destruct l. simpl in *. by subst.
Qed.

Lemma lines_core diff :
  old_lines (core <$> diff) = old_lines diff
  ∧ new_lines (core <$> diff) = new_lines diff.
Proof.
  unfold old_lines, new_lines.
  induction diff as [|l diff [IHo IHn]]; [done|]. rewrite fmap_cons.
  split.
  - destruct (decide (type l = unchanged ∨ type l = tag removed)).
    + rewrite !filter_cons_True by done. rewrite !fmap_cons. by f_equal.
    + by rewrite !filter_cons_False by done.
  - destruct (decide (type l = unchanged ∨ type l = tag added)).
    + rewrite !filter_cons_True by done. rewrite !fmap_cons. by f_equal.
    + by rewrite !filter_cons_False by done.
Qed.

Lemma makeLineOp_old (e : EditOp (A := string)) :
  (op_type (apply_makeOp makeLineOp e) = unchanged
   ∨ op_type (apply_makeOp makeLineOp e) = tag removed)
  ↔ kind e ≠ added.
Proof. destruct e as [[] ???]; unfold apply_makeOp; simpl; naive_solver. Qed.

Lemma makeLineOp_new (e : EditOp (A := string)) :
  (op_type (apply_makeOp makeLineOp e) = unchanged
   ∨ op_type (apply_makeOp makeLineOp e) = tag added)
  ↔ kind e ≠ removed.
Proof. destruct e as [[] ???]; unfold apply_makeOp; simpl; naive_solver. Qed.

Lemma makeLineOp_tag (e : EditOp (A := string)) :
  line_tag (apply_makeOp makeLineOp e).
Proof.
  destruct e as [[] ???]; unfold line_tag, apply_makeOp; simpl; auto.
Qed.

Lemma makeLineOp_sides (eops : list (EditOp (A := string))) :
  let ops := apply_makeOp makeLineOp <$> eops in
  Forall line_tag ops
  ∧ op_content <$>
      filter (λ op, op_type op = unchanged ∨ op_type op = tag removed) ops
    = old_side eops
  ∧ op_content <$>
      filter (λ op, op_type op = unchanged ∨ op_type op = tag added) ops
    = new_side eops.
Proof.
  unfold old_side, new_side.
  induction eops as [|e eops (IHt & IHo & IHn)]; [done|].
  rewrite fmap_cons. split; [|split].
  - constructor; [apply makeLineOp_tag|done].
  - destruct (decide (kind e ≠ added)) as [He|He].
    + rewrite (filter_cons_True _ e) by done.
      rewrite filter_cons_True by (by apply makeLineOp_old).
      rewrite !fmap_cons. by f_equal.
    + rewrite (filter_cons_False _ e) by done.
      by rewrite filter_cons_False by (by rewrite makeLineOp_old).
  - destruct (decide (kind e ≠ removed)) as [He|He].
    + rewrite (filter_cons_True _ e) by done.
      rewrite filter_cons_True by (by apply makeLineOp_new).
      rewrite !fmap_cons. by f_equal.
    + rewrite (filter_cons_False _ e) by done.
      by rewrite filter_cons_False by (by rewrite makeLineOp_new).
Qed.

(** ** Word differ *)

Lemma getWordDiff_total oldStr newStr : is_Some (getWordDiff oldStr newStr).
Proof.
  unfold getWordDiff.
  destruct (buildLCSTable_inv (tokenize oldStr) (tokenize newStr))
    as (dp & Hdp & _).
  rewrite Hdp. simpl.
  destruct (backtrackLCS_walk dp (tokenize oldStr) (tokenize newStr)
              (λ type _ _ value, {| value := value; seg_type := type |}))
    as (ops & _ & -> & _); [|done].
  intros i j ??. by eapply buildLCSTable_cells_Some.
Qed.

Lemma append_nil_r (s : string) : s +:+ EmptyString = s.
Proof.
  induction s as [|a s IH]; [done|]. exact (f_equal (String a) IH).
Qed.

Lemma append_assoc (s1 s2 s3 : string) :
  (s1 +:+ s2) +:+ s3 = s1 +:+ (s2 +:+ s3).
Proof.
  induction s1 as [|a s1 IH]; [done|]. exact (f_equal (String a) IH).
Qed.

Lemma block_value_snoc block seg :
  block_value (block ++ [seg]) = block_value block +:+ value seg.
Proof.
  unfold block_value. induction block as [|s block IH]; simpl.
  - apply append_nil_r.
  - by rewrite IH, append_assoc.
Qed.

Lemma block_singleton seg :
  [seg] ≠ [] ∧ Forall (λ r, seg_type r = seg_type seg) [seg]
  ∧ value seg = block_value [seg].
Proof.
  split; [done|]. split; [by repeat constructor|].
  unfold block_value. simpl. by rewrite append_nil_r.
Qed.

Lemma no_adjacent_same_snoc segs seg :
  no_adjacent_same (segs ++ [seg])
  ↔ no_adjacent_same segs
    ∧ ∀ s, last segs = Some s → seg_type s ≠ seg_type seg.
Proof.
  split.
  - intros Hn. split.
    + intros k s1 s2 H1 H2.
      apply (Hn k); by apply lookup_app_l_Some.
    + intros s Hs. rewrite last_lookup in Hs.
      destruct segs as [|s0 segs] using rev_ind; [done|].
      rewrite length_app in Hs. simpl in Hs.
      replace (pred (length segs + 1)) with (length segs) in Hs by lia.
      apply (Hn (length segs)).
      * by apply lookup_app_l_Some.
      * apply list_lookup_middle. rewrite length_app. simpl. lia.
  - intros [Hn Hlast] k s1 s2 H1 H2.
    destruct (decide (S k < length segs)) as [Hk|Hk].
    + rewrite lookup_app_l in H1, H2 by lia. by apply (Hn k).
    + assert (S k = length segs) as Hk'.
      { apply lookup_lt_Some in H2. rewrite length_app in H2. simpl in H2. lia. }
      rewrite lookup_app_l in H1 by lia.
      rewrite lookup_app_r in H2 by lia.
      rewrite Hk', Nat.sub_diag in H2. simplify_eq/=.
      apply Hlast. rewrite last_lookup. by rewrite <-Hk'.
Qed.

Lemma coalesce_step_spec raw segs seg :
  merges raw segs → no_adjacent_same segs →
  merges (raw ++ [seg]) (coalesce_step segs seg)
  ∧ no_adjacent_same (coalesce_step segs seg).
Proof.
  intros (blocks & -> & Hblocks) Hn. unfold coalesce_step.
  destruct segs as [|s segs _] using rev_ind.
  { simpl. apply Forall2_nil_inv_r in Hblocks as ->. split.
    - exists [[seg]]. split; [done|].
      constructor; [apply block_singleton|constructor].
    - by intros [|k] ????. }
  rewrite length_app. simpl.
  replace (length segs + 1 - 1) with (length segs) by lia.
  rewrite list_lookup_middle by done.
  apply Forall2_app_inv_r in Hblocks
    as (blocks' & bl & Hblocks & Hlast & ->).
  apply Forall2_cons_inv_r in Hlast as (block & ? & (Hne & Hty & Hval) & ->%Forall2_nil_inv_r & ->).
  apply no_adjacent_same_snoc in Hn as [Hn Hlast].
  case_decide as Hsame.
  - replace (length segs) with (length segs + 0) by lia.
    rewrite insert_app_r. simpl. split.
    + exists (blocks' ++ [block ++ [seg]]). split.
      { rewrite !concat_app. simpl. by rewrite !app_nil_r, app_assoc. }
      apply Forall2_app; [done|].
      constructor; [|constructor]. simpl. split; [by destruct block|]. split.
      * apply Forall_app. split; [done|]. by repeat constructor.
      * by rewrite block_value_snoc, Hval.
    + apply no_adjacent_same_snoc. split; [done|]. simpl. done.
  - split.
    + exists ((blocks' ++ [block]) ++ [[seg]]). split.
      { by rewrite !concat_app. }
      apply Forall2_app; [by apply Forall2_app; [|repeat constructor]|].
      constructor; [apply block_singleton|constructor].
    + apply no_adjacent_same_snoc. split.
      * by apply no_adjacent_same_snoc.
      * intros s'. rewrite last_snoc. by intros [= <-].
Qed.

Lemma coalesce_spec raw :
  merges raw (coalesce raw) ∧ no_adjacent_same (coalesce raw).
Proof.
  unfold coalesce. induction raw as [|seg raw [IHm IHn]] using rev_ind.
  - split; [by exists []; split; [|constructor]|by intros k ??; simpl].
  - rewrite foldl_snoc. by apply coalesce_step_spec.
Qed.

(** ** The pairing pass *)

Lemma core_fmap_insert (diff : list DiffLine) (k : nat) l l' :
  diff !! k = Some l → core l' = core l →
  core <$> <[k := l']> diff = core <$> diff.
Proof.
  intros Hk Hcore. rewrite list_fmap_insert, Hcore.
  apply list_insert_id. by rewrite list_lookup_fmap, Hk.
Qed.

Lemma pair_step_inv (diff0 : list DiffLine) k diff :
  S k < length diff → pairing_inv diff0 diff →
  ∃ diff', pair_step k diff = Some diff' ∧ pairing_inv diff0 diff'.
Proof.
  intros Hk (Hlen & Hcore & Hok). unfold pair_step.
  rewrite Nat.add_1_r.
  destruct (lookup_lt_is_Some_2 diff k) as [current Hcur]; [lia|].
  destruct (lookup_lt_is_Some_2 diff (S k)) as [next Hnext]; [lia|].
  rewrite Hcur, Hnext. simpl.
  destruct (_ && _ && _) eqn:Hcond; [|by exists diff].
  apply andb_prop in Hcond as [[Hpair Hc%bool_decide_eq_true]%andb_prop
                               Hn%bool_decide_eq_true].
  set (oldStr := if decide (type current = tag removed)
                 then content current else content next).
  set (newStr := if decide (type current = tag added)
                 then content current else content next).
  destruct (getWordDiff_total oldStr newStr) as [raw Hraw].
  rewrite Hraw. simpl.
  set (segs := coalesce raw).
  set (current' := mkDiffLine _ _ _ _ (Some (S k)) _).
  set (next' := mkDiffLine _ _ _ _ (Some k) _).
  assert (type current = tag removed ∧ type next = tag added
            ∧ word_diff_of current' next' segs
          ∨ type current = tag added ∧ type next = tag removed
            ∧ word_diff_of next' current' segs) as Htypes.
  { apply orb_prop in Hpair
      as [[Ht1 Ht2]%bool_decide_eq_true|[Ht1 Ht2]%bool_decide_eq_true];
      [left|right]; (split; [done|split; [done|]]); exists raw;
      (split; [|done]); rewrite <-Hraw; unfold oldStr, newStr; simpl;
      rewrite Ht1; by repeat case_decide. }
  assert (diff' : <[S k := next']> (<[k := current']> diff) !! k
                  = Some current').
  { rewrite list_lookup_insert_ne by lia.
    apply list_lookup_insert_eq. lia. }
  assert (diff'' : <[S k := next']> (<[k := current']> diff) !! S k
                   = Some next').
  { apply list_lookup_insert_eq. rewrite length_insert. lia. }
  eexists. split; [done|]. split; [|split].
  - by rewrite !length_insert.
  - rewrite (core_fmap_insert _ (S k) next); [|
      by rewrite list_lookup_insert_ne by lia|done].
    by rewrite (core_fmap_insert _ k current).
  - intros q l Hq. destruct (decide (q = S k)) as [->|Hq1];
      [|destruct (decide (q = k)) as [->|Hq2]].
    + assert (l = next') as -> by congruence.
      unfold paired_at. simpl. exists current', segs.
      split; [by right|]. split; [done|]. split; [done|].
      split; [done|]. split; [done|]. simpl.
      destruct Htypes as [(? & ? & ?)|(? & ? & ?)]; [by right|by left].
    + assert (l = current') as -> by congruence.
      unfold paired_at. simpl. exists next', segs.
      split; [by left|]. split; [done|]. split; [done|].
      split; [done|]. split; [done|]. simpl.
      destruct Htypes as [(? & ? & ?)|(? & ? & ?)]; [by left|by right].
    + rewrite !list_lookup_insert_ne in Hq by done.
      pose proof (Hok q l Hq) as Hl. unfold paired_at in *.
      destruct (pairedWith l) as [p|]; [|done].
      destruct Hl as (partner & segs' & Hp & Hpartner & Hback & Hrest).
      exists partner, segs'. split; [done|]. split; [|done].
      rewrite !list_lookup_insert_ne; [done| |]; intros <-; congruence.
Qed.

Lemma pairing_inv_init diff0 :
  Forall (λ l, pairedWith l = None ∧ segments l = None) diff0 →
  pairing_inv diff0 diff0.
Proof.
  intros Hall. split; [done|]. split; [done|]. intros k l Hl.
  destruct (Forall_lookup_1 _ _ _ _ Hall Hl) as [Hp Hs].
  unfold paired_at. by rewrite Hp.
Qed.

Lemma pairing_loop diff0 :
  Forall (λ l, pairedWith l = None ∧ segments l = None) diff0 →
  ∃ diff, for_loop 0 (length diff0 - 1) pair_step diff0 = Some diff
          ∧ pairing_inv diff0 diff.
Proof.
  intros Hall.
  destruct (for_loop_inv (λ _, pairing_inv diff0) 0 (length diff0 - 1)
              pair_step diff0) as (diff & Hrun & Hinv);
    [by apply pairing_inv_init| |by eauto].
  intros k diff Hk Hinv. apply pair_step_inv; [|done].
  destruct Hinv as [-> _]. lia.
Qed.

(** ** Line differ *)

Lemma split_nonempty sep s : split sep s ≠ [].
Proof.
  destruct s as [|c r]; simpl; [done|].
  case_bool_decide; [done|]. by destruct (split sep r).
Qed.

Lemma join_cons sep h t :
  t ≠ [] → join sep (h :: t) = h +:+ String sep (join sep t).
Proof. by destruct t. Qed.

Lemma join_split sep s : join sep (split sep s) = s.
Proof.
  induction s as [|c r IH]; [done|]. simpl.
  pose proof (split_nonempty sep r) as Hne.
  case_bool_decide as Hc.
  - subst c. rewrite join_cons by done. by rewrite IH.
  - destruct (split sep r) as [|h t]; [done|].
    destruct t as [|h' t]; simpl in *; [by rewrite IH|].
    exact (f_equal (String c) IH).
Qed.

Lemma calculateDiff_pipeline oldText newText :
  let oldLines := split "010" (or_empty oldText) in
  let newLines := split "010" (or_empty newText) in
  ∃ table eops diff,
    buildLCSTable oldLines newLines = Some table
    ∧ walk table oldLines newLines (length oldLines) (length newLines) eops
    ∧ backtrackLCS table oldLines newLines makeLineOp
      = Some (apply_makeOp makeLineOp <$> reverse eops)
    ∧ calculateDiff oldText newText = Some diff
    ∧ pairing_inv
        (flat_map emit_group
           (group_runs (apply_makeOp makeLineOp <$> reverse eops))) diff
    ∧ old_side (reverse eops) = oldLines
    ∧ new_side (reverse eops) = newLines.
Proof.
  intros oldLines newLines. unfold calculateDiff.
  fold oldLines newLines.
  destruct (buildLCSTable_inv oldLines newLines) as (table & Htable & _).
  destruct (backtrackLCS_walk table oldLines newLines makeLineOp)
    as (eops & Hwalk & Hback & Hold & Hnew).
  { intros i j ??. by eapply buildLCSTable_cells_Some. }
  set (ops := apply_makeOp makeLineOp <$> reverse eops) in *.
  destruct (makeLineOp_sides (reverse eops)) as (Htag & _ & _). fold ops in Htag.
  pose proof (resequence_groups ops Htag) as Hreseq.
  destruct (pairing_loop (flat_map emit_group (group_runs ops)))
    as (diff & Hpair & Hinv); [apply emit_groups_unpaired|].
  exists table, eops, diff.
  rewrite Htable. simpl. rewrite Hback. simpl. rewrite Hreseq. simpl.
  by rewrite Hpair.
Qed.

Lemma calculateDiff_lines oldText newText :
  ∃ diff, calculateDiff oldText newText = Some diff
          ∧ old_lines diff = split "010" (or_empty oldText)
          ∧ new_lines diff = split "010" (or_empty newText).
Proof.
  destruct (calculateDiff_pipeline oldText newText)
    as (table & eops & diff & _ & _ & _ & Hdiff & Hinv & Hold & Hnew).
  exists diff. split; [done|].
  destruct Hinv as (_ & Hcore & _).
  destruct (lines_core diff) as [<- <-]. rewrite Hcore.
  destruct (lines_core (flat_map emit_group
              (group_runs (apply_makeOp makeLineOp <$> reverse eops))))
    as [-> ->].
  destruct (group_runs_maximal (apply_makeOp makeLineOp <$> reverse eops))
    as (Hcat & Hok & _).
  destruct (lines_emit_groups _ Hok) as [-> ->]. rewrite <-Hcat.
  destruct (makeLineOp_sides (reverse eops)) as (_ & -> & ->). done.
Qed.

(** C1. Edit-script soundness: for all texts [A] and [B], [calculateDiff]
    returns a diff; the contents of its unchanged and removed lines, in
    output order, are the lines of [A] (that is, [A] split on newline), and
    the contents of its unchanged and added lines are the lines of [B]; so
    joining them with newlines gives back [A] and [B]. *)
Theorem calculateDiff_sound (A B : string) :
  ∃ diff,
    calculateDiff (Some A) (Some B) = Some diff
    ∧ old_lines diff = split "010" A
    ∧ new_lines diff = split "010" B
    ∧ join "010" (old_lines diff) = A
    ∧ join "010" (new_lines diff) = B.
Proof.
  destruct (calculateDiff_lines (Some A) (Some B)) as (diff & Hd & Ho & Hn).
  exists diff. simpl in Ho, Hn. rewrite Ho, Hn, !join_split. done.
Qed.

(** C4. Re-sequencing: the operations obtained by backtracking fall into
    unchanged operations and maximal runs of consecutive operations that
    are not unchanged, in one way only; the diff that [calculateDiff] returns consists, up to
    what the pairing pass attaches, of one unchanged line for each
    unchanged operation, in order, and for each run of the lines
    [removed[k]] (if it exists) then [added[k]] (if it exists) for [k] from
    0 to [max(removedCount, addedCount) - 1], where [removed] and [added]
    are the removed and the added operations of the run in order. *)
Theorem calculateDiff_resequencing (A B : string) :
  ∃ table ops groups diff,
    buildLCSTable (split "010" A) (split "010" B) = Some table
    ∧ backtrackLCS table (split "010" A) (split "010" B) makeLineOp = Some ops
    ∧ calculateDiff (Some A) (Some B) = Some diff
    ∧ maximal_runs ops groups
    ∧ (∀ groups', maximal_runs ops groups' → groups' = groups)
    ∧ core <$> diff = flat_map emit_group groups.
Proof.
  destruct (calculateDiff_pipeline (Some A) (Some B))
    as (table & eops & diff & Htable & _ & Hback & Hdiff & Hinv & _).
  exists table, (apply_makeOp makeLineOp <$> reverse eops),
    (group_runs (apply_makeOp makeLineOp <$> reverse eops)), diff.
  split; [done|]. split; [done|]. split; [done|].
  split; [apply group_runs_maximal|]. split.
  - intros groups' Hg. eapply maximal_runs_unique; [done|].
    apply group_runs_maximal.
  - destruct Hinv as (_ & -> & _). apply core_unpaired, emit_groups_unpaired.
Qed.

(** C9. In the diff that [calculateDiff] returns, a line that is paired
    has a partner next to it that refers back to it; one of the two is
    removed, the other added; both carry the same segments, which are the
    word diff of the removed and the added content, coalesced: each block
    of adjacent raw segments of one kind is merged into one segment whose
    value is the concatenation of theirs, and no two adjacent segments are
    of the same kind. *)
Theorem paired_segments_coalesced (oldText newText : option string)
    (diff : list DiffLine) (k p : nat) (line : DiffLine) :
  calculateDiff oldText newText = Some diff →
  diff !! k = Some line →
  pairedWith line = Some p →
  ∃ partner segs raw removed_ added_,
    diff !! p = Some partner
    ∧ pairedWith partner = Some k
    ∧ segments line = Some segs
    ∧ segments partner = Some segs
    ∧ (removed_ = line ∧ added_ = partner ∨ removed_ = partner ∧ added_ = line)
    ∧ type removed_ = tag removed
    ∧ type added_ = tag added
    ∧ getWordDiff (content removed_) (content added_) = Some raw
    ∧ segs = coalesce raw
    ∧ merges raw segs
    ∧ no_adjacent_same segs.
Proof.
  intros Hdiff Hline Hp.
  destruct (calculateDiff_pipeline oldText newText)
    as (table & eops & diff' & _ & _ & _ & Hdiff' & (_ & _ & Hok) & _).
  assert (diff' = diff) as -> by congruence.
  specialize (Hok k line Hline). unfold paired_at in Hok. rewrite Hp in Hok.
  destruct Hok as (partner & segs & _ & Hpartner & Hback & Hs1 & Hs2 & Hkinds).
  destruct Hkinds as [(Ht1 & Ht2 & raw & Hraw & ->)|(Ht1 & Ht2 & raw & Hraw & ->)].
  - exists partner, (coalesce raw), raw, line, partner.
    destruct (coalesce_spec raw). repeat split; auto.
  - exists partner, (coalesce raw), raw, partner, line.
    destruct (coalesce_spec raw). repeat split; auto.
Qed.

Lemma paired_segments_coalesced_witness :
  calculateDiff (Some example_old) (Some example_new) = Some example_diff
  ∧ example_diff !! 1 = Some example_bar
  ∧ pairedWith example_bar = Some 2
  ∧ ∃ partner segs raw removed_ added_,
      example_diff !! 2 = Some partner
      ∧ pairedWith partner = Some 1
      ∧ segments example_bar = Some segs
      ∧ segments partner = Some segs
      ∧ (removed_ = example_bar ∧ added_ = partner
         ∨ removed_ = partner ∧ added_ = example_bar)
      ∧ type removed_ = tag removed
      ∧ type added_ = tag added
      ∧ getWordDiff (content removed_) (content added_) = Some raw
      ∧ segs = coalesce raw
      ∧ merges raw segs
      ∧ no_adjacent_same segs.
Proof.
  split; [vm_compute; reflexivity|]. split; [reflexivity|].
  split; [reflexivity|].
  apply (paired_segments_coalesced (Some example_old) (Some example_new)
           example_diff 1 2 example_bar);
    [vm_compute; reflexivity|reflexivity|reflexivity].
Defined.

(** C5, as the code has it.  For the texts [foo], [bar] and [foo], [baz],
    each line ending in a newline, [calculateDiff] returns four lines: an
    unchanged [foo], a removed [bar] and an added [baz] that refer to each
    other, and an unchanged empty line, which is what follows the last
    newline of both texts. *)
Theorem calculateDiff_example :
  ∃ l0 l1 l2 l3,
    calculateDiff (Some example_old) (Some example_new) = Some [l0; l1; l2; l3]
    ∧ (type l0, content l0) = (unchanged, "foo")
    ∧ (type l1, content l1) = (tag removed, "bar")
    ∧ (type l2, content l2) = (tag added, "baz")
    ∧ (type l3, content l3) = (unchanged, "")
    ∧ pairedWith l1 = Some 2
    ∧ pairedWith l2 = Some 1
    ∧ pairedWith l0 = None
    ∧ pairedWith l3 = None.
Proof.
  exists example_foo, example_bar, example_baz, example_last.
  split; [vm_compute; reflexivity|]. by repeat split.
Qed.

(** C5, as the claim has it, fails: the diff of the two texts is not the
    sequence of an unchanged [foo], a removed [bar] and an added [baz]; it
    has two unchanged lines. *)
Lemma calculateDiff_example_not_three_lines :
  ¬ (∃ diff,
       calculateDiff (Some example_old) (Some example_new) = Some diff
       ∧ (λ l, (type l, content l)) <$> diff
         = [(unchanged, "foo"); (tag removed, "bar"); (tag added, "baz")])
  ∧ ¬ (∃ diff,
         calculateDiff (Some example_old) (Some example_new) = Some diff
         ∧ length (filter (λ l, type l = unchanged) diff) = 1).
Proof.
  assert (calculateDiff (Some example_old) (Some example_new)
          = Some example_diff) as Hd by (vm_compute; reflexivity).
  split; intros (diff & Hdiff & Hclaim); rewrite Hd in Hdiff;
    injection Hdiff as <-; by vm_compute in Hclaim.
Qed.

(** ** Chunk folder *)

Lemma chunk_ok_not_mixed c : chunk_ok c → ¬ mixed c.
Proof.
  intros [_ Hall] (l1 & l2 & H1 & H2 & Hu & Hn).
  rewrite Forall_forall in Hall.
  apply Hn, (Hall l2 H2), (Hall l1 H1), Hu.
Qed.

Lemma chunk_step_inv diff i st :
  i < length diff → chunk_inv diff i st →
  ∃ st', chunk_step diff i st = Some st' ∧ chunk_inv diff (S i) st'.
Proof.
  intros Hi (Hcat & Hchunks & [Hne Hcur]). destruct st as [chunks cur].
  simpl in *. destruct (lookup_lt_is_Some_2 diff i Hi) as [d Hd].
  unfold chunk_inv. rewrite Hd. simpl. rewrite (take_S_r _ _ _ Hd), <-Hcat.
  destruct (_ || _) eqn:Hcond; eexists; (split; [done|]);
    (split; [|split]); simpl; try done.
  - by rewrite app_assoc.
  - split; [by destruct (lines cur)|]. simpl.
    apply Forall_app. split; [done|]. constructor; [|done].
    apply orb_prop in Hcond
      as [->%bool_decide_eq_true
         |[?%bool_decide_eq_true ?%bool_decide_eq_true]%andb_prop]; tauto.
  - rewrite fmap_app, concat_app. simpl. by rewrite app_nil_r.
  - apply Forall_app. split; [done|]. by repeat constructor.
  - split; [done|]. by repeat constructor.
Qed.

Lemma chunkifyDiff_chunks (diff : list DiffLine) :
  ∃ chunks,
    chunkifyDiff diff = Some chunks
    ∧ concat (lines <$> chunks) = diff
    ∧ Forall chunk_ok chunks.
Proof.
  unfold chunkifyDiff. case_decide as Hlen.
  { exists []. apply nil_length_inv in Hlen as ->. by repeat split. }
  destruct (lookup_lt_is_Some_2 diff 0) as [d0 Hd0]; [lia|].
  rewrite Hd0. simpl.
  destruct (for_loop_inv (chunk_inv diff) 1 (length diff - 1)
              (chunk_step diff) ([], mkChunk (type d0) [d0]))
    as ([chunks cur] & -> & Hcat & Hchunks & Hcur).
  - split; [|split; [done|]].
    + simpl. by rewrite (take_S_r _ _ _ Hd0).
    + split; [done|]. by repeat constructor.
  - intros i st Hi. apply chunk_step_inv. lia.
  - simpl in *. exists (chunks ++ [cur]).
    split; [done|]. split.
    + rewrite fmap_app, concat_app. simpl. rewrite app_nil_r, Hcat.
      apply take_ge. lia.
    + apply Forall_app. split; [done|]. by constructor.
Qed.

(** C8. For every sequence of diff lines [chunkifyDiff] returns chunks;
    their lines, concatenated, are the input sequence; every chunk has at
    least one line; no chunk holds both an unchanged line and a line that
    is not unchanged. *)
Theorem chunkifyDiff_invariants (diff : list DiffLine) :
  ∃ chunks,
    chunkifyDiff diff = Some chunks
    ∧ concat (lines <$> chunks) = diff
    ∧ Forall (λ c, lines c ≠ []) chunks
    ∧ Forall (λ c, ¬ mixed c) chunks.
Proof.
  destruct (chunkifyDiff_chunks diff) as (chunks & Hrun & Hcat & Hall).
  exists chunks. split; [done|]. split; [done|]. split.
  - eapply Forall_impl; [exact Hall|]. by intros c [? _].
  - eapply Forall_impl; [exact Hall|]. apply chunk_ok_not_mixed.
Qed.

(** ** Slug resolver and file matcher *)

Lemma getFileSlug_total path : is_Some (getFileSlug path).
Proof.
  unfold getFileSlug.
  pose proof (split_nonempty "/" path) as Hne.
  destruct (lookup_lt_is_Some_2 (split "/" path)
              (length (split "/" path) - 1)) as [filename ->]; [|done].
  destruct (split "/" path); [done|]. simpl. lia.
Qed.

Lemma map_get_set {V : Type} k (v : V) m : map_get k (map_set k v m) = Some v.
Proof.
  unfold map_get. induction m as [|[k' v'] m IH]; simpl.
  - by rewrite filter_cons_True.
  - case_decide as Hk.
    + by rewrite filter_cons_True.
    + by rewrite filter_cons_False.
Qed.

Lemma map_has_get {V : Type} k (m : list (string * V)) :
  map_has k m = true → is_Some (map_get k m).
Proof.
  unfold map_has, map_get. intros Hk%bool_decide_eq_true.
  induction m as [|[k' v'] m IH]; [by apply elem_of_nil in Hk|].
  destruct (decide (k' = k)) as [->|Hne].
  - by rewrite filter_cons_True.
  - rewrite filter_cons_False by done. apply IH.
    rewrite fmap_cons in Hk. apply elem_of_cons in Hk as [?|?]; [|done].
    simpl in *. congruence.
Qed.

Lemma file_map_step_total map f : is_Some (file_map_step map f).
Proof.
  unfold file_map_step. destruct (getFileSlug_total (path f)) as [slug ->].
  simpl. destruct (map_has slug map) eqn:Hhas.
  - destruct (map_has_get _ _ Hhas) as [files ->]. done.
  - by rewrite map_get_set.
Qed.

Lemma reduce_total {X St : Type} (f : St → X → option St) arr init :
  (∀ s x, is_Some (f s x)) → is_Some (reduce f arr init).
Proof.
  intros Hf. revert init. induction arr as [|x arr IH]; intros init; [done|].
  simpl. destruct (Hf init x) as [acc ->]. apply IH.
Qed.

Lemma buildFileMap_total files : is_Some (buildFileMap files).
Proof. apply reduce_total, file_map_step_total. Qed.

Lemma matchedPairs_total cmp v1Files v2Files :
  is_Some (matchedPairs cmp v1Files v2Files).
Proof.
  unfold matchedPairs. case_decide; [done|].
  destruct (buildFileMap_total v1Files) as [v1Map ->].
  destruct (buildFileMap_total v2Files) as [v2Map ->]. done.
Qed.

Section Sorting.
Context {X : Type} (cmp : X → X → Z).
Hypothesis cmp_total : ∀ x y, (cmp x y ≤ 0 ∨ cmp y x ≤ 0)%Z.

Lemma sort_insert_Sorted x l :
  Sorted (λ a b, (cmp a b ≤ 0)%Z) l →
  Sorted (λ a b, (cmp a b ≤ 0)%Z) (sort_insert cmp x l).
Proof.
  induction 1 as [|y l Hl IH Hhd]; simpl; [by repeat constructor|].
  case_decide as Hyx.
  - constructor; [by constructor|]. constructor.
    destruct (cmp_total x y); [done|lia].
  - constructor; [done|].
    destruct Hhd as [|z l Hyz]; simpl.
    + constructor. lia.
    + case_decide; constructor; [lia|done].
Qed.

Lemma sort_Sorted l : Sorted (λ a b, (cmp a b ≤ 0)%Z) (sort cmp l).
Proof.
  unfold sort. generalize (Sorted_nil (λ a b, (cmp a b ≤ 0)%Z)).
  generalize (@nil X). induction l as [|x l IH]; intros acc Hacc; [done|].
  simpl. by apply IH, sort_insert_Sorted.
Qed.
End Sorting.

Lemma Sorted_adjacent {X : Type} (R : X → X → Prop) l k x y :
  Sorted R l → l !! k = Some x → l !! S k = Some y → R x y.
Proof.
  intros Hl. revert k. induction Hl as [|z l Hl IH Hhd]; intros k; [done|].
  destruct k as [|k]; simpl.
  - intros [= ->] Hy. destruct Hhd; simplify_eq/=. done.
  - apply IH.
Qed.

Lemma Sorted_fmap_slug (R : string → string → Prop) pairs :
  Sorted (λ a b, R (slug a) (slug b)) pairs →
  ∀ k p q, pairs !! k = Some p → pairs !! S k = Some q → R (slug p) (slug q).
Proof.
  intros Hs k p q Hp Hq.
  by apply (Sorted_adjacent (λ a b, R (slug a) (slug b)) pairs k).
Qed.

(** C7. Whatever the file collections, the matcher returns its pairs
    sorted by slug in the order of [localeCompare], the collation of the
    host: of two neighbours the earlier slug compares less than or equal to
    the later one.  This is the lexicographic order of the slugs only when
    [localeCompare] agrees with the comparison of strings character by
    character; the counterexample below shows a collation for which the
    slugs are not in lexicographic order. *)
Theorem matchedPairs_sorted (localeCompare : string → string → Z)
    (v1Files v2Files : list SourceFile) :
  (∀ s t, (localeCompare s t ≤ 0 ∨ localeCompare t s ≤ 0)%Z) →
  ∃ pairs,
    matchedPairs localeCompare v1Files v2Files = Some pairs
    ∧ (∀ k p q, pairs !! k = Some p → pairs !! S k = Some q →
         (localeCompare (slug p) (slug q) ≤ 0)%Z)
    ∧ ((∀ s t, (localeCompare s t ≤ 0)%Z ↔ (s ≤ t)%string) →
       ∀ k p q, pairs !! k = Some p → pairs !! S k = Some q →
         (slug p ≤ slug q)%string).
Proof.
  intros Htotal.
  assert (∃ pairs, matchedPairs localeCompare v1Files v2Files = Some pairs
                   ∧ Sorted (λ a b, (localeCompare (slug a) (slug b) ≤ 0)%Z)
                       pairs) as (pairs & Hrun & Hsorted).
  { unfold matchedPairs. case_decide; [exists []; by split|].
    destruct (buildFileMap_total v1Files) as [v1Map ->].
    destruct (buildFileMap_total v2Files) as [v2Map ->]. simpl.
    eexists. split; [done|].
    apply (sort_Sorted (λ a b, localeCompare (slug a) (slug b))).
    intros x y. apply Htotal. }
  exists pairs. split; [done|]. split.
  - by apply (Sorted_fmap_slug (λ s t, (localeCompare s t ≤ 0)%Z)).
  - intros Hlex k p q Hp Hq. apply Hlex.
    by apply (Sorted_fmap_slug (λ s t, (localeCompare s t ≤ 0)%Z) pairs Hsorted k).
Qed.

Lemma codeunit_compare_total s t :
  (codeunit_compare s t ≤ 0 ∨ codeunit_compare t s ≤ 0)%Z.
Proof.
  unfold codeunit_compare. rewrite (String.compare_antisym t s).
  destruct (String.compare s t); simpl; lia.
Qed.

Lemma codeunit_compare_le s t :
  (codeunit_compare s t ≤ 0)%Z ↔ (s ≤ t)%string.
Proof.
  unfold codeunit_compare, String.le, String.leb.
  destruct (String.compare s t); simpl; split; (done || lia).
Qed.

Lemma punctuation_first_compare_total s t :
  (punctuation_first_compare s t ≤ 0
   ∨ punctuation_first_compare t s ≤ 0)%Z.
Proof.
  revert t. induction s as [|a s IH]; intros [|b t]; simpl; try lia.
  repeat case_decide; try lia. apply IH.
Qed.

Lemma matchedPairs_underscore_first (localeCompare : string → string → Z) :
  (0 < localeCompare "a1" "a_b")%Z →
  slug <$> default []
             (matchedPairs localeCompare
                [mkSourceFile "a1.js" "" 0; mkSourceFile "a_b.js" "" 0] [])
  = ["a_b"; "a1"].
Proof.
  intros Hlt.
  assert (matchedPairs localeCompare
            [mkSourceFile "a1.js" "" 0; mkSourceFile "a_b.js" "" 0] []
          = Some (sort (λ a b, localeCompare (slug a) (slug b))
                    [mkMatchedPair deleted "a1"
                       (Some (mkSourceFile "a1.js" "" 0)) None;
                     mkMatchedPair deleted "a_b"
                       (Some (mkSourceFile "a_b.js" "" 0)) None])) as ->
    by (by vm_compute).
  unfold sort. simpl. by rewrite decide_True.
Qed.

(** C7, counterexample.  Whenever [localeCompare] places [a_b] before
    [a1], as the default collation does (punctuation before digits), the
    matcher returns the pairs of [a1.js] and [a_b.js] with the slug [a_b]
    before the slug [a1]; character by character [a1] is the smaller one,
    so the slugs are not in lexicographic order.
    [punctuation_first_compare] is a total comparison of this kind. *)
Lemma matchedPairs_not_lexicographic :
  (∀ localeCompare : string → string → Z,
     (0 < localeCompare "a1" "a_b")%Z →
     slug <$> default []
                (matchedPairs localeCompare
                   [mkSourceFile "a1.js" "" 0; mkSourceFile "a_b.js" "" 0] [])
     = ["a_b"; "a1"])
  ∧ (∀ s t, (punctuation_first_compare s t ≤ 0
             ∨ punctuation_first_compare t s ≤ 0)%Z)
  ∧ ∃ pairs,
      matchedPairs punctuation_first_compare
        [mkSourceFile "a1.js" "" 0; mkSourceFile "a_b.js" "" 0] []
      = Some pairs
      ∧ slug <$> pairs = ["a_b"; "a1"]
      ∧ ¬ (∀ k p q, pairs !! k = Some p → pairs !! S k = Some q →
             (slug p ≤ slug q)%string).
Proof.
  split; [apply matchedPairs_underscore_first|].
  split; [apply punctuation_first_compare_total|].
  eexists. split; [by vm_compute|]. split; [done|].
  intros H. specialize (H 0 _ _ eq_refl eq_refl). by vm_compute in H.
Qed.

Lemma matchedPairs_sorted_witness :
  (∀ s t, (codeunit_compare s t ≤ 0 ∨ codeunit_compare t s ≤ 0)%Z)
  ∧ ∃ pairs,
      matchedPairs codeunit_compare base_files target_files = Some pairs
      ∧ (∀ k p q, pairs !! k = Some p → pairs !! S k = Some q →
           (codeunit_compare (slug p) (slug q) ≤ 0)%Z)
      ∧ (∀ k p q, pairs !! k = Some p → pairs !! S k = Some q →
           (slug p ≤ slug q)%string).
Proof.
  split; [exact codeunit_compare_total|].
  destruct (matchedPairs_sorted codeunit_compare base_files target_files
              codeunit_compare_total) as (pairs & Hrun & Hcmp & Hlex).
  exists pairs. split; [exact Hrun|]. split; [exact Hcmp|].
  exact (Hlex codeunit_compare_le).
Defined.

(** C6. For the base files [a_v1.js] and [util-legacy.js] and the target
    files [a_v2.js], [util-modern.js] and [new.js] the matcher returns
    three pairs, one for each slug: [a], modified; [new], added; [util],
    modified; in this order, provided that [localeCompare] places [a]
    before [new] and [util], and [new] before [util]. *)
Theorem matcher_example (localeCompare : string → string → Z) :
  (localeCompare "a" "new" < 0)%Z →
  (localeCompare "a" "util" < 0)%Z →
  (0 < localeCompare "util" "new")%Z →
  matchedPairs localeCompare base_files target_files
  = Some [mkMatchedPair modified "a"
            (Some (mkSourceFile "a_v1.js" "" 0))
            (Some (mkSourceFile "a_v2.js" "" 0));
          mkMatchedPair (tag added) "new"
            None
            (Some (mkSourceFile "new.js" "" 0));
          mkMatchedPair modified "util"
            (Some (mkSourceFile "util-legacy.js" "" 0))
            (Some (mkSourceFile "util-modern.js" "" 0))].
Proof.
  intros Han Hau Hun. unfold matchedPairs.
  rewrite decide_False by (simpl; lia).
  destruct (buildFileMap base_files) as [v1Map|] eqn:H1;
    [|by vm_compute in H1].
  vm_compute in H1. injection H1 as <-.
  destruct (buildFileMap target_files) as [v2Map|] eqn:H2;
    [|by vm_compute in H2].
  vm_compute in H2. injection H2 as <-.
  simpl. f_equal.
  match goal with
  | |- sort ?c ?l = _ => let l' := eval vm_compute in l in change l with l'
  end.
  unfold sort. simpl.
  rewrite (decide_False (P := (0 < localeCompare "a" "util")%Z)) by lia.
  simpl.
  rewrite (decide_False (P := (0 < localeCompare "a" "new")%Z)) by lia.
  by rewrite (decide_True (P := (0 < localeCompare "util" "new")%Z)).
Qed.

Lemma matcher_example_witness :
  (codeunit_compare "a" "new" < 0)%Z
  ∧ (codeunit_compare "a" "util" < 0)%Z
  ∧ (0 < codeunit_compare "util" "new")%Z
  ∧ matchedPairs codeunit_compare base_files target_files
    = Some [mkMatchedPair modified "a"
              (Some (mkSourceFile "a_v1.js" "" 0))
              (Some (mkSourceFile "a_v2.js" "" 0));
            mkMatchedPair (tag added) "new"
              None
              (Some (mkSourceFile "new.js" "" 0));
            mkMatchedPair modified "util"
              (Some (mkSourceFile "util-legacy.js" "" 0))
              (Some (mkSourceFile "util-modern.js" "" 0))].
Proof.
  split; [reflexivity|]. split; [reflexivity|]. split; [reflexivity|].
  apply (matcher_example codeunit_compare); reflexivity.
Defined.

(** ** Totality *)

Lemma backtrackLCS_total {A Op : Type} `{EqDecision A} (oldArr newArr : list A)
    (makeOp : OpType → option nat → option nat → A → Op) :
  ∃ dp ops, buildLCSTable oldArr newArr = Some dp
            ∧ backtrackLCS dp oldArr newArr makeOp = Some ops.
Proof.
  destruct (buildLCSTable_inv oldArr newArr) as (dp & Hdp & _).
  destruct (backtrackLCS_walk dp oldArr newArr makeOp)
    as (ops & _ & Hops & _); [|by eauto].
  intros i j ??. by eapply buildLCSTable_cells_Some.
Qed.

(** * Further properties *)

(** ** The diff is a shortest one *)

Section Walk_count.
Context {A : Type} `{EqDecision A}.
Variables (dp : list (list nat)) (oldArr newArr : list A).
Hypothesis cells : ∀ i j, i ≤ length oldArr → j ≤ length newArr →
  cell_ok oldArr newArr dp i j.

Lemma cell_value i j v k :
  i ≤ length oldArr → j ≤ length newArr →
  dp_get dp i j = Some v →
  is_lcs_length (take i oldArr) (take j newArr) k → v = k.
Proof.
  intros Hi Hj Hv Hk. destruct (cells i j Hi Hj) as (v' & Hv' & Hlcs).
  assert (v' = v) as -> by congruence. by eapply is_lcs_length_unique.
Qed.

Lemma cell_zero_l j v :
  j ≤ length newArr → dp_get dp 0 j = Some v → v = 0.
Proof.
  intros Hj Hv. eapply (cell_value 0 j); [lia|done|done|].
  apply is_lcs_length_nil_l.
Qed.

Lemma cell_zero_r i v :
  i ≤ length oldArr → dp_get dp i 0 = Some v → v = 0.
Proof.
  intros Hi Hv. eapply (cell_value i 0); [done|lia|done|].
  apply is_lcs_length_nil_r.
Qed.

Lemma walk_equal_count i j ops :
  walk dp oldArr newArr i j ops →
  i ≤ length oldArr → j ≤ length newArr →
  dp_get dp i j = Some (equal_count ops).
Proof.
  unfold equal_count.
  induction 1 as [|i j x ops He Hx _ IH|i j y ops Hne Hp Hy _ IH
                  |i j x ops Hij Hne Hnp Hx _ IH]; intros Hi Hj.
  - destruct (cells 0 0) as (v & Hv & Hlcs); [lia..|].
    rewrite Hv. f_equal. by eapply cell_zero_l.
  - destruct He as (Hi0 & Hj0 & x' & Hx' & Hy').
    assert (x' = x) as -> by congruence.
    rewrite filter_cons_True by done. simpl.
    specialize (IH ltac:(lia) ltac:(lia)).
    destruct (cells i j Hi Hj) as (v & Hv & Hlcs). rewrite Hv. f_equal.
    eapply is_lcs_length_unique; [exact Hlcs|].
    rewrite (take_at_pred _ _ _ Hx), (take_at_pred _ _ _ Hy').
    replace (S (length (filter (λ e, kind e = equal) ops)))
      with (length (filter (λ e, kind e = equal) ops) + 1) by lia.
    apply is_lcs_length_snoc_eq.
    destruct (cells (i - 1) (j - 1)) as (v' & Hv' & Hlcs'); [lia..|].
    assert (v' = length (filter (λ e, kind e = equal) ops)) as <- by congruence.
    done.
  - rewrite filter_cons_False by (simpl; congruence).
    destruct Hp as [Hj0 Hp]. specialize (IH Hi ltac:(lia)).
    destruct (cells i j Hi Hj) as (v & Hv & Hlcs). rewrite Hv. f_equal.
    destruct (decide (i = 0)) as [->|Hi0].
    { rewrite (cell_zero_l j v Hj Hv). symmetry.
      eapply (cell_zero_l (j - 1)); [lia|done]. }
    destruct Hp as [?|(x & y' & Hx & Hy' & Hle)]; [done|].
    assert (x = length (filter (λ e, kind e = equal) ops)) as <- by congruence.
    destruct (at_pred_is_Some oldArr i) as [a Ha]; [lia|].
    assert (a ≠ y) as Hay.
    { intros ->. apply Hne. split; [lia|]. split; [lia|]. eauto. }
    destruct (cells (i - 1) j) as (y'' & Hy'' & Hlcs_up); [lia..|].
    destruct (cells i (j - 1)) as (x'' & Hx'' & Hlcs_left); [lia..|].
    assert (y'' = y') as -> by congruence.
    assert (x'' = x) as -> by congruence.
    eapply is_lcs_length_unique; [exact Hlcs|].
    replace x with (y' `max` x) by lia.
    rewrite (take_at_pred _ _ _ Ha), (take_at_pred _ _ _ Hy).
    apply is_lcs_length_snoc_ne; [done| |].
    + by rewrite <-(take_at_pred _ _ _ Hy).
    + by rewrite <-(take_at_pred _ _ _ Ha).
  - rewrite filter_cons_False by (simpl; congruence).
    assert (0 < i) as Hi0 by (by apply at_pred_Some in Hx as [? _]).
    specialize (IH ltac:(lia) Hj).
    destruct (cells i j Hi Hj) as (v & Hv & Hlcs). rewrite Hv. f_equal.
    destruct (decide (j = 0)) as [->|Hj0].
    { rewrite (cell_zero_r i v Hi Hv). symmetry.
      eapply (cell_zero_r (i - 1)); [lia|done]. }
    destruct (cells (i - 1) j) as (y & Hy & Hlcs_up); [lia..|].
    destruct (cells i (j - 1)) as (x' & Hx' & Hlcs_left); [lia..|].
    assert (y = length (filter (λ e, kind e = equal) ops)) as <- by congruence.
    assert (x' < y) as Hlt.
    { destruct (decide (x' < y)) as [|Hge]; [done|]. destruct Hnp.
      split; [lia|]. right. exists x', y. repeat split; [done..|lia]. }
    destruct (at_pred_is_Some newArr j) as [b Hb]; [lia|].
    assert (x ≠ b) as Hxb.
    { intros ->. apply Hne. split; [lia|]. split; [lia|]. eauto. }
    eapply is_lcs_length_unique; [exact Hlcs|].
    replace y with (y `max` x') by lia.
    rewrite (take_at_pred _ _ _ Hx), (take_at_pred _ _ _ Hb).
    apply is_lcs_length_snoc_ne; [done| |].
    + by rewrite <-(take_at_pred _ _ _ Hb).
    + by rewrite <-(take_at_pred _ _ _ Hx).
Qed.
End Walk_count.

(** ** From the operations to the lines *)

Lemma filter_core (Q : Tag → Prop) `{∀ t, Decision (Q t)}
    (diff : list DiffLine) :
  core <$> filter (λ l, Q (type l)) diff
  = filter (λ l, Q (type l)) (core <$> diff).
Proof.
  induction diff as [|l diff IH]; [done|]. rewrite fmap_cons.
  destruct (decide (Q (type l))) as [Hl|Hl].
  - rewrite !filter_cons_True by done. rewrite fmap_cons. by f_equal.
  - by rewrite !filter_cons_False by done.
Qed.

Lemma filter_length_or {X : Type} (P Q : X → Prop)
    `{∀ x, Decision (P x)} `{∀ x, Decision (Q x)} (l : list X) :
  (∀ x, P x → Q x → False) →
  length (filter (λ x, P x ∨ Q x) l)
  = length (filter P l) + length (filter Q l).
Proof.
  intros Hex. induction l as [|x l IH]; [done|].
  destruct (decide (P x)) as [HP|HP]; destruct (decide (Q x)) as [HQ|HQ].
  - by destruct (Hex x).
  - rewrite (filter_cons_True P) by done.
    rewrite (filter_cons_False Q) by done.
    rewrite filter_cons_True by (by left). simpl. lia.
  - rewrite (filter_cons_False P) by done.
    rewrite (filter_cons_True Q) by done.
    rewrite filter_cons_True by (by right). simpl. lia.
  - rewrite (filter_cons_False P) by done.
    rewrite (filter_cons_False Q) by done.
    rewrite filter_cons_False by tauto. done.
Qed.

Lemma emit_run_lines run :
  Forall (λ l, type l = tag removed ∨ type l = tag added) (emit_run run).
Proof.
  apply Forall_flat_map. intros k. unfold emit_at. apply Forall_app. split.
  - destruct (_ !! k); simpl; [|done]. constructor; [by left|done].
  - destruct (_ !! k); simpl; [|done]. constructor; [by right|done].
Qed.

Lemma filter_none {X : Type} (P : X → Prop) `{∀ x, Decision (P x)}
    (l : list X) :
  Forall (λ x, ¬ P x) l → filter P l = [].
Proof.
  induction 1 as [|x l Hx _ IH]; [done|]. by rewrite filter_cons_False.
Qed.

Lemma filter_all {X : Type} (P : X → Prop) `{∀ x, Decision (P x)}
    (l : list X) :
  Forall P l → filter P l = l.
Proof.
  induction 1 as [|x l Hx _ IH]; [done|].
  rewrite filter_cons_True by done. by f_equal.
Qed.

Lemma emit_groups_sides groups :
  Forall group_ok groups →
  filter (λ l, type l = unchanged ∨ type l = tag removed)
    (flat_map emit_group groups)
  = old_line_of <$>
      filter (λ op, op_type op = unchanged ∨ op_type op = tag removed)
        (concat (ungroup <$> groups))
  ∧ filter (λ l, type l = unchanged ∨ type l = tag added)
      (flat_map emit_group groups)
    = new_line_of <$>
        filter (λ op, op_type op = unchanged ∨ op_type op = tag added)
          (concat (ungroup <$> groups))
  ∧ filter (λ l, type l = unchanged) (flat_map emit_group groups)
    = unchanged_line <$>
        filter (λ op, op_type op = unchanged) (concat (ungroup <$> groups)).
Proof.
  induction 1 as [|g groups Hg _ (IHo & IHn & IHu)]; [done|].
  rewrite fmap_cons, concat_cons, !filter_app, !fmap_app, <-IHo, <-IHn, <-IHu.
  change (flat_map emit_group (g :: groups))
    with (emit_group g ++ flat_map emit_group groups).
  rewrite !filter_app.
  destruct g as [op|run]; simpl in Hg.
  - simpl. rewrite !filter_cons_True by (done || by left).
    rewrite !filter_nil, !fmap_cons. simpl.
    unfold old_line_of, new_line_of. by rewrite !decide_True by done.
  - destruct Hg as [_ Hrun]. simpl. repeat split; f_equal.
    + unfold emit_run.
      rewrite emit_at_seq_removed, drop_0, take_ge by lia.
      rewrite filter_run_removed by done.
      apply list_fmap_ext. intros k op Hop.
      apply list_elem_of_lookup_2, list_elem_of_filter in Hop as [Hop _].
      unfold old_line_of. rewrite decide_False; [done|congruence].
    + unfold emit_run.
      rewrite emit_at_seq_added, drop_0, take_ge by lia.
      rewrite filter_run_added by done.
      apply list_fmap_ext. intros k op Hop.
      apply list_elem_of_lookup_2, list_elem_of_filter in Hop as [Hop _].
      unfold new_line_of. rewrite decide_False; [done|congruence].
    + rewrite (filter_none _ (emit_run run)), (filter_none _ run); [done| |].
      * done.
      * eapply Forall_impl; [apply emit_run_lines|].
        intros l [?|?]; congruence.
Qed.

Lemma makeLineOp_unchanged_count (eops : list (EditOp (A := string))) :
  length (filter (λ op, op_type op = unchanged)
            (apply_makeOp makeLineOp <$> eops))
  = equal_count eops.
Proof.
  unfold equal_count. induction eops as [|e eops IH]; [done|].
  rewrite fmap_cons. destruct e as [[] oi ni v]; unfold apply_makeOp at 1.
  - rewrite !filter_cons_True by done. simpl. by f_equal.
  - rewrite !filter_cons_False by done. done.
  - rewrite !filter_cons_False by done. done.
Qed.

Lemma equal_count_reverse {A : Type} (ops : list (EditOp (A := A))) :
  equal_count (reverse ops) = equal_count ops.
Proof. unfold equal_count. by rewrite filter_reverse, length_reverse. Qed.

(** The lines of a diff as the operations determine them. *)
Lemma calculateDiff_ops oldText newText :
  let oldLines := split "010" (or_empty oldText) in
  let newLines := split "010" (or_empty newText) in
  ∃ table eops diff,
    let ops := apply_makeOp makeLineOp <$> reverse eops in
    buildLCSTable oldLines newLines = Some table
    ∧ walk table oldLines newLines (length oldLines) (length newLines) eops
    ∧ calculateDiff oldText newText = Some diff
    ∧ pairing_ok diff
    ∧ core <$> diff = flat_map emit_group (group_runs ops)
    ∧ core <$> filter (λ l, type l = unchanged ∨ type l = tag removed) diff
      = old_line_of <$>
          filter (λ op, op_type op = unchanged ∨ op_type op = tag removed) ops
    ∧ core <$> filter (λ l, type l = unchanged ∨ type l = tag added) diff
      = new_line_of <$>
          filter (λ op, op_type op = unchanged ∨ op_type op = tag added) ops
    ∧ core <$> filter (λ l, type l = unchanged) diff
      = unchanged_line <$> filter (λ op, op_type op = unchanged) ops.
Proof.
  intros oldLines newLines.
  destruct (calculateDiff_pipeline oldText newText)
    as (table & eops & diff & Htable & Hwalk & _ & Hdiff & Hinv & _).
  exists table, eops, diff. intros ops.
  destruct Hinv as (_ & Hcore & Hok).
  rewrite (core_unpaired _ (emit_groups_unpaired _)) in Hcore.
  destruct (group_runs_maximal ops) as (Hcat & Hgok & _).
  destruct (emit_groups_sides _ Hgok) as (Ho & Hn & Hu).
  rewrite <-Hcat in Ho, Hn, Hu.
  split; [done|]. split; [done|]. split; [done|]. split; [done|].
  split; [done|].
  pose proof (filter_core (λ t, t = unchanged ∨ t = tag removed) diff) as H1.
  pose proof (filter_core (λ t, t = unchanged ∨ t = tag added) diff) as H2.
  pose proof (filter_core (λ t, t = unchanged) diff) as H3.
  cbv beta in H1, H2, H3. rewrite H1, H2, H3, Hcore. done.
Qed.

Lemma calculateDiff_counts oldText newText :
  let oldLines := split "010" (or_empty oldText) in
  let newLines := split "010" (or_empty newText) in
  ∃ diff k,
    calculateDiff oldText newText = Some diff
    ∧ is_lcs_length oldLines newLines k
    ∧ length (filter (λ l, type l = unchanged) diff) = k
    ∧ k + length (filter (λ l, type l = tag removed) diff) = length oldLines
    ∧ k + length (filter (λ l, type l = tag added) diff) = length newLines.
Proof.
  intros oldLines newLines.
  destruct (calculateDiff_ops oldText newText)
    as (table & eops & diff & Htable & Hwalk & Hdiff & _ & _ & _ & _ & Hu).
  fold oldLines newLines in Htable, Hwalk.
  assert (∀ i j, i ≤ length oldLines → j ≤ length newLines →
            cell_ok oldLines newLines table i j) as Hcells.
  { intros i j. by apply buildLCSTable_cells. }
  pose proof (walk_equal_count table oldLines newLines Hcells _ _ _ Hwalk
                ltac:(lia) ltac:(lia)) as Hcount.
  destruct (Hcells (length oldLines) (length newLines)) as (v & Hv & Hlcs);
    [lia..|].
  rewrite !firstn_all in Hlcs.
  assert (v = equal_count eops) as -> by congruence.
  assert (length (filter (λ l, type l = unchanged) diff) = equal_count eops)
    as Hunch.
  { rewrite <-(length_fmap core), Hu, length_fmap.
    by rewrite makeLineOp_unchanged_count, equal_count_reverse. }
  destruct (calculateDiff_lines oldText newText) as (diff' & Hdiff' & Ho & Hn).
  assert (diff' = diff) as -> by congruence.
  apply (f_equal length) in Ho, Hn. unfold old_lines, new_lines in Ho, Hn.
  rewrite length_fmap in Ho, Hn.
  rewrite filter_length_or in Ho by (intros l; congruence).
  rewrite filter_length_or in Hn by (intros l; congruence).
  exists diff, (equal_count eops). fold oldLines newLines in Ho, Hn.
  split; [done|]. split; [done|]. split; [done|]. split; lia.
Qed.

(** X1. The diff is a shortest one: the unchanged lines of the diff of two
    texts are as many as a longest common subsequence of their lines has
    elements, and the removed and the added lines are the other lines of
    the old and of the new text. *)
Theorem calculateDiff_minimal (A B : string) :
  ∃ diff k,
    calculateDiff (Some A) (Some B) = Some diff
    ∧ is_lcs_length (split "010" A) (split "010" B) k
    ∧ length (filter (λ l, type l = unchanged) diff) = k
    ∧ k + length (filter (λ l, type l = tag removed) diff)
      = length (split "010" A)
    ∧ k + length (filter (λ l, type l = tag added) diff)
      = length (split "010" B).
Proof. apply (calculateDiff_counts (Some A) (Some B)). Qed.

Lemma diff_stats_counts diff :
  diff_stats diff
  = mkDiffStats (length (filter (λ l, type l = tag added) diff))
      (length (filter (λ l, type l = tag removed) diff)).
Proof.
  unfold diff_stats.
  assert (∀ acc, foldl stats_step acc diff
            = mkDiffStats
                (stat_added acc
                 + length (filter (λ l, type l = tag added) diff))
                (stat_removed acc
                 + length (filter (λ l, type l = tag removed) diff))) as Hgen.
  { induction diff as [|d diff IH]; intros [a r]; simpl.
    - f_equal; lia.
    - rewrite IH. unfold stats_step.
      destruct (decide (type d = tag added)) as [Ha|Ha];
        [|destruct (decide (type d = tag removed)) as [Hr|Hr]].
      + rewrite (filter_cons_True (λ l, type l = tag added)) by done.
        rewrite (filter_cons_False (λ l, type l = tag removed)) by congruence.
        simpl. f_equal; lia.
      + rewrite (filter_cons_False (λ l, type l = tag added)) by done.
        rewrite (filter_cons_True (λ l, type l = tag removed)) by done.
        simpl. f_equal; lia.
      + rewrite (filter_cons_False (λ l, type l = tag added)) by done.
        rewrite (filter_cons_False (λ l, type l = tag removed)) by done.
        done. }
  by rewrite Hgen.
Qed.

(** X2. The counters in the header of a comparison: with [k] the length
    of a longest common subsequence of the lines of the two texts, the
    added counter is the number of lines of the new text less [k] and the
    removed counter the number of lines of the old text less [k].  A file
    that is absent on one side counts as the empty text. *)
Theorem diff_stats_lcs (oldText newText : option string) :
  ∃ diff k,
    calculateDiff oldText newText = Some diff
    ∧ is_lcs_length (split "010" (or_empty oldText))
        (split "010" (or_empty newText)) k
    ∧ k + stat_added (diff_stats diff)
      = length (split "010" (or_empty newText))
    ∧ k + stat_removed (diff_stats diff)
      = length (split "010" (or_empty oldText)).
Proof.
  destruct (calculateDiff_counts oldText newText)
    as (diff & k & Hdiff & Hk & _ & Hr & Ha).
  exists diff, k. rewrite diff_stats_counts. simpl. done.
Qed.

(** ** Line numbers *)

Lemma filter_fmap_iff {X Y : Type} (f : X → Y) (P : Y → Prop) (Q : X → Prop)
    `{∀ y, Decision (P y)} `{∀ x, Decision (Q x)} (l : list X) :
  (∀ x, P (f x) ↔ Q x) → filter P (f <$> l) = f <$> filter Q l.
Proof.
  intros HPQ. induction l as [|x l IH]; [done|]. rewrite fmap_cons.
  destruct (decide (Q x)) as [Hx|Hx].
  - rewrite (filter_cons_True Q) by done.
    rewrite filter_cons_True by (by apply HPQ). rewrite fmap_cons. by f_equal.
  - rewrite (filter_cons_False Q) by done.
    by rewrite filter_cons_False by (by rewrite HPQ).
Qed.

Section Walk_numbers.
Context {A : Type} `{EqDecision A}.
Variables (dp : list (list nat)) (oldArr newArr : list A).

Lemma imap_take_at_pred {Y : Type} (f : nat → A → Y) (arr : list A) i x :
  at_pred arr i = Some x →
  imap f (take i arr) = imap f (take (i - 1) arr) ++ [f (i - 1) x].
Proof.
  intros Hx. rewrite (take_at_pred _ _ _ Hx), imap_app. simpl.
  apply at_pred_Some in Hx as [Hi Hx]. apply lookup_lt_Some in Hx.
  rewrite length_take, Nat.add_0_r. do 3 f_equal. lia.
Qed.

Lemma walk_numbered i j ops :
  walk dp oldArr newArr i j ops →
  reverse ((λ e, (oldIndex e, op_value e)) <$>
             filter (λ e, kind e ≠ added) ops)
  = imap (λ k x, (Some (S k), x)) (take i oldArr)
  ∧ reverse ((λ e, (newIndex e, op_value e)) <$>
               filter (λ e, kind e ≠ removed) ops)
    = imap (λ k x, (Some (S k), x)) (take j newArr).
Proof.
  induction 1 as [|i j x ops He Hx _ [IHo IHn]|i j y ops Hne Hp Hy _ [IHo IHn]
                  |i j x ops Hij Hne Hnp Hx _ [IHo IHn]].
  - done.
  - destruct He as (Hi & Hj & x' & Hx' & Hy').
    assert (x' = x) as -> by congruence.
    rewrite !filter_cons_True by done. rewrite !fmap_cons, !reverse_cons.
    rewrite IHo, IHn. simpl.
    rewrite (imap_take_at_pred _ oldArr i x Hx),
      (imap_take_at_pred _ newArr j x Hy').
    by replace (S (i - 1)) with i by lia; replace (S (j - 1)) with j by lia.
  - rewrite filter_cons_False by (simpl; naive_solver).
    rewrite filter_cons_True by done. rewrite fmap_cons, reverse_cons.
    rewrite IHo, IHn. simpl. rewrite (imap_take_at_pred _ newArr j y Hy).
    destruct Hp as [Hj _]. by replace (S (j - 1)) with j by lia.
  - rewrite filter_cons_True by done.
    rewrite (filter_cons_False _ _ ops) by (simpl; naive_solver).
    rewrite fmap_cons, reverse_cons.
    rewrite IHo, IHn. simpl. rewrite (imap_take_at_pred _ oldArr i x Hx).
    apply at_pred_Some in Hx as [Hi _]. by replace (S (i - 1)) with i by lia.
Qed.
End Walk_numbers.

Lemma old_line_of_makeLineOp (e : EditOp (A := string)) :
  kind e ≠ added →
  (oldLine (old_line_of (apply_makeOp makeLineOp e)),
   content (old_line_of (apply_makeOp makeLineOp e)))
  = (oldIndex e, op_value e).
Proof. by destruct e as [[] ???]. Qed.

Lemma new_line_of_makeLineOp (e : EditOp (A := string)) :
  kind e ≠ removed →
  (newLine (new_line_of (apply_makeOp makeLineOp e)),
   content (new_line_of (apply_makeOp makeLineOp e)))
  = (newIndex e, op_value e).
Proof. by destruct e as [[] ???]. Qed.

Lemma emit_groups_kinds groups :
  Forall group_ok groups →
  Forall (λ l, (type l = unchanged ∨ type l = tag removed
                ∨ type l = tag added)
               ∧ (type l = tag added → oldLine l = None)
               ∧ (type l = tag removed → newLine l = None))
    (flat_map emit_group groups).
Proof.
  intros Hok. apply Forall_forall. intros l Hl.
  apply list_elem_of_In, in_flat_map in Hl as (g & Hg & Hl).
  apply list_elem_of_In in Hl. destruct g as [op|run]; simpl in Hl.
  - apply list_elem_of_singleton in Hl as ->. simpl.
    split; [by left|]. split; intros; simplify_eq.
  - apply list_elem_of_In, in_flat_map in Hl as (k & _ & Hl).
    unfold emit_at in Hl. apply in_app_or in Hl as [Hl|Hl].
    + destruct (_ !! k); simpl in Hl; [|done].
      destruct Hl as [<-|[]]. simpl. split; [auto|]. split; intros; simplify_eq.
      done.
    + destruct (_ !! k); simpl in Hl; [|done].
      destruct Hl as [<-|[]]. simpl. split; [auto|]. split; intros; simplify_eq.
      done.
Qed.

(** X3. Line numbers: in the diff of two texts the lines of the old side
    (unchanged and removed), in order, carry the old line numbers 1, 2, ...
    and the contents of the lines of the old text; the lines of the new
    side (unchanged and added) carry the new line numbers 1, 2, ... and
    the contents of the lines of the new text.  An added line has no old
    number and a removed line no new one, and there are no lines of
    another kind. *)
Theorem calculateDiff_line_numbers (A B : string) :
  ∃ diff,
    calculateDiff (Some A) (Some B) = Some diff
    ∧ (λ l, (oldLine l, content l)) <$>
        filter (λ l, type l = unchanged ∨ type l = tag removed) diff
      = imap (λ k s, (Some (S k), s)) (split "010" A)
    ∧ (λ l, (newLine l, content l)) <$>
        filter (λ l, type l = unchanged ∨ type l = tag added) diff
      = imap (λ k s, (Some (S k), s)) (split "010" B)
    ∧ Forall (λ l, (type l = unchanged ∨ type l = tag removed
                    ∨ type l = tag added)
                   ∧ (type l = tag added → oldLine l = None)
                   ∧ (type l = tag removed → newLine l = None)) diff.
Proof.
  destruct (calculateDiff_ops (Some A) (Some B))
    as (table & eops & diff & Htable & Hwalk & Hdiff & _ & Hcore & Ho & Hn & _).
  simpl in *. exists diff. split; [done|].
  destruct (walk_numbered _ _ _ _ _ _ Hwalk) as [Hwo Hwn].
  rewrite !firstn_all in Hwo, Hwn.
  rewrite <-fmap_reverse, <-filter_reverse in Hwo, Hwn.
  split; [|split].
  - rewrite <-Hwo.
    change (λ l, (oldLine l, content l))
      with ((λ l, (oldLine l, content l)) ∘ core).
    rewrite list_fmap_compose, Ho.
    rewrite (filter_fmap_iff (apply_makeOp makeLineOp) _
               (λ e, kind e ≠ added)) by apply makeLineOp_old.
    rewrite <-!list_fmap_compose. apply list_fmap_ext. intros k e He. simpl.
    apply old_line_of_makeLineOp.
    by apply list_elem_of_lookup_2, list_elem_of_filter in He as [? _].
  - rewrite <-Hwn.
    change (λ l, (newLine l, content l))
      with ((λ l, (newLine l, content l)) ∘ core).
    rewrite list_fmap_compose, Hn.
    rewrite (filter_fmap_iff (apply_makeOp makeLineOp) _
               (λ e, kind e ≠ removed)) by apply makeLineOp_new.
    rewrite <-!list_fmap_compose. apply list_fmap_ext. intros k e He. simpl.
    apply new_line_of_makeLineOp.
    by apply list_elem_of_lookup_2, list_elem_of_filter in He as [? _].
  - destruct (group_runs_maximal
                (apply_makeOp makeLineOp <$> reverse eops)) as (_ & Hok & _).
    pose proof (emit_groups_kinds _ Hok) as Hk. rewrite <-Hcore in Hk.
    apply Forall_fmap in Hk. eapply Forall_impl; [exact Hk|].
    by intros [].
Qed.

(** ** Identical texts *)

Lemma walk_diag {A : Type} `{EqDecision A} dp (arr : list A) i :
  i ≤ length arr → walk dp arr arr i i (diag_ops arr i).
Proof.
  induction i as [|k IH]; intros Hi; simpl; [constructor|].
  destruct (lookup_lt_is_Some_2 arr k) as [x Hx]; [lia|]. rewrite Hx.
  apply walk_equal.
  - split; [lia|]. split; [lia|]. by exists x.
  - done.
  - simpl. rewrite Nat.sub_0_r. apply IH. lia.
Qed.

Lemma diag_ops_reverse {A : Type} (arr : list A) i :
  i ≤ length arr →
  reverse (diag_ops arr i)
  = imap (λ k x, mkEditOp equal (Some (S k)) (Some (S k)) x) (take i arr).
Proof.
  induction i as [|k IH]; intros Hi; simpl; [done|].
  destruct (lookup_lt_is_Some_2 arr k) as [x Hx]; [lia|]. rewrite Hx.
  rewrite reverse_cons, IH by lia.
  rewrite (take_S_r _ _ _ Hx), imap_app. simpl.
  rewrite length_take, Nat.add_0_r. do 4 f_equal; lia.
Qed.

Lemma group_runs_unchanged ops :
  Forall (λ op, op_type op = unchanged) ops →
  flat_map emit_group (group_runs ops) = unchanged_line <$> ops.
Proof.
  induction 1 as [|op ops Hop _ IH]; [done|].
  simpl. rewrite decide_True by done. simpl. by rewrite IH.
Qed.

(** Only removed and added lines are ever paired. *)
Lemma paired_line_kind diff k l p :
  pairing_ok diff → diff !! k = Some l → pairedWith l = Some p →
  type l = tag removed ∨ type l = tag added.
Proof.
  intros Hok Hl Hp. specialize (Hok k l Hl). unfold paired_at in Hok.
  rewrite Hp in Hok.
  destruct Hok as (? & ? & _ & _ & _ & _ & _ & [(? & _)|(? & _)]); auto.
Qed.

Lemma unpaired_of_kind diff k l :
  pairing_ok diff → diff !! k = Some l →
  ¬ (type l = tag removed ∨ type l = tag added) →
  pairedWith l = None ∧ segments l = None.
Proof.
  intros Hok Hl Hkind. destruct (pairedWith l) as [p|] eqn:Hp.
  - destruct Hkind. by eapply paired_line_kind.
  - split; [done|]. specialize (Hok k l Hl). unfold paired_at in Hok.
    by rewrite Hp in Hok.
Qed.

Lemma pairing_unchanged diff diff0 :
  pairing_ok diff → core <$> diff = diff0 →
  Forall (λ l, type l = unchanged) diff0 → diff = diff0.
Proof.
  intros Hok <- Hall. symmetry. apply core_unpaired.
  apply Forall_lookup. intros k l Hl.
  eapply unpaired_of_kind; [done..|].
  apply Forall_fmap in Hall. rewrite Forall_lookup in Hall.
  specialize (Hall k l Hl). simpl in Hall. intros [?|?]; congruence.
Qed.

(** X4. The diff of a text with itself: one unchanged line for each line
    of the text, in order, with the same old and new line number, and
    neither pairing nor segments. *)
Theorem calculateDiff_identical (A : string) :
  calculateDiff (Some A) (Some A)
  = Some (imap (λ k s, mkDiffLine unchanged (Some (S k)) (Some (S k)) s
                         None None)
            (split "010" A)).
Proof.
  destruct (calculateDiff_ops (Some A) (Some A))
    as (table & eops & diff & _ & Hwalk & Hdiff & Hok & Hcore & _).
  simpl in *. rewrite Hdiff. f_equal.
  assert (eops = diag_ops (split "010" A) (length (split "010" A))) as ->.
  { eapply walk_deterministic; [exact Hwalk|]. by apply walk_diag. }
  rewrite diag_ops_reverse, firstn_all, fmap_imap in Hcore by done.
  rewrite group_runs_unchanged in Hcore.
  - rewrite fmap_imap in Hcore. apply (pairing_unchanged _ _ Hok) in Hcore.
    + rewrite Hcore. by apply imap_ext.
    + apply Forall_lookup. intros k l Hl.
      apply list_lookup_imap_Some in Hl as (s & _ & ->). done.
  - apply Forall_lookup. intros k l Hl.
    apply list_lookup_imap_Some in Hl as (s & _ & ->). done.
Qed.

(** X5. Pairing in the diff: a line is paired only with a line next to
    it, only removed and added lines are paired, and an unpaired line has
    no segments. *)
Theorem pairing_adjacent (oldText newText : option string)
    (diff : list DiffLine) (k : nat) (line : DiffLine) :
  calculateDiff oldText newText = Some diff →
  diff !! k = Some line →
  match pairedWith line with
  | Some p => (p = S k ∨ k = S p)
              ∧ (type line = tag removed ∨ type line = tag added)
  | None => segments line = None
  end.
Proof.
  intros Hdiff Hline.
  destruct (calculateDiff_ops oldText newText)
    as (table & eops & diff' & _ & _ & Hdiff' & Hok & _).
  assert (diff' = diff) as -> by congruence.
  pose proof (Hok k line Hline) as Hp. unfold paired_at in Hp.
  destruct (pairedWith line) as [p|] eqn:Hpw; [|done].
  split.
  - by destruct Hp as (? & ? & ? & _).
  - by eapply paired_line_kind.
Qed.

Lemma pairing_adjacent_witness :
  calculateDiff (Some example_old) (Some example_new) = Some example_diff
  ∧ example_diff !! 1 = Some example_bar
  ∧ match pairedWith example_bar with
    | Some p => (p = 2 ∨ 1 = S p)
                ∧ (type example_bar = tag removed
                   ∨ type example_bar = tag added)
    | None => segments example_bar = None
    end.
Proof.
  split; [vm_compute; reflexivity|]. split; [reflexivity|].
  apply (pairing_adjacent (Some example_old) (Some example_new)
           example_diff 1 example_bar); [vm_compute; reflexivity|reflexivity].
Defined.

(** ** Word differ: nothing is lost *)

Lemma concat_strings_app l1 l2 :
  concat_strings (l1 ++ l2) = concat_strings l1 +:+ concat_strings l2.
Proof.
  unfold concat_strings. induction l1 as [|s l1 IH]; [done|].
  simpl. by rewrite IH, append_assoc.
Qed.

Lemma concat_strings_filter l :
  concat_strings (filter (λ t, t ≠ EmptyString) l) = concat_strings l.
Proof.
  induction l as [|s l IH]; [done|].
  destruct (decide (s = EmptyString)) as [->|Hs].
  - by rewrite filter_cons_False by naive_solver.
  - rewrite filter_cons_True by done. unfold concat_strings in *. simpl.
    by rewrite IH.
Qed.

Lemma split_tokens_concat s :
  (∀ prev cur, concat_strings (split_tokens prev cur s) = cur +:+ s)
  ∧ (∀ ws, concat_strings (split_ws ws s) = ws +:+ s).
Proof.
  induction s as [|c r [IHt IHw]]; split.
  - intros prev cur. unfold concat_strings. simpl. done.
  - intros ws. unfold concat_strings. simpl. by rewrite !append_nil_r.
  - intros prev cur. simpl. destruct (is_space c).
    { change (concat_strings (cur :: ?l)) with (cur +:+ concat_strings l).
      by rewrite IHw. }
    destruct (word_boundary prev (Some c)); [|by rewrite IHt, append_assoc].
    case_bool_decide as Hcur.
    + subst cur. by rewrite IHt.
    + change (concat_strings (cur :: EmptyString :: ?l))
        with (cur +:+ concat_strings l).
      by rewrite IHt.
  - intros ws. simpl. destruct (is_space c).
    + by rewrite IHw, append_assoc.
    + change (concat_strings (ws :: ?l)) with (ws +:+ concat_strings l).
      by rewrite IHt.
Qed.

Lemma tokenize_concat s : concat_strings (tokenize s) = s.
Proof.
  unfold tokenize. rewrite concat_strings_filter.
  by rewrite (proj1 (split_tokens_concat s)).
Qed.

Lemma tokenize_nonempty s : Forall (λ t, t ≠ EmptyString) (tokenize s).
Proof.
  unfold tokenize. apply Forall_forall. intros t Ht.
  by apply list_elem_of_filter in Ht as [? _].
Qed.

Lemma getWordDiff_sides oldStr newStr :
  ∃ raw,
    getWordDiff oldStr newStr = Some raw
    ∧ value <$> filter (λ s, seg_type s = tag equal
                              ∨ seg_type s = tag removed) raw
      = tokenize oldStr
    ∧ value <$> filter (λ s, seg_type s = tag equal
                              ∨ seg_type s = tag added) raw
      = tokenize newStr.
Proof.
  unfold getWordDiff.
  destruct (buildLCSTable_inv (tokenize oldStr) (tokenize newStr))
    as (dp & Hdp & _).
  rewrite Hdp. simpl.
  set (mk := λ (type : OpType) (_ _ : option nat) (value : string),
               {| value := value; seg_type := type |}).
  destruct (backtrackLCS_walk dp (tokenize oldStr) (tokenize newStr) mk)
    as (ops & _ & Hrun & Hold & Hnew).
  { intros i j ??. by eapply buildLCSTable_cells_Some. }
  eexists. split; [exact Hrun|]. unfold old_side, new_side in Hold, Hnew.
  split.
  - rewrite <-Hold.
    rewrite (filter_fmap_iff (apply_makeOp mk) _ (λ e, kind e ≠ added)).
    + by rewrite <-list_fmap_compose.
    + intros [[] ???]; unfold apply_makeOp; simpl; naive_solver.
  - rewrite <-Hnew.
    rewrite (filter_fmap_iff (apply_makeOp mk) _ (λ e, kind e ≠ removed)).
    + by rewrite <-list_fmap_compose.
    + intros [[] ???]; unfold apply_makeOp; simpl; naive_solver.
Qed.

Lemma block_value_concat block :
  block_value block = concat_strings (value <$> block).
Proof.
  unfold block_value, concat_strings.
  induction block as [|s block IH]; [done|]. simpl. by rewrite IH.
Qed.

Lemma merges_filter_concat (Q : Tag → Prop) `{∀ t, Decision (Q t)} raw segs :
  merges raw segs →
  concat_strings (value <$> filter (λ s, Q (seg_type s)) segs)
  = concat_strings (value <$> filter (λ s, Q (seg_type s)) raw).
Proof.
  intros (blocks & -> & Hblocks).
  induction Hblocks as [|block s blocks segs (Hne & Hty & Hval) _ IH];
    [done|].
  rewrite concat_cons, filter_app, fmap_app, concat_strings_app, <-IH.
  destruct (decide (Q (seg_type s))) as [Hs|Hs].
  - rewrite filter_cons_True by done. rewrite fmap_cons.
    change (concat_strings (value s :: ?l)) with (value s +:+ concat_strings l).
    f_equal. rewrite Hval, block_value_concat. do 2 f_equal.
    symmetry. apply filter_all.
    eapply Forall_impl; [exact Hty|]. intros r ->. done.
  - rewrite filter_cons_False by done.
    rewrite (filter_none _ block); [done|].
    eapply Forall_impl; [exact Hty|]. intros r ->. done.
Qed.

(** X6. The word diff loses nothing: the values of the equal and removed
    segments, in order, make up the old string, those of the equal and
    added segments the new string; this holds of the raw segments, which
    are the tokens, and of the coalesced ones. *)
Theorem getWordDiff_round_trip (oldStr newStr : string) :
  ∃ raw,
    getWordDiff oldStr newStr = Some raw
    ∧ value <$> filter (λ s, seg_type s = tag equal
                              ∨ seg_type s = tag removed) raw
      = tokenize oldStr
    ∧ value <$> filter (λ s, seg_type s = tag equal
                              ∨ seg_type s = tag added) raw
      = tokenize newStr
    ∧ concat_strings (tokenize oldStr) = oldStr
    ∧ concat_strings (tokenize newStr) = newStr
    ∧ concat_strings
        (value <$> filter (λ s, seg_type s = tag equal
                                 ∨ seg_type s = tag removed) (coalesce raw))
      = oldStr
    ∧ concat_strings
        (value <$> filter (λ s, seg_type s = tag equal
                                 ∨ seg_type s = tag added) (coalesce raw))
      = newStr.
Proof.
  destruct (getWordDiff_sides oldStr newStr) as (raw & Hraw & Ho & Hn).
  exists raw. split; [done|]. split; [done|]. split; [done|].
  split; [apply tokenize_concat|]. split; [apply tokenize_concat|].
  destruct (coalesce_spec raw) as [Hm _].
  pose proof (merges_filter_concat (λ t, t = tag equal ∨ t = tag removed)
                raw _ Hm) as H1.
  pose proof (merges_filter_concat (λ t, t = tag equal ∨ t = tag added)
                raw _ Hm) as H2.
  cbv beta in H1, H2. rewrite H1, H2, Ho, Hn.
  split; apply tokenize_concat.
Qed.

(** ** Rendering *)

Lemma rendered_text_segments line segs :
  rendered_text (Spans (render_segment line <$> segs))
  = concat_strings
      (value <$> filter (λ s, seg_type s = tag equal
                               ∨ seg_type s = type line) segs).
Proof.
  induction segs as [|s segs IH]; [done|]. rewrite fmap_cons.
  change (rendered_text (Spans (?sp :: ?l)))
    with (from_option span_text EmptyString sp +:+ rendered_text (Spans l)).
  rewrite IH. unfold render_segment.
  destruct (decide (seg_type s = tag equal)) as [He|He].
  { rewrite filter_cons_True by (by left). done. }
  destruct (decide (seg_type s ≠ type line)) as [Hne|Heq].
  - rewrite filter_cons_False by (by intros [|]). done.
  - rewrite filter_cons_True; [done|]. right.
    by destruct (decide (seg_type s = type line)).
Qed.

(** X7. What a line shows: for every line of a diff the text that
    [renderContent] produces, with the segments of the other line left
    out, is the content of the line, paired or not. *)
Theorem renderContent_shows_content (oldText newText : option string)
    (diff : list DiffLine) (k : nat) (line : DiffLine) :
  calculateDiff oldText newText = Some diff →
  diff !! k = Some line →
  rendered_text (renderContent line) = content line.
Proof.
  intros Hdiff Hline.
  destruct (calculateDiff_ops oldText newText)
    as (table & eops & diff' & _ & _ & Hdiff' & Hok & _).
  assert (diff' = diff) as -> by congruence.
  pose proof (Hok k line Hline) as Hp. unfold paired_at in Hp.
  unfold renderContent.
  destruct (pairedWith line) as [p|]; [|by rewrite Hp].
  destruct Hp as (partner & segs & _ & _ & _ & -> & _ & Hkinds).
  rewrite rendered_text_segments.
  destruct Hkinds as [(Ht & _ & raw & Hraw & ->)|(Ht & _ & raw & Hraw & ->)];
    rewrite Ht.
  - destruct (getWordDiff_sides (content line) (content partner))
      as (raw' & Hraw' & Ho & _).
    assert (raw' = raw) as -> by congruence.
    destruct (coalesce_spec raw) as [Hm _].
    pose proof (merges_filter_concat (λ t, t = tag equal ∨ t = tag removed)
                  raw _ Hm) as H1.
    cbv beta in H1. rewrite H1, Ho. apply tokenize_concat.
  - destruct (getWordDiff_sides (content partner) (content line))
      as (raw' & Hraw' & _ & Hn).
    assert (raw' = raw) as -> by congruence.
    destruct (coalesce_spec raw) as [Hm _].
    pose proof (merges_filter_concat (λ t, t = tag equal ∨ t = tag added)
                  raw _ Hm) as H1.
    cbv beta in H1. rewrite H1, Hn. apply tokenize_concat.
Qed.

Lemma renderContent_shows_content_witness :
  calculateDiff (Some example_old) (Some example_new) = Some example_diff
  ∧ example_diff !! 1 = Some example_bar
  ∧ rendered_text (renderContent example_bar) = content example_bar.
Proof.
  split; [vm_compute; reflexivity|]. split; [reflexivity|].
  apply (renderContent_shows_content (Some example_old) (Some example_new)
           example_diff 1 example_bar); [vm_compute; reflexivity|reflexivity].
Defined.

(** ** Folding *)

(** X8. Folding a chunk: a chunk is folded only when it is unchanged,
    not expanded and longer than [2 * CONTEXT_LINES + 2] lines; its lines
    are then the [CONTEXT_LINES] lines shown first, the folded lines and the
    [CONTEXT_LINES] lines shown last, and the number on the button is the
    number of folded lines, which is more than 2. *)
Theorem ChunkBlock_folded (chunk : Chunk) (isExpanded : bool)
    (startLines endLines : list DiffLine) (foldedCount : nat) :
  ChunkBlock chunk isExpanded = Folded startLines foldedCount endLines →
  isExpanded = false
  ∧ chunk_type chunk = unchanged
  ∧ CONTEXT_LINES * 2 + 2 < length (lines chunk)
  ∧ length startLines = CONTEXT_LINES
  ∧ length endLines = CONTEXT_LINES
  ∧ 2 < foldedCount
  ∧ ∃ hidden, length hidden = foldedCount
              ∧ lines chunk = startLines ++ hidden ++ endLines.
Proof.
  unfold ChunkBlock, slice_last, CONTEXT_LINES.
  destruct isExpanded; [by rewrite orb_true_r|]. rewrite orb_false_r.
  destruct (bool_decide (chunk_type chunk = unchanged)) eqn:Hu; [|done].
  destruct (bool_decide (3 * 2 + 2 < length (lines chunk))) eqn:Hlen; [|done].
  simpl. intros [= <- <- <-].
  apply bool_decide_eq_true in Hu, Hlen. simpl in Hlen.
  split; [done|]. split; [done|]. split; [simpl; lia|].
  split; [rewrite length_take; lia|].
  split; [rewrite length_drop; lia|]. split; [lia|].
  exists (take (length (lines chunk) - 6) (drop 3 (lines chunk))).
  split; [rewrite length_take, length_drop; lia|].
  rewrite <-(take_drop 3 (lines chunk)) at 1. f_equal.
  rewrite <-(take_drop (length (lines chunk) - 6) (drop 3 (lines chunk))) at 1.
  f_equal. rewrite drop_drop. f_equal. lia.
Qed.

Lemma ChunkBlock_folded_witness :
  ChunkBlock example_chunk false
  = Folded (replicate 3 example_foo) 3 (replicate 3 example_foo)
  ∧ false = false
  ∧ chunk_type example_chunk = unchanged
  ∧ CONTEXT_LINES * 2 + 2 < length (lines example_chunk)
  ∧ length (replicate 3 example_foo) = CONTEXT_LINES
  ∧ length (replicate 3 example_foo) = CONTEXT_LINES
  ∧ 2 < 3
  ∧ ∃ hidden, length hidden = 3
              ∧ lines example_chunk
                = replicate 3 example_foo ++ hidden ++ replicate 3 example_foo.
Proof.
  split; [reflexivity|].
  apply (ChunkBlock_folded example_chunk false); reflexivity.
Defined.

(** X9. Folding never hides a change: of the chunks of a diff, one that
    holds a removed or an added line is shown in full, expanded or not;
    and every chunk is shown in full once it is expanded. *)
Theorem changes_never_folded (diff : list DiffLine) :
  ∃ chunks,
    chunkifyDiff diff = Some chunks
    ∧ ∀ chunk isExpanded,
        chunk ∈ chunks →
        (isExpanded = true ∨ ∃ l, l ∈ lines chunk ∧ type l ≠ unchanged) →
        ChunkBlock chunk isExpanded = ShowAll (lines chunk).
Proof.
  destruct (chunkifyDiff_chunks diff) as (chunks & Hrun & _ & Hall).
  exists chunks. split; [done|]. intros chunk isExpanded Hin Hcase.
  unfold ChunkBlock. destruct Hcase as [->|(l & Hl & Hne)].
  { by rewrite orb_true_r. }
  rewrite Forall_forall in Hall. destruct (Hall chunk Hin) as [_ Hlines].
  rewrite Forall_forall in Hlines.
  rewrite bool_decide_eq_false_2; [done|].
  intros Hu. apply Hne. by apply (Hlines l Hl).
Qed.

(** ** Chunks are maximal *)

Lemma adjacent_snoc {X : Type} (R : X → X → Prop) (l : list X) x :
  adjacent R (l ++ [x])
  ↔ adjacent R l ∧ ∀ y, last l = Some y → R y x.
Proof.
  split.
  - intros Hn. split.
    + intros k a b H1 H2. apply (Hn k); by apply lookup_app_l_Some.
    + intros y Hy. rewrite last_lookup in Hy.
      destruct l as [|y0 l _] using rev_ind; [done|].
      rewrite length_app in Hy. simpl in Hy.
      replace (pred (length l + 1)) with (length l) in Hy by lia.
      apply (Hn (length l)).
      * by apply lookup_app_l_Some.
      * apply list_lookup_middle. rewrite length_app. simpl. lia.
  - intros [Hn Hlast] k a b H1 H2.
    destruct (decide (S k < length l)) as [Hk|Hk].
    + rewrite lookup_app_l in H1, H2 by lia. by apply (Hn k).
    + assert (S k = length l) as Hk'.
      { apply lookup_lt_Some in H2. rewrite length_app in H2. simpl in H2. lia. }
      rewrite lookup_app_l in H1 by lia.
      rewrite lookup_app_r in H2 by lia.
      rewrite Hk', Nat.sub_diag in H2. simplify_eq/=.
      apply Hlast. rewrite last_lookup. by rewrite <-Hk'.
Qed.

Lemma chunk_step_inv_alt diff i st :
  i < length diff → chunk_inv_alt st →
  ∃ st', chunk_step diff i st = Some st' ∧ chunk_inv_alt st'.
Proof.
  intros Hi [Hadj Hhead]. destruct st as [chunks cur]. simpl in *.
  destruct (lookup_lt_is_Some_2 diff i Hi) as [d Hd].
  unfold chunk_step, chunk_inv_alt. rewrite Hd. simpl.
  apply adjacent_snoc in Hadj as [Hadj Hlast].
  apply Forall_app in Hhead as [Hhead Hcur].
  apply Forall_singleton in Hcur as (l & Hl & Hty).
  destruct (_ || _) eqn:Hcond; eexists; (split; [done|]); simpl.
  - split.
    + apply adjacent_snoc. split; [done|]. intros y Hy. apply (Hlast y Hy).
    + apply Forall_app. split; [done|]. apply Forall_singleton.
      exists l. simpl. split; [|done]. by destruct (lines cur).
  - apply orb_false_elim in Hcond as [H1%bool_decide_eq_false H2].
    apply andb_false_iff in H2.
    split.
    + apply adjacent_snoc. split.
      * apply adjacent_snoc. by split.
      * intros y. rewrite last_snoc. intros [= <-]. unfold alternate. simpl.
        destruct (decide (type d = unchanged)) as [Hd1|Hd1];
          destruct (decide (chunk_type cur = unchanged)) as [Hc1|Hc1];
          destruct H2 as [H2%bool_decide_eq_false|H2%bool_decide_eq_false];
          split; intros; try done; try congruence.
    + apply Forall_app. split.
      * apply Forall_app. split; [done|]. apply Forall_singleton. by exists l.
      * apply Forall_singleton. by exists d.
Qed.

(** X10. The chunks are maximal: of two neighbouring chunks exactly one is
    unchanged, so no two could be merged; and the type of a chunk is the
    type of its first line. *)
Theorem chunkifyDiff_maximal (diff : list DiffLine) :
  ∃ chunks,
    chunkifyDiff diff = Some chunks
    ∧ (∀ k c1 c2, chunks !! k = Some c1 → chunks !! S k = Some c2 →
         (chunk_type c1 = unchanged ↔ chunk_type c2 ≠ unchanged))
    ∧ Forall (λ c, ∃ l, head (lines c) = Some l ∧ chunk_type c = type l)
        chunks.
Proof.
  unfold chunkifyDiff. case_decide as Hlen.
  { exists []. split; [done|]. split; [by intros k ??|done]. }
  destruct (lookup_lt_is_Some_2 diff 0) as [d0 Hd0]; [lia|].
  rewrite Hd0. simpl.
  destruct (for_loop_inv (λ _, chunk_inv_alt) 1 (length diff - 1)
              (chunk_step diff) ([], mkChunk (type d0) [d0]))
    as ([chunks cur] & -> & Hadj & Hhead).
  - split; simpl.
    + by intros [|k] ????.
    + apply Forall_singleton. by exists d0.
  - intros i st Hi. apply chunk_step_inv_alt. lia.
  - simpl in *. exists (chunks ++ [cur]). split; [done|]. split; [|done].
    intros k c1 c2 H1 H2. by apply (Hadj k).
Qed.

(** ** File matcher: which pairs there are *)

Lemma map_get_set_ne {V : Type} k k' (v : V) m :
  k ≠ k' → map_get k (map_set k' v m) = map_get k m.
Proof.
  intros Hne. unfold map_get. induction m as [|[k0 v0] m IH]; simpl.
  - by rewrite filter_cons_False by (simpl; congruence).
  - case_decide as Hk0.
    + subst k0. by rewrite !filter_cons_False by (simpl; congruence).
    + destruct (decide (k0 = k)) as [->|Hk].
      * by rewrite !filter_cons_True by done.
      * rewrite !filter_cons_False by done. apply IH.
Qed.

Lemma map_get_keys {V : Type} k (m : list (string * V)) :
  k ∈ m.*1 ↔ is_Some (map_get k m).
Proof.
  unfold map_get. induction m as [|[k0 v0] m IH].
  - split; [by intros ?%elem_of_nil|by intros [? ?]].
  - rewrite fmap_cons, elem_of_cons. simpl.
    destruct (decide (k0 = k)) as [->|Hk].
    + rewrite filter_cons_True by done. simpl. split; [by eauto|by left].
    + rewrite filter_cons_False by done. rewrite <-IH. naive_solver.
Qed.

Lemma map_has_false_get {V : Type} k (m : list (string * V)) :
  map_has k m = false → map_get k m = None.
Proof.
  unfold map_has. intros Hk%bool_decide_eq_false.
  destruct (map_get k m) eqn:Hg; [|done].
  destruct Hk. apply map_get_keys. by rewrite Hg.
Qed.

Lemma file_map_step_inv files map f :
  file_map_inv files map →
  ∃ map', file_map_step map f = Some map' ∧ file_map_inv (files ++ [f]) map'.
Proof.
  intros Hinv. unfold file_map_step.
  destruct (getFileSlug_total (path f)) as [s0 Hs0]. rewrite Hs0. simpl.
  assert (∃ old, map_get s0
                   (if map_has s0 map then map else map_set s0 [] map)
                 = Some old ∧ old = filter (has_slug s0) files)
    as (old & Hold & ->).
  { destruct (map_has s0 map) eqn:Hhas.
    - destruct (map_has_get _ _ Hhas) as [old Hold]. exists old.
      split; [done|]. rewrite Hinv in Hold. revert Hold.
      destruct (filter _ files); naive_solver.
    - exists []. rewrite map_get_set. split; [done|].
      apply map_has_false_get in Hhas. rewrite Hinv in Hhas. revert Hhas.
      destruct (filter _ files); naive_solver. }
  rewrite Hold. simpl. eexists. split; [done|]. intros s.
  rewrite filter_app. destruct (decide (s = s0)) as [->|Hs].
  - rewrite map_get_set. rewrite (filter_cons_True _ f) by done.
    by destruct (filter _ files).
  - rewrite map_get_set_ne by done.
    rewrite (filter_cons_False _ f) by (unfold has_slug; congruence).
    rewrite filter_nil, app_nil_r.
    destruct (map_has s0 map); [apply Hinv|].
    rewrite map_get_set_ne by done. apply Hinv.
Qed.

Lemma reduce_file_map files : ∀ pre map,
  file_map_inv pre map →
  ∃ map', reduce file_map_step files map = Some map'
          ∧ file_map_inv (pre ++ files) map'.
Proof.
  induction files as [|f files IH]; intros pre map Hinv; simpl.
  - exists map. by rewrite app_nil_r.
  - destruct (file_map_step_inv pre map f Hinv) as (map1 & -> & Hinv1). simpl.
    destruct (IH _ _ Hinv1) as (map' & -> & Hinv').
    exists map'. split; [done|]. by rewrite <-app_assoc in Hinv'.
Qed.

Lemma buildFileMap_inv files :
  ∃ map, buildFileMap files = Some map ∧ file_map_inv files map.
Proof. by apply (reduce_file_map files [] []). Qed.

Lemma file_map_matches files map s :
  file_map_inv files map →
  default [] (map_get s map) = filter (has_slug s) files.
Proof. intros Hinv. rewrite Hinv. by destruct (filter _ files). Qed.

Lemma file_map_keys files map s :
  file_map_inv files map →
  s ∈ map.*1 ↔ ∃ f, f ∈ files ∧ has_slug s f.
Proof.
  intros Hinv. rewrite map_get_keys, Hinv. split.
  - destruct (filter (has_slug s) files) as [|f l] eqn:Hf; [by intros [? ?]|].
    intros _. exists f.
    assert (f ∈ filter (has_slug s) files) as Hin by (rewrite Hf; left).
    apply list_elem_of_filter in Hin as [? ?]. done.
  - intros (f & Hin & Hs).
    assert (f ∈ filter (has_slug s) files) as Hin'
      by (by apply list_elem_of_filter).
    destruct (filter (has_slug s) files); [by apply elem_of_nil in Hin'|done].
Qed.

Lemma new_Set_spec keys :
  NoDup (new_Set keys) ∧ ∀ k, k ∈ new_Set keys ↔ k ∈ keys.
Proof.
  unfold new_Set.
  assert (∀ acc, NoDup acc →
            NoDup (foldl set_add acc keys)
            ∧ ∀ k, k ∈ foldl set_add acc keys ↔ k ∈ acc ∨ k ∈ keys) as Hgen.
  { induction keys as [|x keys IH]; intros acc Hacc; simpl.
    - split; [done|]. intros k. rewrite elem_of_nil. tauto.
    - unfold set_add at 2 4. case_bool_decide as Hx.
      + destruct (IH acc Hacc) as [Hnd Hin]. split; [done|].
        intros k. rewrite Hin, elem_of_cons. naive_solver.
      + destruct (IH (acc ++ [x])) as [Hnd Hin].
        { apply NoDup_app. split; [done|]. split; [|apply NoDup_singleton].
          intros y Hy ->%list_elem_of_singleton. done. }
        split; [done|]. intros k.
        rewrite Hin, elem_of_app, list_elem_of_singleton, elem_of_cons.
        tauto. }
  destruct (Hgen [] (NoDup_nil_2)) as [Hnd Hin]. split; [done|].
  intros k. rewrite Hin, elem_of_nil. tauto.
Qed.

Lemma sort_insert_Permutation {X : Type} (cmp : X → X → Z) x l :
  sort_insert cmp x l ≡ₚ x :: l.
Proof.
  induction l as [|y l IH]; simpl; [done|].
  case_decide; [done|]. rewrite IH. apply Permutation_swap.
Qed.

Lemma sort_Permutation {X : Type} (cmp : X → X → Z) l : sort cmp l ≡ₚ l.
Proof.
  unfold sort.
  assert (∀ acc, foldl (λ sorted x, sort_insert cmp x sorted) acc l
                 ≡ₚ acc ++ l) as Hgen.
  { induction l as [|x l IH]; intros acc; simpl; [by rewrite app_nil_r|].
    rewrite IH, sort_insert_Permutation. simpl.
    apply Permutation_middle. }
  apply Hgen.
Qed.

Lemma make_pair_files v1Files v2Files v1Map v2Map s :
  file_map_inv v1Files v1Map → file_map_inv v2Files v2Map →
  let p := make_pair v1Map v2Map s in
  slug p = s
  ∧ v1 p = head (filter (has_slug s) v1Files)
  ∧ v2 p = head (filter (has_slug s) v2Files)
  ∧ pair_type p = type_of_files (v1 p) (v2 p).
Proof.
  intros H1 H2. cbv zeta. unfold make_pair.
  rewrite (file_map_matches _ _ s H1), (file_map_matches _ _ s H2).
  destruct (filter (has_slug s) v1Files) as [|f1 l1];
    destruct (filter (has_slug s) v2Files) as [|f2 l2];
    repeat case_decide; simpl in *; first [done|lia].
Qed.

(** The pairs before sorting, and the pairs returned. *)
Lemma matchedPairs_pairs cmp v1Files v2Files :
  ∃ pairs,
    matchedPairs cmp v1Files v2Files = Some pairs
    ∧ NoDup (slug <$> pairs)
    ∧ (∀ s, s ∈ slug <$> pairs
            ↔ ∃ f, f ∈ v1Files ++ v2Files ∧ has_slug s f)
    ∧ Forall (λ p, v1 p = head (filter (has_slug (slug p)) v1Files)
                   ∧ v2 p = head (filter (has_slug (slug p)) v2Files)
                   ∧ pair_type p = type_of_files (v1 p) (v2 p)) pairs.
Proof.
  unfold matchedPairs. case_decide as Hempty.
  { destruct Hempty as [->%nil_length_inv ->%nil_length_inv].
    exists []. split; [done|]. split; [constructor|]. split; [|done].
    intros s. simpl. rewrite elem_of_nil. split; [done|].
    by intros (f & ?%elem_of_nil & _). }
  destruct (buildFileMap_inv v1Files) as (v1Map & -> & H1).
  destruct (buildFileMap_inv v2Files) as (v2Map & -> & H2). simpl.
  eexists. split; [done|].
  set (allSlugs := new_Set (v1Map.*1 ++ v2Map.*1)).
  destruct (new_Set_spec (v1Map.*1 ++ v2Map.*1)) as [Hnd Hin].
  fold allSlugs in Hnd, Hin.
  assert (slug <$> (make_pair v1Map v2Map <$> allSlugs) = allSlugs) as Hslugs.
  { rewrite <-list_fmap_compose. rewrite <-(list_fmap_id allSlugs) at 2.
    apply list_fmap_ext. intros k s _. simpl.
    by destruct (make_pair_files v1Files v2Files v1Map v2Map s H1 H2)
      as [-> _]. }
  pose proof (sort_Permutation (λ a b, cmp (slug a) (slug b))
                (make_pair v1Map v2Map <$> allSlugs)) as Hperm.
  split; [|split].
  - rewrite Hperm, Hslugs. done.
  - intros s. rewrite Hperm, Hslugs, Hin, elem_of_app.
    rewrite (file_map_keys _ _ s H1), (file_map_keys _ _ s H2).
    setoid_rewrite elem_of_app. naive_solver.
  - rewrite Hperm. apply Forall_fmap, Forall_forall. intros s _. simpl.
    destruct (make_pair_files v1Files v2Files v1Map v2Map s H1 H2)
      as (Hs & Hv1 & Hv2 & Hty).
    rewrite Hs. done.
Qed.

(** X11. The slugs of the matcher's pairs: whatever the comparison, no
    slug occurs in two pairs, and the slugs that occur are the slugs of the
    files of the two collections. *)
Theorem matchedPairs_slugs (localeCompare : string → string → Z)
    (v1Files v2Files : list SourceFile) :
  ∃ pairs,
    matchedPairs localeCompare v1Files v2Files = Some pairs
    ∧ NoDup (slug <$> pairs)
    ∧ ∀ s, s ∈ slug <$> pairs
           ↔ ∃ f, f ∈ v1Files ++ v2Files ∧ getFileSlug (path f) = Some s.
Proof.
  destruct (matchedPairs_pairs localeCompare v1Files v2Files)
    as (pairs & Hrun & Hnd & Hin & _).
  by exists pairs.
Qed.

(** X12. First file wins: in every pair the base file is the first file of
    the base collection with the pair's slug, and the target file the
    first one of the target collection, if there is any; one of the two
    exists; and the pair is modified when both exist, deleted when only the
    base file exists and added when only the target file exists. *)
Theorem matchedPairs_first_file (localeCompare : string → string → Z)
    (v1Files v2Files : list SourceFile) :
  ∃ pairs,
    matchedPairs localeCompare v1Files v2Files = Some pairs
    ∧ Forall (λ p, v1 p = head (filter (has_slug (slug p)) v1Files)
                   ∧ v2 p = head (filter (has_slug (slug p)) v2Files)
                   ∧ (is_Some (v1 p) ∨ is_Some (v2 p))
                   ∧ pair_type p = type_of_files (v1 p) (v2 p)) pairs.
Proof.
  destruct (matchedPairs_pairs localeCompare v1Files v2Files)
    as (pairs & Hrun & _ & Hin & Hall).
  exists pairs. split; [done|]. apply Forall_forall. intros p Hp.
  rewrite Forall_forall in Hall. destruct (Hall p Hp) as (H1 & H2 & Hty).
  split; [done|]. split; [done|]. split; [|done].
  destruct (proj1 (Hin (slug p))) as (f & Hf & Hs).
  { by apply list_elem_of_fmap_2. }
  rewrite H1, H2. apply elem_of_app in Hf as [Hf|Hf]; [left|right].
  - assert (f ∈ filter (has_slug (slug p)) v1Files) as Hin'
      by (by apply list_elem_of_filter).
    destruct (filter _ v1Files); [by apply elem_of_nil in Hin'|by eexists].
  - assert (f ∈ filter (has_slug (slug p)) v2Files) as Hin'
      by (by apply list_elem_of_filter).
    destruct (filter _ v2Files); [by apply elem_of_nil in Hin'|by eexists].
Qed.

Lemma pair_stats_count pairs t :
  pair_stats pairs t = length (filter (λ p, pair_type p = t) pairs).
Proof.
  unfold pair_stats.
  assert (∀ acc, foldl pair_stats_step acc pairs t
                 = acc t + length (filter (λ p, pair_type p = t) pairs))
    as Hgen.
  { induction pairs as [|p pairs IH]; intros acc; simpl; [lia|].
    rewrite IH. unfold pair_stats_step.
    destruct (decide (pair_type p = t)) as [<-|Hne].
    - rewrite decide_True by done. rewrite filter_cons_True by done.
      simpl. lia.
    - rewrite decide_False by done. by rewrite filter_cons_False. }
  by rewrite Hgen.
Qed.

Lemma pair_type_counts pairs :
  Forall (λ p, pair_type p = modified ∨ pair_type p = tag added
               ∨ pair_type p = deleted) pairs →
  length (filter (λ p, pair_type p = modified) pairs)
  + length (filter (λ p, pair_type p = tag added) pairs)
  + length (filter (λ p, pair_type p = deleted) pairs)
  = length pairs.
Proof.
  induction 1 as [|p pairs Hty _ IH]; [done|].
  destruct Hty as [Hty|[Hty|Hty]].
  - rewrite (filter_cons_True (λ p, pair_type p = modified)) by done.
    rewrite !filter_cons_False by congruence. simpl. lia.
  - rewrite (filter_cons_True (λ p, pair_type p = tag added)) by done.
    rewrite !filter_cons_False by congruence. simpl. lia.
  - rewrite (filter_cons_True (λ p, pair_type p = deleted)) by done.
    rewrite !filter_cons_False by congruence. simpl. lia.
Qed.

(** X13. The counters of the sidebar: each counts the pairs of its type,
    and the three add up to the number of pairs the matcher returns. *)
Theorem pair_stats_total (localeCompare : string → string → Z)
    (v1Files v2Files : list SourceFile) :
  ∃ pairs,
    matchedPairs localeCompare v1Files v2Files = Some pairs
    ∧ (∀ t, pair_stats pairs t
            = length (filter (λ p, pair_type p = t) pairs))
    ∧ pair_stats pairs modified + pair_stats pairs (tag added)
      + pair_stats pairs deleted
      = length pairs.
Proof.
  destruct (matchedPairs_pairs localeCompare v1Files v2Files)
    as (pairs & Hrun & _ & _ & Hall).
  exists pairs. split; [done|]. split; [intros t; apply pair_stats_count|].
  rewrite !pair_stats_count. apply pair_type_counts.
  eapply Forall_impl; [exact Hall|]. intros p (_ & _ & ->).
  destruct (v1 p), (v2 p); simpl; auto.
Qed.

(** ** Slug resolver: what a slug forgets *)

Lemma append_String c (s t : string) : String c s +:+ t = String c (s +:+ t).
Proof. done. Qed.

Lemma split_app sep a b :
  split sep (a +:+ String sep b) = split sep a ++ split sep b.
Proof.
  induction a as [|c r IH].
  - change (EmptyString +:+ String sep b) with (String sep b). simpl.
    by rewrite bool_decide_eq_true_2.
  - rewrite append_String. simpl. case_bool_decide; [by rewrite IH|].
    rewrite IH. pose proof (split_nonempty sep r).
    by destruct (split sep r).
Qed.

Lemma split_no_sep sep s :
  all_chars (λ c, negb (bool_decide (c = sep))) s = true → split sep s = [s].
Proof.
  induction s as [|c r IH]; [done|]. simpl.
  intros [Hc Hr]%andb_prop. apply negb_true_iff in Hc. rewrite Hc.
  by rewrite IH.
Qed.

Lemma getFileSlug_last dir name :
  all_chars (λ c, negb (bool_decide (c = "/"%char))) name = true →
  getFileSlug (dir +:+ String "/" name) = getFileSlug name.
Proof.
  intros Hname. unfold getFileSlug.
  rewrite split_app, (split_no_sep _ name Hname).
  rewrite length_app. simpl.
  replace (length (split "/" dir) + 1 - 1) with (length (split "/" dir)) by lia.
  by rewrite list_lookup_middle.
Qed.

(** X14. The slug of a file does not depend on its directory: only the
    part of the path after the last [/] counts. *)
Theorem getFileSlug_ignores_directory (dir name : string) :
  all_chars (λ c, negb (bool_decide (c = "/"%char))) name = true →
  getFileSlug (dir +:+ "/" +:+ name) = getFileSlug name.
Proof. apply getFileSlug_last. Qed.

Lemma getFileSlug_ignores_directory_witness :
  all_chars (λ c, negb (bool_decide (c = "/"%char))) "util-legacy.js" = true
  ∧ getFileSlug ("src/old" +:+ "/" +:+ "util-legacy.js")
    = getFileSlug "util-legacy.js".
Proof.
  split; [reflexivity|].
  apply (getFileSlug_ignores_directory "src/old" "util-legacy.js").
  reflexivity.
Defined.

Ltac ascii_cases c :=
  destruct c as [[] [] [] [] [] [] [] []]; vm_compute; try done;
  repeat split; congruence.

Lemma lower_char_alnum c :
  is_alnum c = true → is_lower_alnum (lower_char c) = true.
Proof. ascii_cases c. Qed.

Lemma lower_char_letter c :
  is_letter c = true → is_lower_letter (lower_char c) = true.
Proof. ascii_cases c. Qed.

Lemma lower_letter_alnum c :
  is_lower_letter c = true → is_lower_alnum c = true.
Proof. ascii_cases c. Qed.

Lemma lower_alnum_not_sep c :
  is_lower_alnum c = true → negb (is_sep c) = true.
Proof. ascii_cases c. Qed.

Lemma lower_alnum_not_space c :
  is_lower_alnum c = true → negb (is_space c) = true.
Proof. ascii_cases c. Qed.

Lemma lower_alnum_not_dot c :
  is_lower_alnum c = true → negb (bool_decide (c = "."%char)) = true.
Proof. ascii_cases c. Qed.

Lemma lower_alnum_not_slash c :
  is_lower_alnum c = true → negb (bool_decide (c = "/"%char)) = true.
Proof. ascii_cases c. Qed.

Lemma lower_letter_not_digit c :
  is_lower_letter c = true → is_digit c = false.
Proof. ascii_cases c. Qed.

Lemma alnum_not_slash c :
  is_alnum c = true → negb (bool_decide (c = "/"%char)) = true.
Proof. ascii_cases c. Qed.

Lemma sep_not_slash c :
  is_sep c = true → negb (bool_decide (c = "/"%char)) = true.
Proof. ascii_cases c. Qed.

Lemma sep_lower c : is_sep c = true → lower_char c = c.
Proof. ascii_cases c. Qed.

Lemma digit_lower c : is_digit c = true → lower_char c = c.
Proof. ascii_cases c. Qed.

Lemma digit_alnum c : is_digit c = true → is_alnum c = true.
Proof. ascii_cases c. Qed.

Lemma lower_letter_lower c : is_lower_letter c = true → lower_char c = c.
Proof. ascii_cases c. Qed.

Lemma letter_alnum c : is_letter c = true → is_alnum c = true.
Proof. ascii_cases c. Qed.

Lemma all_chars_impl (P Q : ascii → bool) s :
  (∀ c, P c = true → Q c = true) →
  all_chars P s = true → all_chars Q s = true.
Proof.
  intros HPQ. induction s as [|c r IH]; [done|]. simpl.
  intros [Hc Hr]%andb_prop. by rewrite (HPQ c Hc), IH.
Qed.

Lemma all_chars_app P s t :
  all_chars P (s +:+ t) = all_chars P s && all_chars P t.
Proof.
  induction s as [|c r IH]; [done|]. rewrite append_String. simpl.
  by rewrite IH, andb_assoc.
Qed.

Lemma all_chars_lower (P Q : ascii → bool) s :
  (∀ c, P c = true → Q (lower_char c) = true) →
  all_chars P s = true → all_chars Q (toLowerCase s) = true.
Proof.
  intros HPQ. induction s as [|c r IH]; [done|]. simpl.
  intros [Hc Hr]%andb_prop. by rewrite (HPQ c Hc), IH.
Qed.

Lemma toLowerCase_app s t :
  toLowerCase (s +:+ t) = toLowerCase s +:+ toLowerCase t.
Proof.
  induction s as [|c r IH]; [done|]. rewrite append_String. simpl.
  by rewrite IH.
Qed.

Lemma toLowerCase_id s :
  all_chars (λ c, bool_decide (lower_char c = c)) s = true →
  toLowerCase s = s.
Proof.
  induction s as [|c r IH]; [done|]. simpl.
  intros [Hc%bool_decide_eq_true Hr]%andb_prop. by rewrite Hc, IH.
Qed.

Lemma toLowerCase_length s : String.length (toLowerCase s) = String.length s.
Proof. induction s as [|c r IH]; [done|]. simpl. by rewrite IH. Qed.

Lemma toLowerCase_nonempty s : s ≠ EmptyString → toLowerCase s ≠ EmptyString.
Proof. by destruct s. Qed.

Lemma remove_from_0 re c r :
  remove_from re 0 (String c r)
  = match re (String c r) with
    | Some n => remove_from re (n - 1) r
    | None => String c (remove_from re 0 r)
    end.
Proof. done. Qed.

(** Removal of the matches of an expression that starts with a
    separator. *)
Lemma remove_from_prefix re p rest :
  (∀ c r, is_sep c = false → re (String c r) = None) →
  all_chars (λ c, negb (is_sep c)) p = true →
  remove_from re 0 (p +:+ rest) = p +:+ remove_from re 0 rest.
Proof.
  intros Hre. induction p as [|c r IH]; [done|].
  intros Hp. simpl in Hp. apply andb_prop in Hp as [Hc%negb_true_iff Hr].
  rewrite !append_String, remove_from_0, (Hre c _ Hc), IH by done. done.
Qed.

Lemma remove_from_skip re p rest :
  remove_from re (String.length p) (p +:+ rest) = remove_from re 0 rest.
Proof. induction p as [|c r IH]; [by destruct rest|]. apply IH. Qed.

Lemma remove_from_match re c m rest :
  re (String c (m +:+ rest)) = Some (S (String.length m)) →
  remove_from re 0 (String c (m +:+ rest)) = remove_from re 0 rest.
Proof.
  intros Hre. rewrite remove_from_0, Hre. simpl. rewrite Nat.sub_0_r.
  apply remove_from_skip.
Qed.

Lemma remove_from_nil re : remove_from re 0 EmptyString = EmptyString.
Proof. done. Qed.

Lemma re_version_not_sep c r : is_sep c = false → re_version (String c r) = None.
Proof. intros Hc. simpl. by rewrite Hc. Qed.

Lemma re_stage_not_sep c r : is_sep c = false → re_stage (String c r) = None.
Proof. intros Hc. simpl. by rewrite Hc. Qed.

Lemma version_tail_digits ds e :
  all_chars is_digit ds = true →
  match e with String d _ => is_digit d = false | EmptyString => True end →
  version_tail (ds +:+ String "." e) = String.length ds.
Proof.
  intros Hds He. induction ds as [|d ds IH].
  - change (EmptyString +:+ String "." e) with (String "." e). simpl.
    destruct e as [|d e']; [done|]. by rewrite He.
  - simpl in Hds. apply andb_prop in Hds as [Hd Hds].
    rewrite append_String. simpl. rewrite Hd. f_equal. by apply IH.
Qed.

Lemma re_digits_digits ds e :
  ds ≠ EmptyString → all_chars is_digit ds = true →
  match e with String d _ => is_digit d = false | EmptyString => True end →
  re_digits (ds +:+ String "." e) = Some (String.length ds).
Proof.
  intros Hne Hds He. destruct ds as [|d ds]; [done|].
  simpl in Hds. apply andb_prop in Hds as [Hd Hds].
  rewrite append_String. simpl. rewrite Hd. f_equal. f_equal.
  by apply version_tail_digits.
Qed.

Lemma re_digits_letter c r :
  is_digit c = false → re_digits (String c r) = None.
Proof. intros Hc. simpl. by rewrite Hc. Qed.

Lemma re_version_v c r :
  is_sep c = true → re_version (String c (String "v" r))
                    = n ← re_digits r; Some (2 + n).
Proof. intros Hc. simpl. by rewrite Hc. Qed.

Lemma re_version_no_v c d r :
  is_sep c = true → d ≠ "v"%char →
  re_version (String c (String d r)) = n ← re_digits (String d r); Some (1 + n).
Proof.
  intros Hc Hd. unfold re_version. rewrite Hc.
  destruct d as [[] [] [] [] [] [] [] []]; done.
Qed.

Lemma digit_not_v d : is_digit d = true → d ≠ "v"%char.
Proof. intros Hd ->. done. Qed.

Lemma re_version_marker sep v ds e :
  is_sep sep = true → ds ≠ EmptyString → all_chars is_digit ds = true →
  match e with String d _ => is_digit d = false | EmptyString => True end →
  re_version (String sep ((v_mark v +:+ ds) +:+ String "." e))
  = Some (S (String.length (v_mark v +:+ ds))).
Proof.
  intros Hsep Hne Hds He. destruct v.
  - change (String sep ((v_mark true +:+ ds) +:+ String "." e))
      with (String sep (String "v" (ds +:+ String "." e))).
    rewrite re_version_v by done. by rewrite re_digits_digits.
  - change (v_mark false +:+ ds) with ds.
    pose proof (re_digits_digits ds e Hne Hds He) as Hdig.
    destruct ds as [|d ds]; [done|]. rewrite append_String in *.
    rewrite re_version_no_v; [|done|].
    + by rewrite Hdig.
    + apply digit_not_v. simpl in Hds. by apply andb_prop in Hds as [? _].
Qed.

(** A dot followed by lower-case letters is left alone by the version
    expression. *)
Lemma remove_version_extension e :
  all_chars is_lower_letter e = true →
  remove_from re_version 0 (String "." e) = String "." e.
Proof.
  intros He.
  assert (re_version (String "." e) = None) as Hdot.
  { destruct e as [|c e]; [done|]. simpl in He.
    apply andb_prop in He as [Hc He].
    destruct (decide (c = "v"%char)) as [->|Hv].
    - rewrite re_version_v by done.
      destruct e as [|c' e]; [done|]. simpl in He.
      apply andb_prop in He as [Hc' _].
      by rewrite re_digits_letter by (by apply lower_letter_not_digit).
    - rewrite re_version_no_v by done.
      by rewrite re_digits_letter by (by apply lower_letter_not_digit). }
  rewrite remove_from_0, Hdot. f_equal.
  rewrite <-(append_nil_r e) at 1.
  rewrite remove_from_prefix; [by rewrite append_nil_r|apply re_version_not_sep|].
  eapply all_chars_impl; [|exact He].
  intros c Hc. by apply lower_alnum_not_sep, lower_letter_alnum.
Qed.

Lemma remove_stage_extension e :
  all_chars is_lower_letter e = true → re_stage_word e = None →
  remove_from re_stage 0 (String "." e) = String "." e.
Proof.
  intros He Hst.
  assert (re_stage (String "." e) = None) as Hdot.
  { simpl. by rewrite Hst. }
  rewrite remove_from_0, Hdot. f_equal.
  rewrite <-(append_nil_r e) at 1.
  rewrite remove_from_prefix; [by rewrite append_nil_r|apply re_stage_not_sep|].
  eapply all_chars_impl; [|exact He].
  intros c Hc. by apply lower_alnum_not_sep, lower_letter_alnum.
Qed.

Lemma strip_extension_last p e :
  all_chars (λ c, negb (bool_decide (c = "."%char))) p = true →
  e ≠ EmptyString → ext_chars e = true →
  strip_extension (p +:+ String "." e) = p.
Proof.
  intros Hp Hne He. induction p as [|c r IH].
  - change (EmptyString +:+ String "." e) with (String "." e). simpl.
    rewrite He. by rewrite bool_decide_eq_false_2.
  - simpl in Hp. apply andb_prop in Hp as [Hc%negb_true_iff Hr].
    rewrite append_String. simpl. rewrite Hc. simpl. by rewrite IH.
Qed.

Lemma trimStart_no_space s :
  all_chars (λ c, negb (is_space c)) s = true → trimStart s = s.
Proof.
  destruct s as [|c r]; [done|]. simpl.
  intros [Hc%negb_true_iff _]%andb_prop. by rewrite Hc.
Qed.

Lemma trimEnd_no_space s :
  all_chars (λ c, negb (is_space c)) s = true → trimEnd s = s.
Proof.
  induction s as [|c r IH]; [done|]. simpl.
  intros [Hc%negb_true_iff Hr]%andb_prop. rewrite IH by done.
  destruct r; [by rewrite Hc|done].
Qed.

Lemma ext_chars_letters e :
  all_chars is_lower_letter e = true → ext_chars e = true.
Proof.
  induction e as [|c r IH]; [done|]. simpl.
  intros [Hc Hr]%andb_prop. rewrite IH by done.
  apply lower_letter_alnum in Hc.
  by rewrite (lower_alnum_not_slash c Hc), (lower_alnum_not_dot c Hc).
Qed.

(** The slug of a name without [/] whose lower-case form is [lb], a dot
    and letters [le], once both removals have left that form alone. *)
Lemma slug_of_plain lb le :
  all_chars is_lower_alnum lb = true →
  le ≠ EmptyString → all_chars is_lower_letter le = true →
  trim (strip_extension (lb +:+ String "." le)) = lb.
Proof.
  intros Hlb Hne Hle.
  rewrite strip_extension_last; [|
    by eapply all_chars_impl; [apply lower_alnum_not_dot|]|done|
    by apply ext_chars_letters].
  assert (all_chars (λ c, negb (is_space c)) lb = true) as Hsp
    by (by eapply all_chars_impl; [apply lower_alnum_not_space|]).
  unfold trim. by rewrite trimStart_no_space, trimEnd_no_space.
Qed.

Lemma getFileSlug_filename name :
  all_chars (λ c, negb (bool_decide (c = "/"%char))) name = true →
  getFileSlug name
  = Some (trim (strip_extension
                  (remove_all re_stage
                     (remove_all re_version (toLowerCase name))))).
Proof.
  intros Hname. unfold getFileSlug. by rewrite (split_no_sep _ name Hname).
Qed.

Lemma lower_letters_first_not_digit le :
  all_chars is_lower_letter le = true →
  match le with
  | String d _ => is_digit d = false
  | EmptyString => True
  end.
Proof.
  destruct le as [|d le]; [done|]. simpl. intros [Hd _]%andb_prop.
  by apply lower_letter_not_digit.
Qed.

Lemma remove_marker_version lb sep v ds le :
  all_chars is_lower_alnum lb = true → is_sep sep = true →
  ds ≠ EmptyString → all_chars is_digit ds = true →
  all_chars is_lower_letter le = true →
  remove_all re_version
    (lb +:+ String sep ((v_mark v +:+ ds) +:+ String "." le))
  = lb +:+ String "." le.
Proof.
  intros Hlb Hsep Hne Hds Hle. unfold remove_all.
  rewrite remove_from_prefix; [|apply re_version_not_sep|
    by eapply all_chars_impl; [apply lower_alnum_not_sep|]].
  rewrite remove_from_match.
  - by rewrite remove_version_extension.
  - apply re_version_marker; [done..|].
    by apply lower_letters_first_not_digit.
Qed.

Lemma remove_stage_plain lb le :
  all_chars is_lower_alnum lb = true →
  all_chars is_lower_letter le = true → re_stage_word le = None →
  remove_all re_stage (lb +:+ String "." le) = lb +:+ String "." le.
Proof.
  intros Hlb Hle Hst. unfold remove_all.
  rewrite remove_from_prefix; [|apply re_stage_not_sep|
    by eapply all_chars_impl; [apply lower_alnum_not_sep|]].
  by rewrite remove_stage_extension.
Qed.

Lemma v_mark_digits_lower v ds :
  all_chars is_digit ds = true →
  toLowerCase (v_mark v +:+ ds) = v_mark v +:+ ds.
Proof.
  intros Hds. rewrite toLowerCase_app. f_equal; [by destruct v|].
  apply toLowerCase_id. eapply all_chars_impl; [|exact Hds].
  intros c Hc. apply bool_decide_eq_true. by apply digit_lower.
Qed.

Lemma v_mark_digits_no_slash v ds :
  all_chars is_digit ds = true →
  all_chars (λ c, negb (bool_decide (c = "/"%char))) (v_mark v +:+ ds) = true.
Proof.
  intros Hds. rewrite all_chars_app. apply andb_true_intro. split.
  - by destruct v.
  - eapply all_chars_impl; [|exact Hds].
    intros c Hc. by apply alnum_not_slash, digit_alnum.
Qed.

(** X15. The slug forgets the version: a file name made of a base of
    letters and digits, a separator ([.], [_] or [-]), an optional [v],
    digits, a dot and an extension of letters that does not begin with a
    stage word has the base, in lower case, as its slug; whatever the
    version is. *)
Theorem getFileSlug_forgets_version (base digits ext : string) (sep : ascii)
    (v : bool) :
  all_chars is_alnum base = true →
  is_sep sep = true →
  digits ≠ EmptyString → all_chars is_digit digits = true →
  ext ≠ EmptyString → all_chars is_letter ext = true →
  re_stage_word (toLowerCase ext) = None →
  getFileSlug (base +:+ String sep (v_mark v +:+ digits) +:+ "." +:+ ext)
  = Some (toLowerCase base).
Proof.
  intros Hbase Hsep Hdne Hds Hene Hext Hst.
  change (base +:+ String sep (v_mark v +:+ digits) +:+ "." +:+ ext)
    with (base +:+ String sep ((v_mark v +:+ digits) +:+ String "." ext)).
  rewrite getFileSlug_filename; last first.
  { rewrite all_chars_app. simpl. rewrite all_chars_app. simpl.
    rewrite (all_chars_impl _ _ base alnum_not_slash Hbase).
    rewrite (sep_not_slash sep Hsep), (v_mark_digits_no_slash v _ Hds).
    simpl. eapply all_chars_impl; [|exact Hext].
    intros c Hc. by apply alnum_not_slash, letter_alnum. }
  rewrite toLowerCase_app. simpl toLowerCase at 2.
  rewrite toLowerCase_app, (v_mark_digits_lower v _ Hds), (sep_lower _ Hsep).
  simpl toLowerCase at 2.
  assert (all_chars is_lower_alnum (toLowerCase base) = true) as Hlb
    by (by eapply all_chars_lower; [apply lower_char_alnum|]).
  assert (all_chars is_lower_letter (toLowerCase ext) = true) as Hle
    by (by eapply all_chars_lower; [apply lower_char_letter|]).
  change (lower_char ".") with "."%char.
  rewrite remove_marker_version by done.
  rewrite remove_stage_plain by done.
  f_equal. apply slug_of_plain; [done| |done].
  by apply toLowerCase_nonempty.
Qed.

Lemma getFileSlug_forgets_version_witness :
  all_chars is_alnum "Util" = true
  ∧ is_sep "_" = true
  ∧ "12" ≠ EmptyString ∧ all_chars is_digit "12" = true
  ∧ "js" ≠ EmptyString ∧ all_chars is_letter "js" = true
  ∧ re_stage_word (toLowerCase "js") = None
  ∧ getFileSlug ("Util" +:+ String "_" (v_mark true +:+ "12") +:+ "." +:+ "js")
    = Some (toLowerCase "Util").
Proof.
  split; [reflexivity|]. split; [reflexivity|]. split; [discriminate|].
  split; [reflexivity|]. split; [discriminate|]. split; [reflexivity|].
  split; [reflexivity|].
  apply (getFileSlug_forgets_version "Util" "12" "js" "_" true);
    first [reflexivity|discriminate].
Defined.

Lemma stage_word_facts stage :
  stage ∈ stage_words →
  all_chars is_lower_letter stage = true
  ∧ (∃ d r, stage = String d r ∧ d ≠ "v"%char)
  ∧ ∀ t, re_stage_word (stage +:+ t) = Some (String.length stage).
Proof.
  unfold stage_words. rewrite !elem_of_cons, elem_of_nil.
  intros [->|[->|[->|[->|[->|[->|[]]]]]]];
    (split; [reflexivity|]); (split; [by eexists _, _|]);
    intros t; by vm_compute.
Qed.

(** X16. The slug forgets the stage: a file name made of a base of
    letters and digits, a separator, one of the words legacy, modern, old,
    new, final and latest, a dot and an extension of letters that does not
    begin with such a word has the base, in lower case, as its slug. *)
Theorem getFileSlug_forgets_stage (base stage ext : string) (sep : ascii) :
  all_chars is_alnum base = true →
  is_sep sep = true →
  stage ∈ stage_words →
  ext ≠ EmptyString → all_chars is_letter ext = true →
  re_stage_word (toLowerCase ext) = None →
  getFileSlug (base +:+ String sep stage +:+ "." +:+ ext)
  = Some (toLowerCase base).
Proof.
  intros Hbase Hsep Hstage Hene Hext Hst.
  destruct (stage_word_facts stage Hstage) as (Hletters & (d & r & Hd & Hv) & Hre).
  change (base +:+ String sep stage +:+ "." +:+ ext)
    with (base +:+ String sep (stage +:+ String "." ext)).
  assert (all_chars is_lower_alnum (toLowerCase base) = true) as Hlb
    by (by eapply all_chars_lower; [apply lower_char_alnum|]).
  assert (all_chars is_lower_letter (toLowerCase ext) = true) as Hle
    by (by eapply all_chars_lower; [apply lower_char_letter|]).
  assert (all_chars (λ c, negb (is_sep c)) stage = true) as Hnosep.
  { eapply all_chars_impl; [|exact Hletters].
    intros c Hc. by apply lower_alnum_not_sep, lower_letter_alnum. }
  rewrite getFileSlug_filename; last first.
  { rewrite all_chars_app. simpl. rewrite all_chars_app. simpl.
    rewrite (all_chars_impl _ _ base alnum_not_slash Hbase).
    rewrite (sep_not_slash sep Hsep). simpl.
    apply andb_true_intro. split.
    - eapply all_chars_impl; [|exact Hletters].
      intros c Hc. by apply lower_alnum_not_slash, lower_letter_alnum.
    - eapply all_chars_impl; [|exact Hext].
      intros c Hc. by apply alnum_not_slash, letter_alnum. }
  rewrite toLowerCase_app. simpl toLowerCase at 2.
  rewrite toLowerCase_app, (sep_lower _ Hsep).
  rewrite (toLowerCase_id stage); last first.
  { eapply all_chars_impl; [|exact Hletters].
    intros c Hc. apply bool_decide_eq_true. by apply lower_letter_lower. }
  simpl toLowerCase at 2. change (lower_char ".") with "."%char.
  assert (remove_all re_version
            (toLowerCase base
             +:+ String sep (stage +:+ String "." (toLowerCase ext)))
          = toLowerCase base
            +:+ String sep (stage +:+ String "." (toLowerCase ext))) as ->.
  { unfold remove_all.
    rewrite remove_from_prefix; [|apply re_version_not_sep|
      by eapply all_chars_impl; [apply lower_alnum_not_sep|]].
    f_equal. rewrite remove_from_0.
    assert (re_version
              (String sep (stage +:+ String "." (toLowerCase ext))) = None)
      as ->.
    { rewrite Hd, append_String, re_version_no_v by done.
      rewrite re_digits_letter; [done|].
      rewrite Hd in Hletters. simpl in Hletters.
      apply andb_prop in Hletters as [Hdl _].
      by apply lower_letter_not_digit. }
    f_equal. rewrite remove_from_prefix by (done || apply re_version_not_sep).
    by rewrite remove_version_extension. }
  assert (remove_all re_stage
            (toLowerCase base
             +:+ String sep (stage +:+ String "." (toLowerCase ext)))
          = toLowerCase base +:+ String "." (toLowerCase ext)) as ->.
  { unfold remove_all.
    rewrite remove_from_prefix; [|apply re_stage_not_sep|
      by eapply all_chars_impl; [apply lower_alnum_not_sep|]].
    f_equal. rewrite remove_from_match.
    - by apply remove_stage_extension.
    - simpl. by rewrite Hsep, Hre. }
  f_equal. apply slug_of_plain; [done| |done].
  by apply toLowerCase_nonempty.
Qed.

Lemma getFileSlug_forgets_stage_witness :
  all_chars is_alnum "util" = true
  ∧ is_sep "-" = true
  ∧ "legacy" ∈ stage_words
  ∧ "js" ≠ EmptyString ∧ all_chars is_letter "js" = true
  ∧ re_stage_word (toLowerCase "js") = None
  ∧ getFileSlug ("util" +:+ String "-" "legacy" +:+ "." +:+ "js")
    = Some (toLowerCase "util").
Proof.
  assert ("legacy" ∈ stage_words) as Hin
    by (unfold stage_words; rewrite !elem_of_cons; auto).
  split; [reflexivity|]. split; [reflexivity|].
  split; [exact Hin|]. split; [discriminate|].
  split; [reflexivity|]. split; [reflexivity|].
  apply (getFileSlug_forgets_stage "util" "legacy" "js" "-");
    first [reflexivity|discriminate|exact Hin].
Defined.

(** ** The ignore policy *)

Lemma endsWith_unfold s p :
  endsWith s p
  = bool_decide (s = p)
    || match s with
       | EmptyString => false
       | String _ r => endsWith r p
       end.
Proof. by destruct s. Qed.

Lemma includes_unfold s p :
  includes s p
  = starts_with p s
    || match s with
       | EmptyString => false
       | String _ r => includes r p
       end.
Proof. by destruct s. Qed.

Lemma endsWith_spec s p :
  endsWith s p = true ↔ ∃ pre, s = pre +:+ p.
Proof.
  split.
  - induction s as [|a r IH]; rewrite endsWith_unfold.
    + rewrite orb_false_r. intros ->%bool_decide_eq_true. by exists EmptyString.
    + intros [->%bool_decide_eq_true|Hr]%orb_prop; [by exists EmptyString|].
      destruct (IH Hr) as [pre ->]. by exists (String a pre).
  - intros [pre ->]. induction pre as [|a pre IH]; rewrite endsWith_unfold.
    + change (EmptyString +:+ p) with p. by rewrite bool_decide_eq_true_2.
    + rewrite append_String, IH. apply orb_true_r.
Qed.

Lemma starts_with_spec p s :
  starts_with p s = true ↔ ∃ post, s = p +:+ post.
Proof.
  revert s. induction p as [|a p IH]; intros s.
  - split; [by exists s|done].
  - destruct s as [|b s]; simpl.
    + split; [done|by intros [post ?]].
    + rewrite andb_true_iff, bool_decide_eq_true, IH. split.
      * intros [-> [post ->]]. by exists post.
      * intros [post Hs]. rewrite append_String in Hs.
        injection Hs as -> ->. eauto.
Qed.

Lemma includes_spec s p :
  includes s p = true ↔ ∃ pre post, s = pre +:+ p +:+ post.
Proof.
  split.
  - induction s as [|a r IH]; rewrite includes_unfold.
    + rewrite orb_false_r. intros [post Hs]%starts_with_spec.
      by exists EmptyString, post.
    + intros [[post Hs]%starts_with_spec|Hr]%orb_prop.
      * by exists EmptyString, post.
      * destruct (IH Hr) as (pre & post & ->). by exists (String a pre), post.
  - intros (pre & post & ->).
    induction pre as [|a pre IH]; rewrite includes_unfold.
    + change (EmptyString +:+ p +:+ post) with (p +:+ post).
      assert (starts_with p (p +:+ post) = true) as ->
        by (apply starts_with_spec; eauto).
      done.
    + rewrite append_String, IH. apply orb_true_r.
Qed.

Lemma includes_empty s : includes s EmptyString = true.
Proof. by rewrite includes_unfold. Qed.

Lemma shouldIgnore_pattern ignoreList path :
  shouldIgnore ignoreList path = true ↔
  ∃ pattern, pattern ∈ ignoreList ∧
    (endsWith (toLowerCase path) (toLowerCase pattern)
     || includes (toLowerCase path) ("/" +:+ toLowerCase pattern +:+ "/")
     || startsWith (toLowerCase path) (toLowerCase pattern +:+ "/")) = true.
Proof.
  unfold shouldIgnore. cbv zeta. rewrite existsb_exists.
  split; intros (pattern & Hin & H); exists pattern;
    (split; [by apply list_elem_of_In|done]).
Qed.

Lemma shouldIgnore_cases (ignoreList : list string) (path : string) :
  shouldIgnore ignoreList path = true ↔
  ∃ pattern, pattern ∈ ignoreList ∧
    ((∃ pre, toLowerCase path = pre +:+ toLowerCase pattern)
     ∨ (∃ pre post,
          toLowerCase path
          = pre +:+ "/" +:+ toLowerCase pattern +:+ "/" +:+ post)
     ∨ (∃ post, toLowerCase path = toLowerCase pattern +:+ "/" +:+ post)).
Proof.
  rewrite shouldIgnore_pattern.
  assert (∀ p post : string,
            ("/" +:+ p +:+ "/") +:+ post = "/" +:+ p +:+ "/" +:+ post) as Hmid.
  { intros p post. change ("/" +:+ p +:+ "/") with (String "/" (p +:+ "/")).
    by rewrite append_String, append_assoc. }
  split.
  - intros (pattern & Hin & H). exists pattern. split; [done|].
    apply orb_prop in H as [[H|H]%orb_prop|H].
    + left. by apply endsWith_spec.
    + right. left. apply includes_spec in H as (pre & post & H).
      exists pre, post. by rewrite <-Hmid.
    + right. right. apply starts_with_spec in H as (post & H).
      exists post. by rewrite <-append_assoc.
  - intros (pattern & Hin & H). exists pattern. split; [done|].
    destruct H as [H|[(pre & post & H)|(post & H)]].
    + apply endsWith_spec in H. by rewrite H.
    + assert (includes (toLowerCase path)
                ("/" +:+ toLowerCase pattern +:+ "/") = true) as ->.
      { apply includes_spec. exists pre, post. by rewrite Hmid. }
      by rewrite orb_true_r.
    + assert (startsWith (toLowerCase path) (toLowerCase pattern +:+ "/")
              = true) as ->.
      { apply starts_with_spec. exists post. by rewrite append_assoc. }
      by rewrite orb_true_r.
Qed.

(** X17. The ignore policy: a path is ignored exactly when, both in lower
    case, it ends with a pattern of the list, or contains the pattern
    between two slashes, or begins with the pattern and a slash. *)
Theorem shouldIgnore_spec (ignoreList : list string) (path : string) :
  shouldIgnore ignoreList path = true ↔
  ∃ pattern, pattern ∈ ignoreList ∧
    ((∃ pre, toLowerCase path = pre +:+ toLowerCase pattern)
     ∨ (∃ pre post,
          toLowerCase path
          = pre +:+ "/" +:+ toLowerCase pattern +:+ "/" +:+ post)
     ∨ (∃ post, toLowerCase path = toLowerCase pattern +:+ "/" +:+ post)).
Proof. apply shouldIgnore_cases. Qed.

Lemma lower_char_idem c : lower_char (lower_char c) = lower_char c.
Proof. ascii_cases c. Qed.

Lemma toLowerCase_idem s : toLowerCase (toLowerCase s) = toLowerCase s.
Proof.
  induction s as [|c r IH]; [done|]. simpl. by rewrite lower_char_idem, IH.
Qed.

Lemma addTag_elem ignoreList newTag :
  newTag ≠ EmptyString →
  ∃ pattern, pattern ∈ addTag ignoreList newTag
             ∧ toLowerCase pattern = toLowerCase newTag.
Proof.
  intros Hne. unfold addTag.
  rewrite (bool_decide_eq_false_2 (newTag = EmptyString)) by done.
  destruct (decide (newTag ∈ ignoreList)) as [Hin|Hin].
  - rewrite (bool_decide_eq_true_2 _ Hin). simpl. by exists newTag.
  - rewrite (bool_decide_eq_false_2 _ Hin). simpl.
    exists (toLowerCase newTag). split.
    + apply elem_of_app. right. by apply list_elem_of_singleton.
    + apply toLowerCase_idem.
Qed.

Lemma shouldIgnore_mono l1 l2 path :
  l1 ⊆ l2 → shouldIgnore l1 path = true → shouldIgnore l2 path = true.
Proof.
  intros Hsub. rewrite !shouldIgnore_pattern.
  intros (pattern & Hin & H). exists pattern. split; [by apply Hsub|done].
Qed.

Lemma addTag_incl ignoreList newTag : ignoreList ⊆ addTag ignoreList newTag.
Proof.
  unfold addTag. case_match; [|done]. intros x Hx. apply elem_of_app. by left.
Qed.

(** X18. Adding an exclude pattern: the empty text and a text that is in
    the list leave the list as it is; every path that was ignored stays
    ignored; and after a non-empty text was submitted, every path that in
    lower case ends with the text in lower case, begins with it and a
    slash, or has it between two slashes is ignored. *)
Theorem addTag_ignores (ignoreList : list string) (newTag : string) :
  addTag ignoreList EmptyString = ignoreList
  ∧ (newTag ∈ ignoreList → addTag ignoreList newTag = ignoreList)
  ∧ (∀ path, shouldIgnore ignoreList path = true →
             shouldIgnore (addTag ignoreList newTag) path = true)
  ∧ (newTag ≠ EmptyString →
     ∀ path pre post,
       toLowerCase path = pre +:+ toLowerCase newTag
       ∨ toLowerCase path = toLowerCase newTag +:+ "/" +:+ post
       ∨ toLowerCase path
         = pre +:+ "/" +:+ toLowerCase newTag +:+ "/" +:+ post →
       shouldIgnore (addTag ignoreList newTag) path = true).
Proof.
  split; [done|]. split.
  { intros Hin. unfold addTag. rewrite (bool_decide_eq_true_2 _ Hin).
    by rewrite andb_false_r. }
  split; [intros path; apply shouldIgnore_mono, addTag_incl|].
  intros Hne path pre post H.
  destruct (addTag_elem ignoreList newTag Hne) as (pattern & Hin & Hlow).
  apply shouldIgnore_cases. exists pattern. split; [done|]. rewrite Hlow.
  destruct H as [H|[H|H]]; rewrite H.
  - left. eauto.
  - right. right. eauto.
  - right. left. eauto.
Qed.

(** X19. Removing what was added: when a non-empty text is submitted that
    is not in the list, in neither the case it is typed in nor in lower
    case, removing the pattern the list then shows gives the list back. *)
Theorem addTag_removeTag (ignoreList : list string) (newTag : string) :
  newTag ≠ EmptyString →
  newTag ∉ ignoreList →
  toLowerCase newTag ∉ ignoreList →
  removeTag (addTag ignoreList newTag) (toLowerCase newTag) = ignoreList.
Proof.
  intros Hne Hin Hlow. unfold addTag, removeTag.
  rewrite (bool_decide_eq_false_2 _ Hne), (bool_decide_eq_false_2 _ Hin).
  simpl. rewrite filter_app, filter_cons_False, filter_nil, app_nil_r
    by (by intros []).
  apply filter_all, Forall_forall. by intros x Hx ->.
Qed.

Lemma addTag_removeTag_witness :
  "Tmp" ≠ EmptyString
  ∧ ("Tmp" ∉ ["png"; "dist"])
  ∧ (toLowerCase "Tmp" ∉ ["png"; "dist"])
  ∧ removeTag (addTag ["png"; "dist"] "Tmp") (toLowerCase "Tmp")
    = ["png"; "dist"].
Proof.
  assert ("Tmp" ∉ ["png"; "dist"]) as H1
    by (rewrite !elem_of_cons, elem_of_nil; by intros [|[|]]).
  assert (toLowerCase "Tmp" ∉ ["png"; "dist"]) as H2
    by (rewrite !elem_of_cons, elem_of_nil; by intros [|[|]]).
  split; [discriminate|]. split; [exact H1|]. split; [exact H2|].
  apply (addTag_removeTag ["png"; "dist"] "Tmp"); [discriminate|exact H1|exact H2].
Defined.

Lemma includes_infix s pre t post :
  includes s (pre +:+ t +:+ post) = true → includes s t = true.
Proof.
  rewrite !includes_spec. intros (a & b & ->).
  exists (a +:+ pre), (post +:+ b). by rewrite !append_assoc.
Qed.

Lemma filter_sublist_impl {X : Type} (P Q : X → Prop)
    `{∀ x, Decision (P x)} `{∀ x, Decision (Q x)} (l : list X) :
  (∀ x, P x → Q x) → filter P l `sublist_of` filter Q l.
Proof.
  intros HPQ. induction l as [|x l IH]; [done|].
  rewrite !filter_cons. destruct (decide (P x)) as [HP|HP].
  - rewrite decide_True by auto. by constructor.
  - destruct (decide (Q x)); [by constructor|done].
Qed.

(** X20. The search box of the sidebar: with an empty term every pair is
    listed; the pairs listed are a sublist of the pairs; and when the
    lower-case form of a term is a part of the lower-case form of a longer
    term, the pairs listed for the longer term are among those listed for
    the term. *)
Theorem visible_pairs_narrow (pairs : list MatchedPair)
    (term longer : string) :
  visible_pairs pairs EmptyString = pairs
  ∧ visible_pairs pairs term `sublist_of` pairs
  ∧ ((∃ pre post, toLowerCase longer = pre +:+ toLowerCase term +:+ post) →
     visible_pairs pairs longer `sublist_of` visible_pairs pairs term).
Proof.
  unfold visible_pairs. split; [|split].
  - apply filter_all, Forall_forall. intros p _. simpl.
    by rewrite includes_empty.
  - apply sublist_filter.
  - intros (pre & post & ->). apply filter_sublist_impl. intros p.
    intros [H|H]%orb_prop.
    + by rewrite (includes_infix _ _ _ _ H).
    + by rewrite (includes_infix _ _ _ _ H), orb_true_r.
Qed.

(** ** Loading a directory *)

Lemma omap_id_fmap {X Y : Type} (f : X → option Y) (l : list X) :
  omap id (f <$> l) = omap f l.
Proof.
  induction l as [|x l IH]; [done|].
  rewrite fmap_cons. cbn [omap list_omap]. rewrite IH. by destruct (f x).
Qed.

Lemma load_batches_unfold readAsText ignoreList fuel files i fileData :
  load_batches readAsText ignoreList (S fuel) files i fileData
  = if bool_decide (i < length files) then
      load_batches readAsText ignoreList fuel files (i + batchSize)
        (fileData
         ++ omap id (load_file readAsText ignoreList
                       <$> slice i (i + batchSize) files))
    else Some fileData.
Proof. done. Qed.

Lemma load_batches_spec readAsText ignoreList fuel files i fileData :
  length files - i < fuel →
  load_batches readAsText ignoreList fuel files i fileData
  = Some (fileData ++ omap (load_file readAsText ignoreList) (drop i files)).
Proof.
  revert i fileData. induction fuel as [|fuel IH]; intros i fileData Hfuel;
    [lia|].
  rewrite load_batches_unfold. case_bool_decide as Hi.
  - rewrite IH by (unfold batchSize; lia).
    rewrite omap_id_fmap, <-app_assoc, <-omap_app. do 3 f_equal.
    unfold slice. replace (i + batchSize - i) with batchSize by lia.
    by rewrite <-(drop_drop files batchSize i), take_drop.
  - by rewrite drop_ge, app_nil_r by lia.
Qed.

(** X21. Loading a directory in batches of twenty: when nothing was picked
    the files held stay as they are; otherwise the files held afterwards
    are, in the order they were picked, the files whose path is not ignored
    and whose text could be read, each once, with the relative path (or
    the name, when there is none) as path; no loaded path is an ignored
    one. *)
Theorem handleDirectorySelect_loads (readAsText : File → option string)
    (ignoreList : list string) (files : list File)
    (current : list SourceFile) :
  handleDirectorySelect readAsText ignoreList files current
  = Some (match files with
          | [] => current
          | _ => omap (load_file readAsText ignoreList) files
          end)
  ∧ (∀ loaded, loaded ∈ omap (load_file readAsText ignoreList) files →
       shouldIgnore ignoreList (path loaded) = false
       ∧ ∃ file, file ∈ files
           ∧ readAsText file = Some (file_content loaded)
           ∧ size loaded = File_size file
           ∧ path loaded
             = if bool_decide (webkitRelativePath file = EmptyString)
               then name file else webkitRelativePath file).
Proof.
  split.
  - unfold handleDirectorySelect. destruct files as [|file files]; [done|].
    rewrite bool_decide_eq_false_2 by done.
    rewrite load_batches_spec by lia. done.
  - intros loaded (file & Hin & Hload)%list_elem_of_omap.
    unfold load_file in Hload. cbv zeta in Hload.
    destruct (shouldIgnore ignoreList _) eqn:Hig; [done|].
    destruct (readAsText file) as [content|] eqn:Hread; [|done].
    simpl in Hload. injection Hload as <-. simpl.
    split; [done|]. by exists file.
Qed.

(** ** Reads outside an array *)

Lemma read_at_last {X : Type} (arr : list X) :
  read_at arr (Z.of_nat (length arr) - 1)
  = match arr with
    | [] => None
    | _ => arr !! (length arr - 1)
    end.
Proof.
  unfold read_at. destruct arr as [|x arr]; [done|].
  rewrite decide_True by (simpl; lia). f_equal. simpl. lia.
Qed.

Lemma coalesce_step_checked_first seg : coalesce_step_checked [] seg = None.
Proof. done. Qed.

Lemma coalesce_step_checked_later coalesced seg :
  coalesced ≠ [] →
  is_Some (read_at coalesced (Z.of_nat (length coalesced) - 1))
  ∧ coalesce_step_checked coalesced seg
    = Some (coalesce_step coalesced seg).
Proof.
  intros Hne. unfold coalesce_step_checked, coalesce_step.
  rewrite read_at_last. destruct coalesced as [|x l]; [done|].
  destruct ((x :: l) !! (length (x :: l) - 1)) as [last|] eqn:Hlast.
  - split; [done|]. simpl. by case_decide.
  - apply lookup_ge_None in Hlast. simpl in Hlast. lia.
Qed.

Lemma coalesce_step_nonempty coalesced seg : coalesce_step coalesced seg ≠ [].
Proof.
  unfold coalesce_step. intros Hnil%(f_equal length). revert Hnil.
  destruct (coalesced !! (length coalesced - 1)) as [last|] eqn:Hlast.
  - apply lookup_lt_Some in Hlast. case_decide.
    + rewrite length_insert. simpl. lia.
    + rewrite length_app. simpl. lia.
  - rewrite length_app. simpl. lia.
Qed.

Lemma mapM_total {X Y : Type} (f : X → option Y) (g : X → Y) (l : list X) :
  (∀ x, x ∈ l → f x = Some (g x)) → mapM f l = Some (g <$> l).
Proof.
  induction l as [|x l IH]; intros Hf; [done|]. simpl.
  rewrite (Hf x) by left. simpl. rewrite IH; [done|].
  intros y Hy. apply Hf. by right.
Qed.

Lemma make_pair_checked_ok v1Files v2Files v1Map v2Map s :
  file_map_inv v1Files v1Map → file_map_inv v2Files v2Map →
  s ∈ v1Map.*1 ++ v2Map.*1 →
  make_pair_checked v1Map v2Map s = Some (make_pair v1Map v2Map s).
Proof.
  intros H1 H2 Hin. unfold make_pair_checked, make_pair. cbv zeta.
  assert (filter (has_slug s) v1Files ≠ []
          ∨ filter (has_slug s) v2Files ≠ []) as Hne.
  { apply elem_of_app in Hin as [Hin|Hin]; [left|right].
    - apply (file_map_keys _ _ _ H1) in Hin as (f & Hf & Hs).
      intros Hnil.
      assert (f ∈ filter (has_slug s) v1Files) as Hin'
        by (by apply list_elem_of_filter).
      rewrite Hnil in Hin'. by apply elem_of_nil in Hin'.
    - apply (file_map_keys _ _ _ H2) in Hin as (f & Hf & Hs).
      intros Hnil.
      assert (f ∈ filter (has_slug s) v2Files) as Hin'
        by (by apply list_elem_of_filter).
      rewrite Hnil in Hin'. by apply elem_of_nil in Hin'. }
  rewrite (file_map_matches _ _ s H1), (file_map_matches _ _ s H2).
  destruct (filter (has_slug s) v1Files) as [|f1 l1];
    destruct (filter (has_slug s) v2Files) as [|f2 l2];
    repeat case_decide; simpl in *; first [done|lia|by destruct Hne].
Qed.

Lemma matchedPairs_checked_eq cmp v1Files v2Files :
  matchedPairs_checked cmp v1Files v2Files = matchedPairs cmp v1Files v2Files.
Proof.
  unfold matchedPairs_checked, matchedPairs. case_decide; [done|].
  destruct (buildFileMap_inv v1Files) as (v1Map & -> & H1).
  destruct (buildFileMap_inv v2Files) as (v2Map & -> & H2). simpl.
  rewrite (mapM_total _ (make_pair v1Map v2Map)); [done|].
  intros s Hs. apply (make_pair_checked_ok v1Files v2Files); [done..|].
  by apply new_Set_spec.
Qed.

(** C10. The engine is total: on every path [getFileSlug] returns a slug,
    on all file collections and with any comparison the matcher returns a
    list of pairs, on all texts (absent ones included) [calculateDiff]
    returns a diff, on all strings [getWordDiff] returns segments, on every
    sequence of lines [chunkifyDiff] returns chunks, and on all sequences
    the table is built and [backtrackLCS] returns from it; no loop runs on
    for ever and no error path is reached.  In the loop of [backtrackLCS],
    which runs while [i] or [j] is positive, the test for the added branch
    succeeds whenever [i] is 0 and [j] is positive; so the removed branch,
    whose read of [oldArr[i - 1]] would be outside the array for [i = 0],
    is entered with [i > 0] only.  The reads of [v1Matches[0]] and
    [v2Matches[0]] in the matcher are inside the arrays.  One read is not:
    when the segments of a pair are coalesced, [coalesced[coalesced.length
    - 1]] is a read at index -1 of the empty array on the first segment,
    which gives no element and makes the loop push the segment; the array
    is never empty afterwards, so the read is inside it on every later
    segment.  Every other array read and indexed write is inside its
    array. *)
Theorem engine_total :
  (∀ path, ∃ slug, getFileSlug path = Some slug)
  ∧ (∀ localeCompare v1Files v2Files,
       ∃ pairs, matchedPairs localeCompare v1Files v2Files = Some pairs)
  ∧ (∀ oldText newText, ∃ diff, calculateDiff oldText newText = Some diff)
  ∧ (∀ oldStr newStr, ∃ segs, getWordDiff oldStr newStr = Some segs)
  ∧ (∀ diff, ∃ chunks, chunkifyDiff diff = Some chunks)
  ∧ (∀ (oldArr newArr : list string)
       (makeOp : OpType → option nat → option nat → string → LineOp),
       ∃ dp ops, buildLCSTable oldArr newArr = Some dp
                 ∧ backtrackLCS dp oldArr newArr makeOp = Some ops)
  ∧ (∀ dp j, test_added dp 0 (S j) = Some true)
  ∧ (∀ (oldArr : list string), at_pred oldArr 0 = None)
  ∧ (∀ localeCompare v1Files v2Files,
       matchedPairs_checked localeCompare v1Files v2Files
       = matchedPairs localeCompare v1Files v2Files)
  ∧ (∀ seg,
       read_at ([] : list WordSegment)
         (Z.of_nat (length ([] : list WordSegment)) - 1) = None
       ∧ coalesce_step_checked [] seg = None
       ∧ coalesce_step [] seg = [seg])
  ∧ (∀ coalesced seg,
       coalesced ≠ [] →
       is_Some (read_at coalesced (Z.of_nat (length coalesced) - 1))
       ∧ coalesce_step_checked coalesced seg
         = Some (coalesce_step coalesced seg))
  ∧ (∀ coalesced seg, coalesce_step coalesced seg ≠ []).
Proof.
  split; [apply getFileSlug_total|].
  split; [apply matchedPairs_total|].
  split.
  { intros o n. destruct (calculateDiff_lines o n) as (diff & -> & _). eauto. }
  split; [apply getWordDiff_total|].
  split.
  { intros diff.
    destruct (chunkifyDiff_chunks diff) as (chunks & -> & _). eauto. }
  split; [intros; apply backtrackLCS_total|].
  split; [done|]. split; [done|].
  split; [apply matchedPairs_checked_eq|].
  split; [done|].
  split; [apply coalesce_step_checked_later|apply coalesce_step_nonempty].
Qed.

(** C10, counterexample.  Not every read is inside its array: in
    [calculateDiff("a", "b")] the lines [a] and [b] are paired, their word
    diff has a first segment, and coalescing it reads
    [coalesced[coalesced.length - 1]] at index -1 of the empty array.  With
    that read failing outside the array [calculateDiff] fails, where the
    program returns a diff. *)
Lemma calculateDiff_reads_before_start :
  (∃ seg rest,
     getWordDiff "a" "b" = Some (seg :: rest)
     ∧ read_at ([] : list WordSegment)
         (Z.of_nat (length ([] : list WordSegment)) - 1) = None
     ∧ coalesce_step_checked [] seg = None)
  ∧ calculateDiff_checked (Some "a") (Some "b") = None
  ∧ is_Some (calculateDiff (Some "a") (Some "b")).
Proof.
  split; [|split].
  - eexists _, _. split; [by vm_compute|]. done.
  - by vm_compute.
  - vm_compute. by eexists.
Qed.
